(** * ip-country-api: the provider client, its result formatter and the
      client orchestrator, embedded in Rocq.

    Sources embedded here:
    - [src/services/api-client.js]: [ApiError], [formatResult], class
      [ApiClient];
    - [src/services/api-client-ipxapi.js]: class [ApiClientIpxapi], the
      overriding methods of the second provider;
    - [src/services/api-client-orchestrator.js]: class
      [ApiClientOrchestrator].

    Conventions of the embedding.
    - JavaScript values that the formatter handles generically are terms of
      [value]; a plain object is an association list of properties in
      insertion order, read by first match.
    - Numbers are integers ([Z]): the counters, limits, HTTP statuses and
      clock readings of the program are integral.
    - A [Map] is a [gmap]; the [Map] constructor and the spread of a [Map]
      are spelled out ([Map_new], [Map_entries]).
    - Methods that mutate [this], throw, read the clock, call [fetch] or log
      run in a state-and-exception monad [M]; a thrown error keeps the state
      changes made before the throw, as in JavaScript.
    - [Date.now()] is an effect: every call takes the next reading of the
      clock of the environment, so two calls in the same method can differ.
    - A [getCountry] call is modelled running alone: nothing else touches
      the client while the call is suspended at [await]. *)

From stdpp Require Import gmap strings list fin_maps pretty.
From Stdlib Require Import ZArith Lia.

Set Warnings "-register-all".

Open Scope string_scope.
Open Scope Z_scope.

(** ** JavaScript values *)

Inductive value : Type :=
| VUndefined
| VNull
| VBool (b : bool)
| VNum (n : Z)
| VStr (s : string)
| VObj (props : list (string * value)).

(** A plain object: its own enumerable properties, in insertion order. *)
Abbreviation object := (list (string * value)).

(** ToBoolean. *)
Definition truthy (v : value) : bool :=
  match v with
  | VUndefined | VNull => false
  | VBool b => b
  | VNum n => negb (n =? 0)%Z
  | VStr s => negb (String.eqb s "")
  | VObj _ => true
  end.

(** [a || b] on values. *)
Definition js_or (a b : value) : value := if truthy a then a else b.

(** [o.k] for an object [o]: the property, or [undefined]. *)
Fixpoint get (o : object) (k : string) : value :=
  match o with
  | [] => VUndefined
  | (k', v) :: o' => if String.eqb k' k then v else get o' k
  end.

(** [k in o], for own properties. *)
Definition has (o : object) (k : string) : bool :=
  existsb (fun p => String.eqb (fst p) k) o.

(** [v.k] for a value that is neither [null] nor [undefined]: on a
    primitive the properties [message] and [status] read as [undefined]. *)
Definition member (v : value) (k : string) : value :=
  match v with
  | VObj o => get o k
  | _ => VUndefined
  end.

(** [o.k = v] on a plain object: overwrite in place, or append. *)
Fixpoint set (o : object) (k : string) (v : value) : object :=
  match o with
  | [] => [(k, v)]
  | (k', v') :: o' =>
      if String.eqb k' k then (k, v) :: o' else (k', v') :: set o' k v
  end.

(** The rest pattern [{ k1, ..., kn, ...rest }]: the own properties that are
    not named in the pattern. *)
Definition rest_without (named : list string) (o : object) : object :=
  List.filter (fun p => negb (existsb (String.eqb (fst p)) named)) o.

(** A destructuring default [{ k = d }]: [d] replaces [undefined] only. *)
Definition with_default (v d : value) : value :=
  match v with
  | VUndefined => d
  | _ => v
  end.

(** ** Errors *)

(** An [Error] instance as the program reads it: its [message], and its
    [status] when it has one ([ApiError] always has; the [TypeError],
    [SyntaxError] and [AbortError] of the platform have none). *)
Record JsError : Type := mkJsError {
  message : string;
  status : option Z
}.

(** [new ApiError(message, info)]:
    [this.status = info && info.status || 400]. The argument [info] is the
    [status] property of the info object, [None] when there is none. *)
Definition ApiError (msg : string) (info : option Z) : JsError :=
  {| message := msg;
     status := Some (match info with
                     | Some s => if (s =? 0)%Z then 400 else s
                     | None => 400
                     end) |}.

(** A native error of the platform: no [status] property. *)
Definition NativeError (msg : string) : JsError :=
  {| message := msg; status := None |}.

(** The error object as a value, with the properties the program reads. *)
Definition error_value (e : JsError) : value :=
  VObj (("message", VStr (message e)) ::
        match status e with
        | Some s => [("status", VNum s)]
        | None => []
        end).

(** ** The result formatter *)

Definition meta_keys : list string :=
  ["apiUrl"; "cache"; "rateLimit"; "rateLimitCount"].

(** [formatResult({ apiUrl, cache = false, rateLimit, rateLimitCount,
    ...result })]. *)
Definition formatResult (payload : object) : value :=
  let apiUrl := get payload "apiUrl" in
  let cache := with_default (get payload "cache") (VBool false) in
  let rateLimit := get payload "rateLimit" in
  let rateLimitCount := get payload "rateLimitCount" in
  let result := rest_without meta_keys payload in
  if truthy (get result "error") then
    let status := js_or (member (get result "error") "status") (VNum 400) in
    VObj [("error", VObj [("message", member (get result "error") "message")]);
          ("meta", VObj [("apiUrl", apiUrl);
                         ("rateLimit", rateLimit);
                         ("rateLimitCount", rateLimitCount);
                         ("status", status)])]
  else
    VObj [("data", VObj result);
          ("meta", VObj [("apiUrl", apiUrl);
                         ("cache", cache);
                         ("rateLimit", rateLimit);
                         ("rateLimitCount", rateLimitCount);
                         ("status", VNum 200)])].

(** Reading an envelope. *)
Definition path (v : value) (ks : list string) : value :=
  fold_left member ks v.

Definition is_error_envelope (v : value) : bool :=
  match v with VObj o => has o "error" | _ => false end.

Definition is_success_envelope (v : value) : bool :=
  match v with VObj o => has o "data" | _ => false end.

Definition keys (v : value) : list string :=
  match v with VObj o => List.map fst o | _ => [] end.

(** ** The environment of a client: clock, upstream, logger *)

Module ApiResultError.
(** The [error] object of an ipstack body. *)
Record t : Type := mk {
  info : option string;
  type : option string
}.
End ApiResultError.

Module ApiResult.
(** A parsed JSON body, with the properties the two clients read; [None]
    is a property that is absent. *)
Record t : Type := mk {
  error : option ApiResultError.t;
  country_name : option string;
  success : option bool;
  message : option string;
  country : option string
}.
End ApiResult.

(** What [response.json()] settles to: a rejection (a body that is not JSON),
    or the parsed body, [None] for the JSON text [null]. *)
Inductive JsonOutcome : Type :=
| JsonRejects (msg : string)
| JsonResolves (body : option ApiResult.t).

Module Response.
(** The shape of a fetch response the client depends on. *)
Record t : Type := mk {
  ok : bool;
  status : Z;
  statusText : string;
  json : JsonOutcome
}.
End Response.

(** What [fetch(url, { headers })] settles to. *)
Inductive FetchOutcome : Type :=
| FetchRejects (msg : string)
| FetchResolves (response : Response.t).

Record Request : Type := mkRequest {
  req_url : string;
  req_headers : option (list (string * string))
}.

(** The collaborators of the core: the [k]-th reading of [Date.now()], and
    the way the [k]-th call of [fetch] settles. *)
Record Env : Type := mkEnv {
  clock : nat → Z;
  upstream : nat → Request → FetchOutcome
}.

(** The effects performed so far: the number of clock readings taken, the
    requests issued with [fetch], the errors given to [console.error]. *)
Record World : Type := mkWorld {
  reads : nat;
  requests : list Request;
  logged : list JsError
}.

(** ** The state and exception monad *)

Inductive Result (A : Type) : Type :=
| Ok (a : A)
| Throw (e : JsError).
Arguments Ok {A} a.
Arguments Throw {A} e.

Definition M (S A : Type) : Type := S → Result A * S.

Definition ret {S A} (a : A) : M S A := fun s => (Ok a, s).

Definition bind {S A B} (m : M S A) (k : A → M S B) : M S B :=
  fun s =>
    match m s with
    | (Ok a, s') => k a s'
    | (Throw e, s') => (Throw e, s')
    end.

Definition throw {S A} (e : JsError) : M S A := fun s => (Throw e, s).

(** [try { body } catch (error) { handler }]. *)
Definition try_catch {S A} (body : M S A) (handler : JsError → M S A)
  : M S A :=
  fun s =>
    match body s with
    | (Ok a, s') => (Ok a, s')
    | (Throw e, s') => handler e s'
    end.

Notation "'let*' x ':=' m 'in' k" := (bind m (fun x => k))
  (at level 10, x name, m at level 100, k at level 200,
   format "'[v' 'let*'  x  ':='  m  'in' '/' k ']'").
Notation "m ';;' k" := (bind m (fun _ => k))
  (at level 100, k at level 200, right associativity).

(** An effect on the world, run next to a state [X]. *)
Definition liftW {X A} (m : M World A) : M (X * World) A :=
  fun s =>
    match m (snd s) with
    | (r, w') => (r, (fst s, w'))
    end.

(** One more reading of the clock has been taken. *)
Definition tick (w : World) : World :=
  {| reads := S (reads w); requests := requests w; logged := logged w |}.

(** [Date.now()]. *)
Definition Date_now (env : Env) : M World Z :=
  fun w => (Ok (clock env (reads w)), tick w).

(** One more request has been issued. *)
Definition sent (req : Request) (w : World) : World :=
  {| reads := reads w; requests := requests w ++ [req]; logged := logged w |}.

(** One more error has been logged. *)
Definition log (e : JsError) (w : World) : World :=
  {| reads := reads w; requests := requests w; logged := logged w ++ [e] |}.

(** [await fetch(url, { headers })]: a rejection is thrown at the [await]. *)
Definition fetch (env : Env) (url : string)
    (headers : option (list (string * string))) : M World Response.t :=
  fun w =>
    let req := {| req_url := url; req_headers := headers |} in
    match upstream env (length (requests w)) req with
    | FetchRejects msg => (Throw (NativeError msg), sent req w)
    | FetchResolves r => (Ok r, sent req w)
    end.

(** [await response.json()]. *)
Definition Response_json {S} (r : Response.t) : M S (option ApiResult.t) :=
  match Response.json r with
  | JsonRejects msg => throw (NativeError msg)
  | JsonResolves body => ret body
  end.

(** [console.error(error)]. *)
Definition console_error (e : JsError) : M World unit :=
  fun w => (Ok tt, log e w).

(** Reading a property of the JSON body [null] throws a [TypeError]; the
    text of its message is the engine's. *)
Definition TypeError_null (prop : string) : JsError :=
  NativeError ("Cannot read properties of null (reading '" ++ prop ++ "')").

(** ** Maps *)

(** [[...m]]: the entries of a [Map]. A [Map] iterates in insertion order;
    [map_to_list] gives the entries in some order, which is immaterial here
    since the keys of one map are distinct. *)
Definition Map_entries (m : gmap string string) : list (string * string) :=
  map_to_list m.

(** [new Map(entries)]: the entries are set one after the other, a later
    entry overwriting an earlier one with the same key. *)
Definition Map_new (entries : list (string * string)) : gmap string string :=
  fold_left (fun m kv => <[fst kv := snd kv]> m) entries ∅.

(** ** The provider client *)

Inductive Provider : Type :=
| Ipstack   (* class ApiClient *)
| Ipxapi.   (* class ApiClientIpxapi extends ApiClient *)

Definition DEFAULT_RATE_LIMIT : Z := 5.
Definition DEFAULT_RATE_LIMIT_TIMEFRAME : Z := 3600000.

Record ApiClient : Type := mkApiClient {
  provider : Provider;
  _baseUrl : string;
  _cache : gmap string string;
  _headers : option (list (string * string));
  _rateLimit : Z;
  _rateLimitCount : Z;
  _rateLimitExpiry : option Z;
  _rateLimitTimeframe : Z;
  _token : string
}.

Definition set_cache (m : gmap string string) (c : ApiClient) : ApiClient :=
  mkApiClient (provider c) (_baseUrl c) m (_headers c) (_rateLimit c)
    (_rateLimitCount c) (_rateLimitExpiry c) (_rateLimitTimeframe c)
    (_token c).

Definition set_headers (h : option (list (string * string))) (c : ApiClient)
  : ApiClient :=
  mkApiClient (provider c) (_baseUrl c) (_cache c) h (_rateLimit c)
    (_rateLimitCount c) (_rateLimitExpiry c) (_rateLimitTimeframe c)
    (_token c).

Definition set_rateLimitCount (n : Z) (c : ApiClient) : ApiClient :=
  mkApiClient (provider c) (_baseUrl c) (_cache c) (_headers c) (_rateLimit c)
    n (_rateLimitExpiry c) (_rateLimitTimeframe c) (_token c).

Definition set_rateLimitExpiry (e : option Z) (c : ApiClient) : ApiClient :=
  mkApiClient (provider c) (_baseUrl c) (_cache c) (_headers c) (_rateLimit c)
    (_rateLimitCount c) e (_rateLimitTimeframe c) (_token c).

(** The constructor argument. [baseUrl], [rateLimit] and [token] are any
    values, since the constructor checks their types; [rateLimitTimeframe]
    is a number or absent. *)
Record Config : Type := mkConfig {
  baseUrl : value;
  rateLimit : value;
  rateLimitTimeframe : option Z;
  token : value
}.

(** [new ApiClient({ baseUrl, rateLimit, rateLimitTimeframe, token })]. *)
Definition new_ApiClient (cfg : Config) : Result ApiClient :=
  match baseUrl cfg with
  | VStr url =>
      match rateLimit cfg with
      | VNum limit =>
          match token cfg with
          | VStr tok =>
              Ok {| provider := Ipstack;
                    _baseUrl := url;
                    _cache := ∅;
                    _headers := None;
                    _rateLimit := limit;
                    _rateLimitCount := 0;
                    _rateLimitExpiry := None;
                    _rateLimitTimeframe :=
                      match rateLimitTimeframe cfg with
                      | Some tf =>
                          if (tf =? 0)%Z then DEFAULT_RATE_LIMIT_TIMEFRAME
                          else tf
                      | None => DEFAULT_RATE_LIMIT_TIMEFRAME
                      end;
                    _token := tok |}
          | _ => Throw (NativeError "'token' option is invalid")
          end
      | _ => Throw (NativeError "'rateLimit' option is invalid")
      end
  | _ => Throw (NativeError "'baseUrl' option is invalid")
  end.

(** [new ApiClientIpxapi(options)]: [super(options)], then the headers. *)
Definition new_ApiClientIpxapi (cfg : Config) : Result ApiClient :=
  match new_ApiClient cfg with
  | Ok c =>
      Ok (set_headers
            (Some [("accept", "application/json");
                   ("authorization", "Bearer " ++ _token c)])
            (mkApiClient Ipxapi (_baseUrl c) (_cache c) (_headers c)
               (_rateLimit c) (_rateLimitCount c) (_rateLimitExpiry c)
               (_rateLimitTimeframe c) (_token c)))
  | Throw e => Throw e
  end.

(** A method call on a client: the state is [this] and the world. *)
Abbreviation Call := (M (ApiClient * World)).

Definition this : Call ApiClient := fun s => (Ok (fst s), s).

Definition update (f : ApiClient → ApiClient) : Call unit :=
  fun s => (Ok tt, (f (fst s), snd s)).

(** Truthiness of a string property that can be absent, and [a || d]. *)
Definition truthy_string (a : option string) : bool :=
  match a with
  | Some s => negb (String.eqb s "")
  | None => false
  end.

Definition or_string (a : option string) (d : string) : string :=
  match a with
  | Some s => if String.eqb s "" then d else s
  | None => d
  end.

Section Client.

Variable env : Env.

(** [get cache()]. *)
Definition cache : Call (gmap string string) :=
  let* c := this in ret (_cache c).

(** [isRateLimitExpired()]:
    [!this._rateLimitExpiry || Date.now() > this._rateLimitExpiry]. The
    clock is read only when the expiry is truthy. *)
Definition isRateLimitExpired : Call bool :=
  let* c := this in
  match _rateLimitExpiry c with
  | None => ret true
  | Some expiry =>
      if (expiry =? 0)%Z then ret true
      else
        let* now := liftW (Date_now env) in
        ret (now >? expiry)%Z
  end.

(** [get isRateLimited()]. *)
Definition isRateLimited : Call bool :=
  let* expired := isRateLimitExpired in
  if expired then ret false
  else
    let* c := this in
    ret (_rateLimitCount c >=? _rateLimit c)%Z.

(** The method [formatResult(payload)]:
    [formatResult({ ...payload, rateLimit, rateLimitCount })]. *)
Definition ApiClient_formatResult (payload : object) : Call value :=
  let* c := this in
  ret (formatResult
         (set (set payload "rateLimit" (VNum (_rateLimit c)))
            "rateLimitCount" (VNum (_rateLimitCount c)))).

(** [handleRateLimiting()]. *)
Definition handleRateLimiting : Call unit :=
  let* expired := isRateLimitExpired in
  (if expired then
     let* c := this in
     let* now := liftW (Date_now env) in
     update (set_rateLimitExpiry (Some (now + _rateLimitTimeframe c)%Z));;
     update (set_rateLimitCount 0)
   else ret tt);;
  let* limited := isRateLimited in
  (if limited then throw (ApiError "Rate limited" (Some 429))
   else ret tt);;
  let* c := this in
  update (set_rateLimitCount (_rateLimitCount c + 1)%Z).

(** [getCountryApiUrl(ip)], overridden by the ipXapi client. *)
Definition getCountryApiUrl (c : ApiClient) (ip : string) : string :=
  match provider c with
  | Ipstack => _baseUrl c ++ "/" ++ ip ++ "?access_key=" ++ _token c
  | Ipxapi => _baseUrl c ++ "/ip?ip=" ++ ip
  end.

(** [getCountryNameFromResult(result)], overridden by the ipXapi client.
    The JSON body [null] has no properties to read. *)
Definition getCountryNameFromResult (p : Provider)
    (result : option ApiResult.t) : Call (option string) :=
  match p, result with
  | Ipstack, Some r => ret (ApiResult.country_name r)
  | Ipstack, None => throw (TypeError_null "country_name")
  | Ipxapi, Some r => ret (ApiResult.country r)
  | Ipxapi, None => throw (TypeError_null "country")
  end.

(** [validateResponse(response)]. *)
Definition validateResponse (response : Response.t) : Call unit :=
  if negb (Response.ok response) then
    throw (ApiError
             (pretty (Response.status response) ++ " "
              ++ Response.statusText response)
             (Some (Response.status response)))
  else ret tt.

(** [validateResult(result)], overridden by the ipXapi client. *)
Definition validateResult (p : Provider) (result : option ApiResult.t)
  : Call unit :=
  match p, result with
  | Ipstack, Some r =>
      match ApiResult.error r with
      | Some err =>
          throw (ApiError
                   (or_string (ApiResultError.info err)
                      (or_string (ApiResultError.type err)
                         "An unknown error occurred"))
                   (Some (if bool_decide
                               (ApiResultError.type err
                                = Some "invalid_access_key")
                          then 401 else 400)))
      | None => ret tt
      end
  | Ipstack, None => throw (TypeError_null "error")
  | Ipxapi, Some r =>
      match ApiResult.success r with
      | Some false =>
          throw (ApiError
                   (or_string (ApiResult.message r)
                      "An unknown error occurred")
                   (Some 400))
      | _ => ret tt
      end
  | Ipxapi, None => throw (TypeError_null "success")
  end.

(** The [try] block of [getCountry]. *)
Definition getCountry_try (apiUrl ip : string) : Call value :=
  let* c := this in
  (* use cache when available *)
  let cachedCountryName := _cache c !! ip in
  if truthy_string cachedCountryName then
    ApiClient_formatResult
      [("cache", VBool true);
       ("name", VStr (default "" cachedCountryName))]
  else
    handleRateLimiting;;
    (* fetch from the API *)
    let* response := liftW (fetch env apiUrl (_headers c)) in
    (* validation *)
    validateResponse response;;
    let* result := Response_json response in
    validateResult (provider c) result;;
    let* name := getCountryNameFromResult (provider c) result in
    if negb (truthy_string name) then
      throw (ApiError "Country not found for this IP" (Some 400))
    else
      update (fun c' => set_cache (<[ip := default "" name]> (_cache c')) c');;
      ApiClient_formatResult
        [("apiUrl", VStr apiUrl); ("name", VStr (default "" name))].

(** The [catch] block of [getCountry]:
    [!error.status || error.status >= 500] decides the logging. *)
Definition getCountry_catch (apiUrl : string) (error : JsError)
  : Call value :=
  (if match status error with
      | None => true
      | Some s => (s =? 0)%Z || (s >=? 500)%Z
      end
   then liftW (console_error error)
   else ret tt);;
  ApiClient_formatResult [("apiUrl", VStr apiUrl);
                          ("error", error_value error)].

(** [async getCountry(ip)]. *)
Definition getCountry (ip : string) : Call value :=
  let* c := this in
  let apiUrl := getCountryApiUrl c ip in
  try_catch (getCountry_try apiUrl ip) (getCountry_catch apiUrl).

(** [transferCache(apiClient)], given the [cache] of [apiClient]:
    [this._cache = new Map([...this._cache, ...apiClient.cache])]. *)
Definition transferCache (apiClient_cache : gmap string string)
  : Call unit :=
  let* c := this in
  update (set_cache
            (Map_new (Map_entries (_cache c)
                      ++ Map_entries apiClient_cache))).

End Client.

(** ** What the getters return at a given clock reading

    These functions are not in the source: they name the value of
    [isRateLimitExpired()] and of [isRateLimited] on a client when the clock
    reads [t], for use in statements. [isRateLimitExpired_eq] and
    [isRateLimited_eq] below prove that the methods return them. *)

(** [this._rateLimitExpiry] is truthy: a number other than 0. *)
Definition expiry_truthy (c : ApiClient) : bool :=
  match _rateLimitExpiry c with
  | Some expiry => negb (expiry =? 0)%Z
  | None => false
  end.

Definition expired_at (c : ApiClient) (t : Z) : bool :=
  negb (expiry_truthy c) || (t >? default 0 (_rateLimitExpiry c))%Z.

Definition limited_at (c : ApiClient) (t : Z) : bool :=
  if expired_at c t then false
  else (_rateLimitCount c >=? _rateLimit c)%Z.

(** The world after [isRateLimitExpired()]: the clock was read when the
    expiry is truthy. *)
Definition after_expiry_check (c : ApiClient) (w : World) : World :=
  if expiry_truthy c then tick w else w.

(** The window of [c] is over when the clock reads [now]: it never started,
    or [now] is strictly after the expiry. *)
Definition over (c : ApiClient) (now : Z) : Prop :=
  _rateLimitExpiry c = None
  ∨ ∃ expiry, _rateLimitExpiry c = Some expiry ∧ (expiry < now)%Z.

(** The window that ends at [expiry] stays open from the [from]-th reading
    of the clock on: the expiry is truthy and no later reading passes it. *)
Definition window_open (env : Env) (expiry : Z) (from : nat) : Prop :=
  expiry ≠ 0%Z ∧ ∀ k, (from ≤ k)%nat → (clock env k ≤ expiry)%Z.

(** Two states of a client with the same settings: what the constructor
    fixes and no method changes. *)
Definition same_settings (c c' : ApiClient) : Prop :=
  provider c' = provider c ∧ _baseUrl c' = _baseUrl c
  ∧ _headers c' = _headers c ∧ _rateLimit c' = _rateLimit c
  ∧ _rateLimitTimeframe c' = _rateLimitTimeframe c ∧ _token c' = _token c.

(** The request [getCountry(ip)] issues. *)
Definition request_for (c : ApiClient) (ip : string) : Request :=
  {| req_url := getCountryApiUrl c ip; req_headers := _headers c |}.

(** Every name in the cache is a non-empty string. *)
Definition names_nonempty (m : gmap string string) : Prop :=
  map_Forall (fun _ name => name ≠ "") m.

(** The client after the first [if] of [handleRateLimiting()] when the
    window is over, given the reading [now] that its assignment takes. *)
Definition reset_window (now : Z) (c : ApiClient) : ApiClient :=
  set_rateLimitCount 0
    (set_rateLimitExpiry (Some (now + _rateLimitTimeframe c)%Z) c).

(** ** The envelopes of [getCountry]

    The three shapes a call returns (README, "Endpoints"), as values. *)

Definition meta_counters (c : ApiClient) : object :=
  [("rateLimit", VNum (_rateLimit c));
   ("rateLimitCount", VNum (_rateLimitCount c))].

Definition cached_envelope (c : ApiClient) (name : string) : value :=
  VObj [("data", VObj [("name", VStr name)]);
        ("meta", VObj (("apiUrl", VUndefined) :: ("cache", VBool true)
                       :: meta_counters c ++ [("status", VNum 200)]))].

Definition success_envelope (apiUrl : string) (c : ApiClient) (name : string)
  : value :=
  VObj [("data", VObj [("name", VStr name)]);
        ("meta", VObj (("apiUrl", VStr apiUrl) :: ("cache", VBool false)
                       :: meta_counters c ++ [("status", VNum 200)]))].

Definition error_envelope (apiUrl : string) (c : ApiClient) (msg : string)
    (code : Z) : value :=
  VObj [("error", VObj [("message", VStr msg)]);
        ("meta", VObj (("apiUrl", VStr apiUrl)
                       :: meta_counters c ++ [("status", VNum code)]))].

(** The error envelope of a caught error: its message, and its status when
    it has one, 400 otherwise. *)
Definition envelope_of_error (apiUrl : string) (c : ApiClient) (e : JsError)
  : value :=
  error_envelope apiUrl c (message e) (default 400 (status e)).

(** The condition the claim gives for logging: the status is absent or at
    least 500. *)
Definition absent_or_5xx (e : JsError) : bool :=
  match status e with
  | None => true
  | Some s => (500 <=? s)%Z
  end.

(** ** The client orchestrator *)

(** Clients are objects held by reference: a reference is a location of the
    heap. A location the heap does not hold stands for a value that is not a
    client ([undefined]), on which a property read throws. *)
Abbreviation loc := nat (only parsing).

Record ApiClientOrchestrator : Type := mkApiClientOrchestrator {
  activeApiClient : option loc;   (* #activeApiClient *)
  apiClients : list loc           (* #apiClients *)
}.

(** [new ApiClientOrchestrator({ apiClients })]: the active client is
    [apiClients[0]], [undefined] for an empty array. *)
Definition new_ApiClientOrchestrator (clients : list loc)
  : ApiClientOrchestrator :=
  {| activeApiClient := head clients; apiClients := clients |}.

Record Program : Type := mkProgram {
  heap : gmap loc ApiClient;
  orchestrator : ApiClientOrchestrator;
  world : World
}.

Definition TypeError_undefined (prop : string) : JsError :=
  NativeError
    ("Cannot read properties of undefined (reading '" ++ prop ++ "')").

(** A method call or property read on the object a reference denotes. *)
Definition on {A} (prop : string) (l : option loc) (m : Call A)
  : M Program A :=
  fun s =>
    match l ≫= (fun l' => (fun c => (l', c)) <$> heap s !! l') with
    | Some (l', c) =>
        match m (c, world s) with
        | (r, (c', w')) =>
            (r, {| heap := <[l' := c']> (heap s);
                   orchestrator := orchestrator s;
                   world := w' |})
        end
    | None => (Throw (TypeError_undefined prop), s)
    end.

Definition set_activeApiClient (l : option loc) : M Program unit :=
  fun s =>
    (Ok tt,
     {| heap := heap s;
        orchestrator := {| activeApiClient := l;
                           apiClients := apiClients (orchestrator s) |};
        world := world s |}).

Definition get_orchestrator : M Program ApiClientOrchestrator :=
  fun s => (Ok (orchestrator s), s).

(** [array.find(callback)]: the first element, in index order, on which the
    callback is truthy. *)
Fixpoint Array_find {S} (callback : loc → M S bool) (array : list loc)
  : M S (option loc) :=
  match array with
  | [] => ret None
  | x :: array' =>
      let* found := callback x in
      if found then ret (Some x) else Array_find callback array'
  end.

Section Orchestrator.

Variable env : Env.

(** [get apiClient()]. *)
Definition apiClient : M Program (option loc) :=
  let* o := get_orchestrator in
  (* if the currently active API client isn't rate limited,
     just continue using it *)
  let* limited := on "isRateLimited" (activeApiClient o) (isRateLimited env) in
  if negb limited then ret (activeApiClient o)
  else
    let* qualifiedApiClient :=
      Array_find
        (fun apiClient =>
           let* limited' :=
             on "isRateLimited" (Some apiClient) (isRateLimited env) in
           ret (negb limited'))
        (apiClients o) in
    match qualifiedApiClient with
    | None =>
        (* if no qualified, then just use the currently active API client *)
        ret (activeApiClient o)
    | Some q =>
        (* transfer cache from current API client to the next *)
        let* source := on "cache" (activeApiClient o) cache in
        on "transferCache" (Some q) (transferCache source);;
        set_activeApiClient (Some q);;
        ret (Some q)
    end.

End Orchestrator.

(** ** Running calls one after the other *)

(** [getCountry] called on one client for each address in turn; the
    envelopes are collected in call order. *)
Fixpoint getCountry_each (env : Env) (ips : list string)
  : Call (list value) :=
  match ips with
  | [] => ret []
  | ip :: ips' =>
      let* envelope := getCountry env ip in
      let* envelopes := getCountry_each env ips' in
      ret (envelope :: envelopes)
  end.

(** ** The controller and the handlers of the application

    [src/controllers/countries.js] and [src/app.js]. What a handler hands to
    [res.status(...).json(...)] is the response. *)

Record HttpResponse : Type := mkHttpResponse {
  res_status : value;
  res_body : value
}.

(** [res.status(result.meta.status).json(result)]. *)
Definition respond (result : value) : HttpResponse :=
  {| res_status := path result ["meta"; "status"]; res_body := result |}.

Module countries.
(** The route controller [getCountry(req, res)], for [req.params.ip = ip]:
    [await apiClientOrchestrator.apiClient.getCountry(req.params.ip)]. *)
Definition getCountry (env : Env) (ip : string) : M Program HttpResponse :=
  let* client := apiClient env in
  let* result := on "getCountry" client (getCountry env ip) in
  ret (respond result).

(** The orchestrator of the module: an ipstack client and an ipXapi client,
    in this order, built from the two configurations of [config.js]; a
    constructor that throws makes the module fail to load. *)
Definition init (ipstack ipxapi : Config) (w : World) : Result Program :=
  match new_ApiClient ipstack with
  | Ok c1 =>
      match new_ApiClientIpxapi ipxapi with
      | Ok c2 =>
          Ok {| heap := <[0%nat := c1]> (<[1%nat := c2]> ∅);
                orchestrator := new_ApiClientOrchestrator [0%nat; 1%nat];
                world := w |}
      | Throw e => Throw e
      end
  | Throw e => Throw e
  end.
End countries.

Module app.
(** The handler of unmatched routes. *)
Definition not_found : HttpResponse :=
  respond (formatResult
             [("error", error_value (ApiError "404 Not Found" (Some 404)))]).

(** The error handler [(error, req, res, __)], for [req.timedout]. *)
Definition on_error (error : JsError) (timedout : bool)
  : M World HttpResponse :=
  console_error error;;
  let status := if negb timedout then 500 else 408 in
  ret (respond (formatResult
                  [("error",
                    error_value (ApiError (message error) (Some status)))])).
End app.

(** Requests handled by the controller one after the other. *)
Fixpoint handle_each (env : Env) (ips : list string)
  : M Program (list HttpResponse) :=
  match ips with
  | [] => ret []
  | ip :: ips' =>
      let* response := countries.getCountry env ip in
      let* responses := handle_each env ips' in
      ret (response :: responses)
  end.

(** ** Predicates used in the statements about sequences of calls *)

(** The readings of the clock never decrease. *)
Definition monotone (env : Env) : Prop :=
  ∀ j k, (j ≤ k)%nat → (clock env j ≤ clock env k)%Z.

(** The window of [c] is known to be over: its expiry is falsy, or a reading
    already taken was after it. *)
Definition stale (env : Env) (c : ApiClient) (w : World) : Prop :=
  expiry_truthy c = false
  ∨ ∃ j, (j < reads w)%nat
         ∧ (default 0 (_rateLimitExpiry c) < clock env j)%Z.

(** The counter is within the limit, or one above it in a window that is
    over. *)
Definition within_bound (env : Env) (c : ApiClient) (w : World) : Prop :=
  (0 ≤ _rateLimitCount c)%Z
  ∧ ((_rateLimitCount c ≤ _rateLimit c)%Z
     ∨ ((_rateLimitCount c ≤ _rateLimit c + 1)%Z ∧ stale env c w)).

(** The references of the orchestrator all denote clients. *)
Definition well_formed (s : Program) : Prop :=
  (∃ a, activeApiClient (orchestrator s) = Some a
        ∧ is_Some (heap s !! a))
  ∧ ∀ l, l ∈ apiClients (orchestrator s) → is_Some (heap s !! l).

(** Whether a client of the orchestrator is rate-limited does not depend on
    the reading, from the next reading on, and is given by [lim]. *)
Definition stable_limits (env : Env) (s : Program) (lim : nat → bool)
  : Prop :=
  ∀ l c k,
    Some l = activeApiClient (orchestrator s)
    ∨ l ∈ apiClients (orchestrator s) →
    heap s !! l = Some c →
    (reads (world s) ≤ k)%nat →
    limited_at c (clock env k) = lim l.

(** The body of an ok response carries no error for the provider and no
    country name. *)
Definition nameless (p : Provider) (body : ApiResult.t) : Prop :=
  match p with
  | Ipstack =>
      ApiResult.error body = None
      ∧ truthy_string (ApiResult.country_name body) = false
  | Ipxapi =>
      ApiResult.success body ≠ Some false
      ∧ truthy_string (ApiResult.country body) = false
  end.

(** [typeof v]. *)
Definition typeof (v : value) : string :=
  match v with
  | VUndefined => "undefined"
  | VNull => "object"
  | VBool _ => "boolean"
  | VNum _ => "number"
  | VStr _ => "string"
  | VObj _ => "object"
  end.

(** ** Concrete clients, worlds and environments

    The fixtures of the unit tests, used for the examples below. *)

Definition client_with_cache (m : gmap string string) : ApiClient :=
  {| provider := Ipstack; _baseUrl := "http://api.ipstack.com"; _cache := m;
     _headers := None; _rateLimit := 5; _rateLimitCount := 0;
     _rateLimitExpiry := None; _rateLimitTimeframe := 60000;
     _token := "abc123" |}.

Definition world0 : World := {| reads := 0; requests := []; logged := [] |}.

Definition body_somewhere : ApiResult.t :=
  ApiResult.mk None (Some "Somewhere") None None None.

Definition response_ok (body : option ApiResult.t) : Response.t :=
  Response.mk true 200 "OK" (JsonResolves body).

Definition response_failed (code : Z) (text : string) : Response.t :=
  Response.mk false code text (JsonRejects "Unexpected end of JSON input").

(** An environment whose upstream always settles the same way, and whose
    clock advances by [step] milliseconds at every reading. *)
Definition env_const (step : Z) (o : FetchOutcome) : Env :=
  {| clock := fun k => 1700000000000 + step * Z.of_nat k;
     upstream := fun _ _ => o |}.

(** The mocked [fetch] of the unit tests. *)
Definition env_test : Env :=
  env_const 1 (FetchResolves (response_ok (Some body_somewhere))).

Definition config_test : Config :=
  {| baseUrl := VStr "http://api.ipstack.com"; rateLimit := VNum 5;
     rateLimitTimeframe := Some 60000; token := VStr "abc123" |}.

(** [new ApiClient(config_test)]. *)
Definition client_test : ApiClient := client_with_cache ∅.

(** A clock that ticks between the two checks of the gate: the third
    reading is the last millisecond of a one-minute window opened at the
    first reading, the fourth is one millisecond later. *)
Definition env_race : Env :=
  {| clock := fun k =>
       match k with
       | O | S O => 1700000000000
       | S (S O) => 1700000060000
       | _ => 1700000060001
       end;
     upstream := fun _ _ => FetchResolves (response_ok (Some body_somewhere)) |}.

Definition config_one : Config :=
  {| baseUrl := VStr "http://api.ipstack.com"; rateLimit := VNum 1;
     rateLimitTimeframe := Some 60000; token := VStr "abc123" |}.

(** ** Sequences of calls that each see one time value *)

(** The clock does not advance during the call that starts at the
    [from]-th reading (a call reads the clock at most three times). *)
Definition steady (env : Env) (from : nat) : Prop :=
  ∀ k, (from ≤ k < from + 3)%nat → clock env k = clock env from.

(** [called env s s']: from [s], calls of [getCountry] on the client, each
    of them made while the clock is steady, lead to [s']. *)
Inductive called (env : Env) (s : ApiClient * World)
  : ApiClient * World → Prop :=
| called_none : called env s s
| called_more (s' s'' : ApiClient * World) (ip : string) (r : Result value) :
    called env s s' →
    steady env (reads (snd s')) →
    getCountry env ip s' = (r, s'') →
    called env s s''.

(** The clients the code produces: a client comes from one of the two
    constructors, and is then only changed by its own methods, on any clock
    and any upstream: [getCountry], [handleRateLimiting], and
    [transferCache], whose argument is another such client (the
    orchestrator passes the active client). *)
Inductive produced : ApiClient → Prop :=
| produced_new (cfg : Config) (c : ApiClient) :
    new_ApiClient cfg = Ok c → produced c
| produced_new_ipxapi (cfg : Config) (c : ApiClient) :
    new_ApiClientIpxapi cfg = Ok c → produced c
| produced_getCountry (env : Env) (ip : string) (c : ApiClient) (w : World)
    (r : Result value) (c' : ApiClient) (w' : World) :
    produced c → getCountry env ip (c, w) = (r, (c', w')) → produced c'
| produced_handleRateLimiting (env : Env) (c : ApiClient) (w : World)
    (r : Result unit) (c' : ApiClient) (w' : World) :
    produced c → handleRateLimiting env (c, w) = (r, (c', w')) → produced c'
| produced_transferCache (source c : ApiClient) (w : World)
    (r : Result unit) (c' : ApiClient) (w' : World) :
    produced source → produced c →
    transferCache (_cache source) (c, w) = (r, (c', w')) → produced c'.

(** Two clients behind an orchestrator: the first has used its budget of
    the window that ends one minute after the clock of [env_const 0]; the
    second is new. *)
Definition client_exhausted : ApiClient :=
  {| provider := Ipstack; _baseUrl := "http://api.ipstack.com";
     _cache := {["156.24.151.42" := "United States"]};
     _headers := None; _rateLimit := 5; _rateLimitCount := 5;
     _rateLimitExpiry := Some 1700000060000; _rateLimitTimeframe := 60000;
     _token := "abc123" |}.

Definition client_second : ApiClient :=
  {| provider := Ipxapi; _baseUrl := "https://ipxapi.com/api";
     _cache := ∅;
     _headers := Some [("accept", "application/json");
                       ("authorization", "Bearer def456")];
     _rateLimit := 5; _rateLimitCount := 0;
     _rateLimitExpiry := None; _rateLimitTimeframe := 60000;
     _token := "def456" |}.

Definition program_test : Program :=
  {| heap := <[0%nat := client_exhausted]> (<[1%nat := client_second]> ∅);
     orchestrator := new_ApiClientOrchestrator [0%nat; 1%nat];
     world := world0 |}.

Definition config_negative : Config :=
  {| baseUrl := VStr "http://api.ipstack.com"; rateLimit := VNum 0;
     rateLimitTimeframe := Some (-1); token := VStr "abc123" |}.

(** * Properties *)

(** ** The result formatter *)

(** The two unit tests of [formatResult]. *)
Example formatResult_test_error :
  formatResult [("apiUrl", VStr "https://www.foo.software");
                ("error", VObj [("message", VStr "Unauthorized");
                                ("status", VNum 401)])]
  = VObj [("error", VObj [("message", VStr "Unauthorized")]);
          ("meta", VObj [("apiUrl", VStr "https://www.foo.software");
                         ("rateLimit", VUndefined);
                         ("rateLimitCount", VUndefined);
                         ("status", VNum 401)])].
Proof. reflexivity. Qed.

Example formatResult_test_success :
  formatResult [("cache", VBool true); ("country", VStr "United States");
                ("rateLimit", VNum 5); ("rateLimitCount", VNum 1)]
  = VObj [("data", VObj [("country", VStr "United States")]);
          ("meta", VObj [("apiUrl", VUndefined);
                         ("cache", VBool true);
                         ("rateLimit", VNum 5);
                         ("rateLimitCount", VNum 1);
                         ("status", VNum 200)])].
Proof. reflexivity. Qed.

Lemma get_rest_without named (o : object) k :
  existsb (String.eqb k) named = false →
  get (rest_without named o) k = get o k.
Proof.
  intros Hk. induction o as [|[k' v] o IH]; simpl; [done|].
  destruct (String.eqb_spec k' k) as [->|Hne].
  - rewrite Hk. simpl. by rewrite String.eqb_refl.
  - destruct (existsb (String.eqb k') named); simpl; [done|].
    destruct (String.eqb_spec k' k); [done|]. apply IH.
Qed.

Lemma existsb_eqb_In (k : string) named :
  existsb (String.eqb k) named = true ↔ In k named.
Proof.
  rewrite existsb_exists. split.
  - intros (x & Hx & Heq). apply String.eqb_eq in Heq. by subst.
  - intros Hin. exists k. split; [done|]. apply String.eqb_refl.
Qed.

Lemma In_rest_without named (o : object) k v :
  In (k, v) (rest_without named o) ↔ In (k, v) o ∧ ¬ In k named.
Proof.
  unfold rest_without. rewrite filter_In. simpl.
  rewrite negb_true_iff, <- not_true_iff_false, existsb_eqb_In. done.
Qed.

Lemma has_false_get (o : object) k : has o k = false → get o k = VUndefined.
Proof.
  unfold has. induction o as [|[k' v] o IH]; simpl; [done|].
  destruct (String.eqb k' k); simpl; [done|]. apply IH.
Qed.

(** C10. [formatResult] is a function of its payload alone. On a payload
    whose [error] property is an object, the envelope's [error] holds the
    message and nothing else, its [meta] has the four keys [apiUrl],
    [rateLimit], [rateLimitCount] and [status] (no [cache]), and its status
    is the error's own status when the error carries one (an HTTP status
    code, a number other than 0) and 400 when the error carries none. On a
    payload without an [error]
    property, the status is 200 and [data] holds exactly the properties of
    the payload other than [apiUrl], [cache], [rateLimit], [rateLimitCount],
    with their values. *)
Theorem formatResult_envelope (payload : object) :
  (∀ err : object,
      get payload "error" = VObj err →
      path (formatResult payload) ["error"]
        = VObj [("message", get err "message")]
      ∧ keys (formatResult payload) = ["error"; "meta"]
      ∧ keys (path (formatResult payload) ["meta"])
        = ["apiUrl"; "rateLimit"; "rateLimitCount"; "status"]
      ∧ path (formatResult payload) ["meta"; "apiUrl"] = get payload "apiUrl"
      ∧ path (formatResult payload) ["meta"; "rateLimit"]
        = get payload "rateLimit"
      ∧ path (formatResult payload) ["meta"; "rateLimitCount"]
        = get payload "rateLimitCount"
      ∧ (∀ s : Z, get err "status" = VNum s → s ≠ 0 →
           path (formatResult payload) ["meta"; "status"] = VNum s)
      ∧ (get err "status" = VUndefined →
           path (formatResult payload) ["meta"; "status"] = VNum 400))
  ∧ (has payload "error" = false →
      keys (formatResult payload) = ["data"; "meta"]
      ∧ path (formatResult payload) ["meta"; "status"] = VNum 200
      ∧ path (formatResult payload) ["meta"; "cache"]
        = with_default (get payload "cache") (VBool false)
      ∧ path (formatResult payload) ["data"]
        = VObj (rest_without meta_keys payload)
      ∧ (∀ k v, In (k, v) (rest_without meta_keys payload)
                ↔ In (k, v) payload ∧ ¬ In k meta_keys)
      ∧ (∀ k, ¬ In k meta_keys →
              path (formatResult payload) ["data"; k] = get payload k)).
Proof.
  split.
  - intros err Herr. unfold formatResult.
    rewrite get_rest_without by reflexivity. rewrite Herr. simpl.
    repeat split; try reflexivity.
    + intros s Hs Hne. unfold js_or. rewrite Hs. simpl.
      destruct (Z.eqb_spec s 0); [contradiction|reflexivity].
    + intros Hs. unfold js_or. rewrite Hs. reflexivity.
  - intros Hno. unfold formatResult.
    rewrite get_rest_without by reflexivity.
    rewrite (has_false_get _ _ Hno). simpl.
    do 4 (split; [reflexivity|]). split.
    + intros k v. apply In_rest_without.
    + intros k Hk. apply get_rest_without.
      apply not_true_iff_false. by rewrite existsb_eqb_In.
Qed.

Lemma formatResult_envelope_witness :
  path (formatResult [("apiUrl", VStr "u");
                      ("error", VObj [("message", VStr "Unauthorized");
                                      ("status", VNum 401)])])
    ["meta"; "status"] = VNum 401
  ∧ path (formatResult [("cache", VBool true); ("name", VStr "Somewhere")])
      ["data"; "name"] = VStr "Somewhere".
Proof.
  split.
  - pose proof (formatResult_envelope
                  [("apiUrl", VStr "u");
                   ("error", VObj [("message", VStr "Unauthorized");
                                   ("status", VNum 401)])]) as [He _].
    destruct (He [("message", VStr "Unauthorized"); ("status", VNum 401)]
                eq_refl) as (_ & _ & _ & _ & _ & _ & Hs & _).
    apply (Hs 401); [reflexivity|lia].
  - pose proof (formatResult_envelope
                  [("cache", VBool true); ("name", VStr "Somewhere")])
      as [_ Hd].
    destruct (Hd eq_refl) as (_ & _ & _ & _ & _ & Hk).
    apply (Hk "name"). simpl. intuition discriminate.
Defined.

(** The status of the error has to be a status code: 0, which is none, is
    taken for an absent status and replaced by 400. *)
Lemma formatResult_status_zero :
  get [("message", VStr "m"); ("status", VNum 0)] "status" = VNum 0
  ∧ path (formatResult [("error", VObj [("message", VStr "m");
                                        ("status", VNum 0)])])
      ["meta"; "status"] = VNum 400.
Proof. split; reflexivity. Qed.

(** ** Maps *)

Lemma fold_left_insert_union (l : list (string * string))
    (m : gmap string string) :
  fold_left (fun m kv => <[fst kv := snd kv]> m) l m
  = list_to_map (reverse l) ∪ m.
Proof.
  revert m. induction l as [|[k v] l IH]; intros m; simpl.
  - by rewrite (left_id_L ∅ (∪)).
  - rewrite IH, reverse_cons, list_to_map_app. simpl.
    rewrite <- (assoc_L (∪)). f_equal.
    rewrite insert_empty. apply insert_union_singleton_l.
Qed.

Lemma list_to_map_reverse_entries (m : gmap string string) :
  list_to_map (reverse (map_to_list m)) = m.
Proof.
  rewrite <- (list_to_map_to_list m) at 2. symmetry.
  apply list_to_map_proper.
  - apply NoDup_fst_map_to_list.
  - symmetry. apply reverse_Permutation.
Qed.

(** Building a [Map] from the entries of [a] followed by those of [b] gives
    the union in which [b] overrides [a]. *)
Lemma Map_new_entries_app (a b : gmap string string) :
  Map_new (Map_entries a ++ Map_entries b) = b ∪ a.
Proof.
  unfold Map_new, Map_entries.
  rewrite fold_left_insert_union, (right_id_L ∅ (∪)).
  rewrite reverse_app, list_to_map_app.
  by rewrite !list_to_map_reverse_entries.
Qed.

(** ** [transferCache] *)

Lemma transferCache_eq (a : ApiClient) (w : World)
    (b_cache : gmap string string) :
  transferCache b_cache (a, w) = (Ok tt, (set_cache (b_cache ∪ _cache a) a, w)).
Proof.
  unfold transferCache, bind, this, update. simpl.
  by rewrite Map_new_entries_app.
Qed.

(** C1, as the code has it. After [A.transferCache(B)] the cache of [A]
    holds every key of its prior cache and every key of the cache of [B];
    an address that only [A] held keeps the value of [A]; for an address
    present in both caches the value of [B], the source, replaces the value
    [A] held. Nothing else of [A] changes, and the call does not throw. *)
Theorem transferCache_merge (a : ApiClient) (w : World)
    (b_cache : gmap string string) :
  ∃ a' : ApiClient,
    transferCache b_cache (a, w) = (Ok tt, (a', w))
    ∧ dom (_cache a') = dom (_cache a) ∪ dom b_cache
    ∧ (∀ ip y, b_cache !! ip = Some y → _cache a' !! ip = Some y)
    ∧ (∀ ip, b_cache !! ip = None → _cache a' !! ip = _cache a !! ip)
    ∧ a' = set_cache (_cache a') a.
Proof.
  exists (set_cache (b_cache ∪ _cache a) a).
  split; [apply transferCache_eq|]. simpl.
  split; [rewrite dom_union_L; apply (comm_L (∪))|].
  split; [intros ip y Hy; by apply lookup_union_Some_l|].
  split; [intros ip Hn; by apply lookup_union_r|done].
Qed.

Lemma transferCache_merge_witness :
  ∃ a' : ApiClient,
    transferCache {["1.1.1.1" := "My Country"]}
      (client_with_cache {["111.22.333.44" := "Somewhere"]}, world0)
    = (Ok tt, (a', world0))
    ∧ _cache a' !! "1.1.1.1" = Some "My Country"
    ∧ _cache a' !! "111.22.333.44" = Some "Somewhere".
Proof.
  destruct (transferCache_merge
              (client_with_cache {["111.22.333.44" := "Somewhere"]}) world0
              {["1.1.1.1" := "My Country"]})
    as (a' & Hrun & _ & Hb & Ha & _).
  exists a'. split; [exact Hrun|]. split.
  - apply Hb. reflexivity.
  - rewrite Ha; reflexivity.
Defined.

(** The claim as written fails: when both caches hold the address, the
    receiver ends with the value of the source, not with its own. *)
Lemma transferCache_receiver_value_replaced :
  _cache (client_with_cache {["1.1.1.1" := "X"]}) !! "1.1.1.1" = Some "X"
  ∧ ({["1.1.1.1" := "Y"]} : gmap string string) !! "1.1.1.1" = Some "Y"
  ∧ ∃ a', transferCache {["1.1.1.1" := "Y"]}
            (client_with_cache {["1.1.1.1" := "X"]}, world0)
          = (Ok tt, (a', world0))
          ∧ _cache a' !! "1.1.1.1" = Some "Y"
          ∧ _cache a' !! "1.1.1.1" ≠ Some "X".
Proof.
  split; [reflexivity|]. split; [reflexivity|].
  eexists. split; [apply transferCache_eq|]. split; [reflexivity|].
  vm_compute. discriminate.
Qed.

(** ** The rate-limit gate *)

Section Gate.

Variable env : Env.

Lemma isRateLimitExpired_eq (c : ApiClient) (w : World) :
  isRateLimitExpired env (c, w)
  = (Ok (expired_at c (clock env (reads w))), (c, after_expiry_check c w)).
Proof.
  unfold isRateLimitExpired, expired_at, after_expiry_check, expiry_truthy,
    bind, this, ret, liftW, Date_now. simpl.
  destruct (_rateLimitExpiry c) as [e|]; simpl; [|done].
  destruct (Z.eqb_spec e 0); simpl; done.
Qed.

Lemma isRateLimited_eq (c : ApiClient) (w : World) :
  isRateLimited env (c, w)
  = (Ok (limited_at c (clock env (reads w))), (c, after_expiry_check c w)).
Proof.
  unfold isRateLimited, bind. rewrite isRateLimitExpired_eq.
  unfold limited_at. by destruct (expired_at c _).
Qed.

Lemma handleRateLimiting_eq (c : ApiClient) (w : World) :
  handleRateLimiting env (c, w)
  = let w1 := after_expiry_check c w in
    let c2 := if expired_at c (clock env (reads w))
              then reset_window (clock env (reads w1)) c else c in
    let w2 := if expired_at c (clock env (reads w)) then tick w1 else w1 in
    let w3 := after_expiry_check c2 w2 in
    if limited_at c2 (clock env (reads w2))
    then (Throw (ApiError "Rate limited" (Some 429)), (c2, w3))
    else (Ok tt, (set_rateLimitCount (_rateLimitCount c2 + 1) c2, w3)).
Proof.
  unfold handleRateLimiting, bind at 1. rewrite isRateLimitExpired_eq.
  cbv zeta.
  destruct (expired_at c (clock env (reads w))).
  - unfold bind, this, update, liftW, Date_now, ret, throw. simpl.
    rewrite isRateLimited_eq.
    by destruct (limited_at _ _).
  - unfold bind, this, update, ret, throw. simpl.
    rewrite isRateLimited_eq.
    by destruct (limited_at _ _).
Qed.

End Gate.

(** ** [getCountry], step by step *)

Section GetCountry.

Variable env : Env.

Lemma formatResult_cached (c : ApiClient) (w : World) (name : string) :
  ApiClient_formatResult
    [("cache", VBool true); ("name", VStr name)] (c, w)
  = (Ok (cached_envelope c name), (c, w)).
Proof. reflexivity. Qed.

Lemma formatResult_success (c : ApiClient) (w : World) (url name : string) :
  ApiClient_formatResult
    [("apiUrl", VStr url); ("name", VStr name)] (c, w)
  = (Ok (success_envelope url c name), (c, w)).
Proof. reflexivity. Qed.

Lemma formatResult_error (c : ApiClient) (w : World) (url : string)
    (e : JsError) :
  status e ≠ Some 0 →
  ApiClient_formatResult
    [("apiUrl", VStr url); ("error", error_value e)] (c, w)
  = (Ok (envelope_of_error url c e), (c, w)).
Proof.
  intros Hs. destruct e as [msg [s|]]; simpl in *; [|reflexivity].
  unfold ApiClient_formatResult, bind, this, ret, envelope_of_error,
    error_envelope. simpl. unfold formatResult. simpl. unfold js_or. simpl.
  destruct (Z.eqb_spec s 0); [congruence|reflexivity].
Qed.

(** The [catch] block never throws; it logs errors without status or with
    a status of 500 and more, and formats the error. *)
Lemma getCountry_catch_eq (c : ApiClient) (w : World) (url : string)
    (e : JsError) :
  status e ≠ Some 0 →
  getCountry_catch url e (c, w)
  = (Ok (envelope_of_error url c e),
     (c, if absent_or_5xx e then log e w else w)).
Proof.
  intros Hs. unfold getCountry_catch, absent_or_5xx, bind.
  destruct (status e) as [s|] eqn:Hst.
  - destruct (Z.eqb_spec s 0) as [->|Hne]; [congruence|]. simpl.
    replace (s >=? 500) with (500 <=? s) by lia.
    destruct (500 <=? s); simpl;
      (rewrite formatResult_error; [reflexivity|congruence]).
  - simpl. rewrite formatResult_error; [reflexivity|congruence].
Qed.

Lemma getCountry_eq (c : ApiClient) (w : World) (ip : string) :
  getCountry env ip (c, w)
  = try_catch (getCountry_try env (getCountryApiUrl c ip) ip)
      (getCountry_catch (getCountryApiUrl c ip)) (c, w).
Proof. reflexivity. Qed.

(** A cache hit: the cached name is truthy. *)
Lemma getCountry_try_hit (c : ApiClient) (w : World) (url ip name : string) :
  _cache c !! ip = Some name → name ≠ "" →
  getCountry_try env url ip (c, w) = (Ok (cached_envelope c name), (c, w)).
Proof.
  intros Hc Hne. unfold getCountry_try, bind at 1. simpl. rewrite Hc. simpl.
  destruct (String.eqb_spec name ""); [contradiction|]. simpl.
  apply formatResult_cached.
Qed.

(** A cache miss whose gate rejects. *)
Lemma getCountry_try_rejected (c : ApiClient) (w : World)
    (url ip : string) (e : JsError) (s1 : ApiClient * World) :
  truthy_string (_cache c !! ip) = false →
  handleRateLimiting env (c, w) = (Throw e, s1) →
  getCountry_try env url ip (c, w) = (Throw e, s1).
Proof.
  intros Hm Hg. unfold getCountry_try, bind at 1. simpl. rewrite Hm.
  unfold bind at 1. by rewrite Hg.
Qed.

(** A cache miss whose gate lets the call through: one request is issued;
    the call then either throws, leaving the client as the gate left it,
    or stores a non-empty name and returns the success envelope. *)
Lemma getCountry_try_passed (c : ApiClient) (w : World) (url ip : string)
    (c1 : ApiClient) (w1 : World) :
  truthy_string (_cache c !! ip) = false →
  handleRateLimiting env (c, w) = (Ok tt, (c1, w1)) →
  let w2 := sent {| req_url := url; req_headers := _headers c |} w1 in
  (∃ e, status e ≠ Some 0
        ∧ getCountry_try env url ip (c, w) = (Throw e, (c1, w2)))
  ∨ (∃ name, name ≠ ""
        ∧ getCountry_try env url ip (c, w)
          = (Ok (success_envelope url c1 name),
             (set_cache (<[ip := name]> (_cache c1)) c1, w2))).
Proof.
  intros Hm Hg w2. subst w2.
  remember (getCountry_try env url ip (c, w)) as R eqn:HR.
  unfold getCountry_try, bind at 1 in HR. simpl in HR. rewrite Hm in HR.
  unfold bind at 1 in HR. rewrite Hg in HR.
  unfold bind at 1, liftW, fetch in HR. simpl in HR.
  destruct (upstream env _ _) as [msg|r].
  { left. exists (NativeError msg). by subst R. }
  unfold bind at 1, validateResponse in HR.
  destruct (Response.ok r); simpl in HR.
  2:{ left. eexists. split; [|exact HR]. simpl.
      destruct (Z.eqb_spec (Response.status r) 0); congruence. }
  unfold bind at 1, Response_json in HR.
  destruct (Response.json r) as [msg|body]; simpl in HR.
  { left. exists (NativeError msg). by subst R. }
  unfold bind at 1, validateResult in HR.
  destruct (provider c), body as [b|]; simpl in HR;
    try (left; eexists; split; [|exact HR]; discriminate).
  - destruct (ApiResult.error b) as [err|]; simpl in HR.
    { left. eexists. split; [|exact HR]. simpl. case_bool_decide; done. }
    unfold bind at 1 in HR. simpl in HR.
    destruct (ApiResult.country_name b) as [name|]; simpl in HR.
    2:{ left. eexists. split; [|exact HR]. done. }
    destruct (String.eqb_spec name ""); simpl in HR.
    { left. eexists. split; [|exact HR]. done. }
    right. exists name. split; [done|]. exact HR.
  - assert (HR' : R =
        bind (getCountryNameFromResult Ipxapi (Some b))
          (fun name =>
             if negb (truthy_string name)
             then throw (ApiError "Country not found for this IP"
                           (Some 400))
             else
               bind (update (fun c' =>
                       set_cache (<[ip := default "" name]> (_cache c'))
                         c'))
                 (fun _ =>
                    ApiClient_formatResult
                      [("apiUrl", VStr url);
                       ("name", VStr (default "" name))]))
          (c1, sent {| req_url := url; req_headers := _headers c |} w1)
        ∨ ∃ e, status e ≠ Some 0 ∧ R = (Throw e, (c1, sent {| req_url := url; req_headers := _headers c |} w1))).
    { destruct (ApiResult.success b) as [[|]|]; simpl in HR;
        [by left| |by left].
      right. eexists. split; [|exact HR]. done. }
    clear HR. destruct HR' as [HR|HR]; [|by left].
    unfold bind at 1 in HR. simpl in HR.
    destruct (ApiResult.country b) as [name|]; simpl in HR.
    2:{ left. eexists. split; [|exact HR]. done. }
    destruct (String.eqb_spec name ""); simpl in HR.
    { left. eexists. split; [|exact HR]. done. }
    right. exists name. split; [done|]. exact HR.
Qed.

(** What the gate leaves alone: everything but the counter and the
    expiry; it issues no request and logs nothing; and the only error it
    throws is the rate-limit error. *)
Lemma handleRateLimiting_frame (c : ApiClient) (w : World)
    (r : Result unit) (c1 : ApiClient) (w1 : World) :
  handleRateLimiting env (c, w) = (r, (c1, w1)) →
  c1 = set_rateLimitCount (_rateLimitCount c1)
         (set_rateLimitExpiry (_rateLimitExpiry c1) c)
  ∧ requests w1 = requests w ∧ logged w1 = logged w
  ∧ (r = Ok tt ∨ r = Throw (ApiError "Rate limited" (Some 429))).
Proof.
  rewrite handleRateLimiting_eq. cbv zeta.
  unfold after_expiry_check, reset_window.
  destruct c as [p bu ca h rl rc [e|] tf tok]; unfold expired_at, limited_at,
    expiry_truthy, expired_at, expiry_truthy; simpl.
  - destruct (Z.eqb_spec e 0); simpl.
    + destruct (Z.eqb_spec (clock env (reads w) + tf) 0); simpl.
      * intros [= <- <- <-]. simpl. auto.
      * destruct (_ >? _); simpl; [intros [= <- <- <-]; simpl; auto|].
        destruct (_ >=? _); intros [= <- <- <-]; simpl; auto.
    + destruct (clock env (reads w) >? e); simpl.
      * destruct (Z.eqb_spec (clock env (S (reads w)) + tf) 0); simpl.
        -- intros [= <- <- <-]. simpl. auto.
        -- destruct (_ >? _); simpl; [intros [= <- <- <-]; simpl; auto|].
           destruct (_ >=? _); intros [= <- <- <-]; simpl; auto.
      * destruct (Z.eqb_spec e 0); [lia|]. simpl.
        destruct (_ >? _); simpl; [intros [= <- <- <-]; simpl; auto|].
        destruct (_ >=? _); intros [= <- <- <-]; simpl; auto.
  - destruct (Z.eqb_spec (clock env (reads w) + tf) 0); simpl.
    + intros [= <- <- <-]. simpl. auto.
    + destruct (_ >? _); simpl; [intros [= <- <- <-]; simpl; auto|].
      destruct (_ >=? _); intros [= <- <- <-]; simpl; auto.
Qed.

(** The four ways a call can go. *)
Lemma getCountry_cases (c : ApiClient) (w : World) (ip : string) :
  let url := getCountryApiUrl c ip in
  let req := {| req_url := url; req_headers := _headers c |} in
  (∃ name,
      _cache c !! ip = Some name ∧ name ≠ ""
      ∧ getCountry_try env url ip (c, w)
        = (Ok (cached_envelope c name), (c, w))
      ∧ getCountry env ip (c, w) = (Ok (cached_envelope c name), (c, w)))
  ∨ (∃ c1 w1,
      truthy_string (_cache c !! ip) = false
      ∧ handleRateLimiting env (c, w)
        = (Throw (ApiError "Rate limited" (Some 429)), (c1, w1))
      ∧ getCountry_try env url ip (c, w)
        = (Throw (ApiError "Rate limited" (Some 429)), (c1, w1))
      ∧ getCountry env ip (c, w)
        = (Ok (error_envelope url c1 "Rate limited" 429), (c1, w1)))
  ∨ (∃ c1 w1 e,
      truthy_string (_cache c !! ip) = false
      ∧ handleRateLimiting env (c, w) = (Ok tt, (c1, w1))
      ∧ status e ≠ Some 0
      ∧ getCountry_try env url ip (c, w) = (Throw e, (c1, sent req w1))
      ∧ getCountry env ip (c, w)
        = (Ok (envelope_of_error url c1 e),
           (c1, if absent_or_5xx e then log e (sent req w1)
                else sent req w1)))
  ∨ (∃ c1 w1 name,
      truthy_string (_cache c !! ip) = false
      ∧ handleRateLimiting env (c, w) = (Ok tt, (c1, w1))
      ∧ name ≠ ""
      ∧ getCountry_try env url ip (c, w)
        = (Ok (success_envelope url c1 name),
           (set_cache (<[ip := name]> (_cache c1)) c1, sent req w1))
      ∧ getCountry env ip (c, w)
        = (Ok (success_envelope url c1 name),
           (set_cache (<[ip := name]> (_cache c1)) c1, sent req w1))).
Proof.
  intros url req. rewrite getCountry_eq. fold url. unfold try_catch.
  destruct (truthy_string (_cache c !! ip)) eqn:Hm.
  - left. destruct (_cache c !! ip) as [name|] eqn:Hc; [|discriminate].
    exists name. simpl in Hm. apply negb_true_iff in Hm.
    assert (name ≠ "") by (by destruct (String.eqb_spec name "")).
    rewrite (getCountry_try_hit c w url ip name) by done. done.
  - right. destruct (handleRateLimiting env (c, w)) as [r [c1 w1]] eqn:Hg.
    destruct (handleRateLimiting_frame _ _ _ _ _ Hg) as (_ & _ & _ & [->| ->]).
    + right.
      destruct (getCountry_try_passed c w url ip c1 w1 Hm Hg)
        as [(e & He & Htry)|(name & Hn & Htry)].
      * left. exists c1, w1, e. rewrite Htry.
        rewrite getCountry_catch_eq by done. done.
      * right. exists c1, w1, name. rewrite Htry. done.
    + left. exists c1, w1.
      rewrite (getCountry_try_rejected c w url ip _ _ Hm Hg).
      rewrite getCountry_catch_eq by discriminate. done.
Qed.

(** [getCountry] returns an envelope. *)
Lemma getCountry_returns (c : ApiClient) (w : World) (ip : string) :
  ∃ v s', getCountry env ip (c, w) = (Ok v, s').
Proof.
  destruct (getCountry_cases c w ip)
    as [(name & _ & _ & _ & Hrun)
       |[(c1 & w1 & _ & _ & _ & Hrun)
        |[(c1 & w1 & e & _ & _ & _ & _ & Hrun)
         |(c1 & w1 & name & _ & _ & _ & _ & Hrun)]]];
    rewrite Hrun; by eexists _, _.
Qed.

(** A call served from the cache. *)
Lemma getCountry_hit (c : ApiClient) (w : World) (ip name : string) :
  _cache c !! ip = Some name → name ≠ "" →
  getCountry env ip (c, w) = (Ok (cached_envelope c name), (c, w)).
Proof.
  intros Hc Hne. rewrite getCountry_eq. unfold try_catch.
  by rewrite (getCountry_try_hit c w _ ip name).
Qed.

End GetCountry.

(** ** [getCountry]: errors, cache *)

Example new_ApiClient_test : new_ApiClient config_test = Ok client_test.
Proof. reflexivity. Qed.

(** Unit test "returns country name and corresponding meta data". *)
Example getCountry_test_success :
  fst (getCountry env_test "111.22.333.44" (client_test, world0))
  = Ok (VObj [("data", VObj [("name", VStr "Somewhere")]);
              ("meta",
               VObj [("apiUrl",
                      VStr "http://api.ipstack.com/111.22.333.44?access_key=abc123");
                     ("cache", VBool false);
                     ("rateLimit", VNum 5);
                     ("rateLimitCount", VNum 1);
                     ("status", VNum 200)])]).
Proof. vm_compute. reflexivity. Qed.

(** Unit test "returns error and corresponding meta data when fetch returns
    an error". *)
Example getCountry_test_unauthorized :
  fst (getCountry
         (env_const 1 (FetchResolves (response_failed 401 "Unauthorized")))
         "111.22.333.44" (client_test, world0))
  = Ok (VObj [("error", VObj [("message", VStr "401 Unauthorized")]);
              ("meta",
               VObj [("apiUrl",
                      VStr "http://api.ipstack.com/111.22.333.44?access_key=abc123");
                     ("rateLimit", VNum 5);
                     ("rateLimitCount", VNum 1);
                     ("status", VNum 401)])]).
Proof. vm_compute. reflexivity. Qed.

(** C4. [getCountry] always returns an envelope and never throws, whatever
    the address, the state of the client and the behaviour of the upstream.
    When its [try] block throws an error [e] (steps 3 to 8: the rate-limit
    gate, a rejected [fetch], a response that is not ok, a rejected
    [json()], an error in the body, no country name), the envelope is an
    error envelope with the message of [e], the computed URL and the
    counters of the client as they are when the call returns; [e] is given
    to the logger exactly when its status is absent or at least 500, and
    nothing else is logged. When the [try] block returns, its envelope is
    returned as it is. *)
Theorem getCountry_never_throws (env : Env) (c : ApiClient) (w : World)
    (ip : string) :
  ∃ (v : value) (c' : ApiClient) (w' : World),
    getCountry env ip (c, w) = (Ok v, (c', w'))
    ∧ match getCountry_try env (getCountryApiUrl c ip) ip (c, w) with
      | (Ok v0, s0) =>
          v = v0 ∧ (c', w') = s0 ∧ is_error_envelope v = false
      | (Throw e, (c0, w0)) =>
          c' = c0
          ∧ is_error_envelope v = true
          ∧ path v ["error"; "message"] = VStr (message e)
          ∧ path v ["meta"; "apiUrl"] = VStr (getCountryApiUrl c ip)
          ∧ path v ["meta"; "rateLimit"] = VNum (_rateLimit c')
          ∧ path v ["meta"; "rateLimitCount"] = VNum (_rateLimitCount c')
          ∧ reads w' = reads w0 ∧ requests w' = requests w0
          ∧ logged w' = (logged w0 ++ if absent_or_5xx e then [e] else [])%list
      end.
Proof.
  destruct (getCountry_cases env c w ip)
    as [(name & _ & _ & Htry & Hrun)
       |[(c1 & w1 & _ & _ & Htry & Hrun)
        |[(c1 & w1 & e & _ & _ & _ & Htry & Hrun)
         |(c1 & w1 & name & _ & _ & _ & Htry & Hrun)]]];
    rewrite Htry, Hrun; do 3 eexists; (split; [reflexivity|]).
  - done.
  - repeat split; try reflexivity. simpl. by rewrite (right_id_L [] (++)).
  - repeat split; try reflexivity; destruct (absent_or_5xx e); simpl;
      try reflexivity. by rewrite (right_id_L [] (++)).
  - done.
Qed.

(** The names [getCountry] stores are never empty: the constructor starts
    from an empty cache, and [getCountry] and [transferCache] from a source
    with non-empty names keep the names non-empty. On such a client every
    entry of the cache is served from the cache. *)
Lemma new_client_names_nonempty (cfg : Config) (c : ApiClient) :
  new_ApiClient cfg = Ok c ∨ new_ApiClientIpxapi cfg = Ok c →
  names_nonempty (_cache c).
Proof.
  unfold new_ApiClientIpxapi, new_ApiClient.
  destruct (baseUrl cfg), (rateLimit cfg), (token cfg);
    intros [Hnew|Hnew]; try discriminate; injection Hnew as <-;
    apply map_Forall_empty.
Qed.

Lemma getCountry_names_nonempty (env : Env) (c : ApiClient) (w : World)
    (ip : string) (r : Result value) (c' : ApiClient) (w' : World) :
  names_nonempty (_cache c) →
  getCountry env ip (c, w) = (r, (c', w')) →
  names_nonempty (_cache c').
Proof.
  intros Hinv Hrun.
  destruct (getCountry_cases env c w ip)
    as [(name & _ & _ & _ & Hrun')
       |[(c1 & w1 & _ & Hg & _ & Hrun')
        |[(c1 & w1 & e & _ & Hg & _ & _ & Hrun')
         |(c1 & w1 & name & _ & Hg & Hne & _ & Hrun')]]];
    rewrite Hrun' in Hrun; injection Hrun as <- <- <-;
    try (destruct (handleRateLimiting_frame _ _ _ _ _ _ Hg) as (-> & _));
    simpl; try done.
  by apply map_Forall_insert_2.
Qed.

Lemma transferCache_names_nonempty (c : ApiClient) (w : World)
    (source : gmap string string) (r : Result unit) (c' : ApiClient)
    (w' : World) :
  names_nonempty (_cache c) →
  names_nonempty source →
  transferCache source (c, w) = (r, (c', w')) →
  names_nonempty (_cache c').
Proof.
  intros Hc Hs. rewrite transferCache_eq. intros [= <- <- <-]. simpl.
  by apply map_Forall_union_2.
Qed.

Lemma getCountry_cached_entry_served (env : Env) (c : ApiClient) (w : World)
    (ip name : string) :
  names_nonempty (_cache c) →
  _cache c !! ip = Some name →
  getCountry env ip (c, w) = (Ok (cached_envelope c name), (c, w)).
Proof.
  intros Hinv Hc. apply getCountry_hit; [done|]. by apply (Hinv ip name).
Qed.

(** Every client the code produces holds only non-empty names. *)
Lemma produced_names_nonempty (c : ApiClient) :
  produced c → names_nonempty (_cache c).
Proof.
  induction 1 as [cfg c Hnew|cfg c Hnew|env ip c w r c' w' _ IH Hrun
                 |env c w r c' w' _ IH Hrun
                 |source c w r c' w' _ IHs _ IH Hrun].
  - apply (new_client_names_nonempty cfg). by left.
  - apply (new_client_names_nonempty cfg). by right.
  - exact (getCountry_names_nonempty env c w ip r c' w' IH Hrun).
  - destruct (handleRateLimiting_frame env c w r c' w' Hrun) as (-> & _).
    exact IH.
  - exact (transferCache_names_nonempty c w (_cache source) r c' w' IH IHs
             Hrun).
Qed.

(** C5. On every client the code produces (constructed, then changed only
    by its own methods), when the cache has an entry for the address,
    [getCountry] returns the success envelope with the cached name as data,
    [cache: true], no URL, the counters as they are, and status 200; the
    client and the world are left as they were: the counter, the expiry and
    the cache are unchanged, the clock is not read and no request is
    issued. *)
Theorem getCountry_cache_hit (env : Env) (c : ApiClient) (w : World)
    (ip name : string) :
  produced c →
  _cache c !! ip = Some name →
  getCountry env ip (c, w)
  = (Ok (VObj [("data", VObj [("name", VStr name)]);
               ("meta", VObj [("apiUrl", VUndefined);
                              ("cache", VBool true);
                              ("rateLimit", VNum (_rateLimit c));
                              ("rateLimitCount", VNum (_rateLimitCount c));
                              ("status", VNum 200)])]),
     (c, w)).
Proof.
  intros Hc Hin.
  pose proof (produced_names_nonempty c Hc ip name Hin) as Hne.
  by rewrite (getCountry_hit env c w ip name).
Qed.

Lemma getCountry_cache_hit_witness :
  ∃ v c w,
    getCountry env_test "111.22.333.44" (client_test, world0)
    = (Ok v, (c, w))
    ∧ _cache c !! "111.22.333.44" = Some "Somewhere"
    ∧ getCountry env_test "111.22.333.44" (c, w)
      = (Ok (VObj [("data", VObj [("name", VStr "Somewhere")]);
                   ("meta", VObj [("apiUrl", VUndefined);
                                  ("cache", VBool true);
                                  ("rateLimit", VNum (_rateLimit c));
                                  ("rateLimitCount",
                                   VNum (_rateLimitCount c));
                                  ("status", VNum 200)])]),
         (c, w)).
Proof.
  destruct (getCountry env_test "111.22.333.44" (client_test, world0))
    as [[v|e] [c w]] eqn:Hrun; [|vm_compute in Hrun; discriminate].
  assert (Hin : _cache c !! "111.22.333.44" = Some "Somewhere").
  { vm_compute in Hrun. injection Hrun as _ <- _. reflexivity. }
  exists v, c, w. split; [reflexivity|]. split; [exact Hin|].
  apply (getCountry_cache_hit env_test c w "111.22.333.44" "Somewhere").
  - apply (produced_getCountry env_test "111.22.333.44" client_test world0
             (Ok v) c w); [|exact Hrun].
    apply (produced_new config_test). reflexivity.
  - exact Hin.
Defined.

(** The clients have to be the code's own: a client that is handed, through
    [transferCache], a cache made by hand with an empty name for an address
    treats the address as not cached, consumes budget and calls the
    upstream. *)
Lemma getCountry_empty_entry_not_served :
  ∃ c1 v c2 w2,
    transferCache {["111.22.333.44" := ""]} (client_test, world0)
    = (Ok tt, (c1, world0))
    ∧ _cache c1 !! "111.22.333.44" = Some ""
    ∧ getCountry env_test "111.22.333.44" (c1, world0) = (Ok v, (c2, w2))
    ∧ path v ["meta"; "cache"] = VBool false
    ∧ _rateLimitCount c1 = 0 ∧ _rateLimitCount c2 = 1
    ∧ length (requests w2) = 1%nat.
Proof.
  eexists _, _, _, _. split; [apply transferCache_eq|].
  split; [reflexivity|]. split; [vm_compute; reflexivity|].
  repeat split; reflexivity.
Qed.

(** C9. A call that returns an error envelope, or a success envelope served
    from the cache, leaves the cache of the client as it was; a call that
    returns a success envelope not served from the cache stores the name it
    returns under the address; so the cache changes only on such a call,
    and then by that one entry. *)
Theorem getCountry_cache_atomic (env : Env) (c : ApiClient) (w : World)
    (ip : string) (v : value) (c' : ApiClient) (w' : World) :
  getCountry env ip (c, w) = (Ok v, (c', w')) →
  (is_error_envelope v = true → _cache c' = _cache c)
  ∧ (path v ["meta"; "cache"] = VBool true → _cache c' = _cache c)
  ∧ (is_success_envelope v = true → path v ["meta"; "cache"] = VBool false →
     ∃ name, path v ["data"; "name"] = VStr name
             ∧ _cache c' = <[ip := name]> (_cache c))
  ∧ (_cache c' ≠ _cache c →
     is_success_envelope v = true
     ∧ path v ["meta"; "cache"] = VBool false
     ∧ ∃ name, path v ["data"; "name"] = VStr name
               ∧ _cache c' = <[ip := name]> (_cache c)).
Proof.
  intros Hrun.
  destruct (getCountry_cases env c w ip)
    as [(name & _ & _ & _ & Hrun')
       |[(c1 & w1 & _ & Hg & _ & Hrun')
        |[(c1 & w1 & e & _ & Hg & _ & _ & Hrun')
         |(c1 & w1 & name & _ & Hg & _ & _ & Hrun')]]];
    rewrite Hrun' in Hrun; injection Hrun as <- <- <-;
    try (destruct (handleRateLimiting_frame _ _ _ _ _ _ Hg) as (-> & _));
    simpl.
  - repeat split; done.
  - repeat split; done.
  - repeat split; done.
  - repeat split; try done; intros; by exists name.
Qed.

Lemma getCountry_cache_atomic_witness :
  ∃ v c' w',
    getCountry env_test "111.22.333.44" (client_test, world0)
    = (Ok v, (c', w'))
    ∧ (is_success_envelope v = true → path v ["meta"; "cache"] = VBool false →
       ∃ name, path v ["data"; "name"] = VStr name
               ∧ _cache c' = <[ "111.22.333.44" := name]> (_cache client_test)).
Proof.
  destruct (getCountry env_test "111.22.333.44" (client_test, world0))
    as [[v|e] [c' w']] eqn:Hrun.
  - exists v, c', w'. split; [reflexivity|].
    apply (getCountry_cache_atomic env_test client_test world0
             "111.22.333.44" v c' w' Hrun).
  - vm_compute in Hrun. discriminate.
Defined.

(** ** The status of a failed call *)

Section FailureStatus.

Variable env : Env.
Variables (c c1 : ApiClient) (w w1 : World) (ip : string).

Hypothesis Hmiss : truthy_string (_cache c !! ip) = false.
Hypothesis Hgate : handleRateLimiting env (c, w) = (Ok tt, (c1, w1)).

(** After the gate, with a resolved [fetch], the [try] block goes on with
    the validation of the response. *)
Lemma getCountry_try_fetched (r : Response.t) :
  upstream env (length (requests w)) (request_for c ip) = FetchResolves r →
  getCountry_try env (getCountryApiUrl c ip) ip (c, w)
  = bind (validateResponse r)
      (fun _ =>
         bind (Response_json r)
           (fun result =>
              bind (validateResult (provider c) result)
                (fun _ =>
                   bind (getCountryNameFromResult (provider c) result)
                     (fun name =>
                        if negb (truthy_string name)
                        then throw (ApiError "Country not found for this IP"
                                      (Some 400))
                        else
                          bind (update
                                  (fun c' =>
                                     set_cache
                                       (<[ip := default "" name]> (_cache c'))
                                       c'))
                            (fun _ =>
                               ApiClient_formatResult
                                 [("apiUrl", VStr (getCountryApiUrl c ip));
                                  ("name", VStr (default "" name))])))))
      (c1, sent (request_for c ip) w1).
Proof.
  intros Hup.
  destruct (handleRateLimiting_frame _ _ _ _ _ _ Hgate) as (_ & Hreq & _).
  unfold getCountry_try, bind at 1. simpl. rewrite Hmiss.
  unfold bind at 1. rewrite Hgate.
  unfold bind at 1, liftW, fetch. simpl. rewrite Hreq.
  unfold request_for in Hup. by rewrite Hup.
Qed.

Lemma getCountry_failed (e : JsError) (s' : ApiClient * World) :
  getCountry_try env (getCountryApiUrl c ip) ip (c, w) = (Throw e, s') →
  status e ≠ Some 0 →
  fst (getCountry env ip (c, w))
  = Ok (envelope_of_error (getCountryApiUrl c ip) (fst s') e).
Proof.
  intros Htry He. rewrite getCountry_eq. unfold try_catch.
  rewrite Htry. destruct s' as [c' w'].
  by rewrite getCountry_catch_eq.
Qed.

End FailureStatus.

(** C8. Take a call that is not served from the cache, passes the gate,
    and whose [fetch] resolves with a response.
    - If the response is not ok, the envelope is an error envelope whose
      message is ["<status> <statusText>"] and whose status is the one of
      the response (an HTTP status code, a number other than 0).
    - If the response is ok and its body is an object with an [error]
      property, the base client returns the message [error.info], or else
      [error.type], or else "An unknown error occurred", with status 401
      when [error.type] is "invalid_access_key" and 400 otherwise.
    - If the response is ok and its body has [success: false], the ipXapi
      client returns the [message] of the body, or else "An unknown error
      occurred", with status 400. *)
Theorem getCountry_failure_status (env : Env) (c c1 : ApiClient)
    (w w1 : World) (ip : string) (r : Response.t) :
  truthy_string (_cache c !! ip) = false →
  handleRateLimiting env (c, w) = (Ok tt, (c1, w1)) →
  upstream env (length (requests w))
    {| req_url := getCountryApiUrl c ip; req_headers := _headers c |}
  = FetchResolves r →
  ∃ v s', getCountry env ip (c, w) = (Ok v, s')
    ∧ (Response.ok r = false →
       is_error_envelope v = true
       ∧ path v ["error"; "message"]
         = VStr (pretty (Response.status r) ++ " " ++ Response.statusText r)
       ∧ (Response.status r ≠ 0 →
          path v ["meta"; "status"] = VNum (Response.status r)))
    ∧ (Response.ok r = true →
       ∀ body, Response.json r = JsonResolves (Some body) →
       (provider c = Ipstack →
        ∀ err, ApiResult.error body = Some err →
        is_error_envelope v = true
        ∧ path v ["error"; "message"]
          = VStr (or_string (ApiResultError.info err)
                    (or_string (ApiResultError.type err)
                       "An unknown error occurred"))
        ∧ path v ["meta"; "status"]
          = VNum (if bool_decide
                       (ApiResultError.type err = Some "invalid_access_key")
                  then 401 else 400))
       ∧ (provider c = Ipxapi →
          ApiResult.success body = Some false →
          is_error_envelope v = true
          ∧ path v ["error"; "message"]
            = VStr (or_string (ApiResult.message body)
                      "An unknown error occurred")
          ∧ path v ["meta"; "status"] = VNum 400)).
Proof.
  intros Hm Hg Hup.
  pose proof (getCountry_try_fetched env c c1 w w1 ip Hm Hg r Hup) as Htry.
  destruct (getCountry_returns env c w ip) as (v & s' & Hrun).
  exists v, s'. split; [exact Hrun|].
  assert (Hv : fst (getCountry env ip (c, w)) = Ok v) by by rewrite Hrun.
  split.
  - intros Hok. unfold bind at 1, validateResponse in Htry.
    rewrite Hok in Htry. simpl in Htry.
    rewrite (getCountry_failed env c w ip _ _ Htry) in Hv
      by (simpl; destruct (Z.eqb_spec (Response.status r) 0); congruence).
    injection Hv as <-. split; [done|]. split; [done|].
    intros Hne. simpl.
    by destruct (Z.eqb_spec (Response.status r) 0).
  - intros Hok body Hjson. unfold bind at 1, validateResponse in Htry.
    rewrite Hok in Htry. simpl in Htry.
    unfold bind at 1, Response_json in Htry. rewrite Hjson in Htry.
    simpl in Htry. unfold bind at 1, validateResult in Htry. split.
    + intros Hp err Herr. rewrite Hp, Herr in Htry. simpl in Htry.
      rewrite (getCountry_failed env c w ip _ _ Htry) in Hv
        by (simpl; case_bool_decide; simpl; congruence).
      injection Hv as <-. simpl. by case_bool_decide.
    + intros Hp Hs. rewrite Hp, Hs in Htry. simpl in Htry.
      rewrite (getCountry_failed env c w ip _ _ Htry) in Hv by done.
      injection Hv as <-. done.
Qed.

Lemma getCountry_failure_status_witness :
  ∃ v s',
    getCountry
      (env_const 1 (FetchResolves (response_failed 403 "Forbidden")))
      "111.22.333.44" (client_test, world0) = (Ok v, s')
    ∧ path v ["error"; "message"] = VStr "403 Forbidden"
    ∧ path v ["meta"; "status"] = VNum 403.
Proof.
  destruct (getCountry_failure_status
              (env_const 1 (FetchResolves (response_failed 403 "Forbidden")))
              client_test
              (set_rateLimitCount 1
                 (set_rateLimitExpiry (Some 1700000060000) client_test))
              world0 (tick (tick world0)) "111.22.333.44"
              (response_failed 403 "Forbidden"))
    as (v & s' & Hrun & Hfail & _).
  - reflexivity.
  - vm_compute. reflexivity.
  - reflexivity.
  - exists v, s'. split; [exact Hrun|].
    destruct (Hfail eq_refl) as (_ & Hmsg & Hst).
    split; [exact Hmsg|]. apply Hst. simpl. lia.
Defined.

(** The status of the response has to be a status code: on a response
    that is not ok and has status 0, which is none, the envelope carries
    400. *)
Lemma getCountry_status_zero_becomes_400 :
  ∃ v s',
    getCountry (env_const 1 (FetchResolves (response_failed 0 "")))
      "111.22.333.44" (client_test, world0) = (Ok v, s')
    ∧ Response.status (response_failed 0 "") = 0
    ∧ path v ["error"; "message"] = VStr "0 "
    ∧ path v ["meta"; "status"] = VNum 400.
Proof.
  eexists _, _. split; [vm_compute; reflexivity|]. repeat split.
Qed.

(** ** The rate-limit window *)

Ltac gate_cases :=
  repeat (simpl;
          match goal with
          | |- context [Z.eqb ?a ?b] => destruct (Z.eqb_spec a b)
          | |- context [Z.ltb ?a ?b] => destruct (Z.ltb_spec a b)
          | |- context [Z.leb ?a ?b] => destruct (Z.leb_spec a b)
          end);
  simpl.

Ltac gate_unfold :=
  rewrite handleRateLimiting_eq; cbv zeta;
  unfold after_expiry_check, reset_window, limited_at, expired_at,
    expiry_truthy; simpl;
  rewrite ?Z.gtb_ltb, ?Z.geb_leb.

Section Window.

Variable env : Env.
Hypothesis clock_positive : ∀ k, 0 < clock env k.

Lemma expired_at_over (c : ApiClient) (k : nat) :
  expired_at c (clock env k) = true ↔ over c (clock env k).
Proof.
  unfold expired_at, expiry_truthy, over. specialize (clock_positive k).
  destruct (_rateLimitExpiry c) as [e|]; simpl; [|naive_solver].
  rewrite Z.gtb_ltb.
  destruct (Z.eqb_spec e 0), (Z.ltb_spec e (clock env k)); simpl;
    split; try done; try (intros _; right; exists e; split; [done|lia]);
    intros [|(e' & [= <-] & ?)]; try done; lia.
Qed.

Lemma handleRateLimiting_window (c : ApiClient) (w : World)
    (r : Result unit) (c1 : ApiClient) (w1 : World) :
  handleRateLimiting env (c, w) = (r, (c1, w1)) →
  let bump := match r with Ok _ => 1 | Throw _ => 0 end in
  (over c (clock env (reads w)) →
     (∃ k, (reads w ≤ k < reads w1)%nat
           ∧ _rateLimitExpiry c1
             = Some (clock env k + _rateLimitTimeframe c))
     ∧ _rateLimitCount c1 = bump)
  ∧ (¬ over c (clock env (reads w)) →
     _rateLimitExpiry c1 = _rateLimitExpiry c
     ∧ _rateLimitCount c1 = _rateLimitCount c + bump).
Proof.
  pose proof (clock_positive (reads w)) as Hpos.
  unfold over. destruct c as [p bu ca h rl rc [e|] tf tok]; gate_unfold.
  - destruct (Z.eqb_spec e 0) as [->|He]; simpl.
    + gate_cases; intros [= <- <- <-]; simpl;
        (split; [intros _; split; [exists (reads w); split; [lia|done]|done]
                |intros Hn; exfalso; apply Hn; right; exists 0;
                 split; [done|lia]]).
    + destruct (Z.ltb_spec e (clock env (reads w))); simpl.
      * gate_cases; intros [= <- <- <-]; simpl;
          (split; [intros _; split;
                     [exists (S (reads w)); split; [lia|done]|done]
                  |intros Hn; exfalso; apply Hn; right; exists e;
                   split; [done|lia]]).
      * gate_cases; try lia; intros [= <- <- <-]; simpl;
          (split; [intros [|(e' & [= <-] & ?)]; [done|lia]
                  |intros _; split; [done|lia]]).
  - gate_cases; intros [= <- <- <-]; simpl;
      (split; [intros _; split; [exists (reads w); split; [lia|done]|done]
              |intros Hn; exfalso; apply Hn; by left]).
Qed.

Lemma isRateLimited_window (c : ApiClient) (w : World) :
  ∃ b w', isRateLimited env (c, w) = (Ok b, (c, w'))
    ∧ requests w' = requests w ∧ logged w' = logged w
    ∧ (over c (clock env (reads w)) → b = false)
    ∧ (¬ over c (clock env (reads w)) →
       (b = true ↔ _rateLimit c ≤ _rateLimitCount c)).
Proof.
  rewrite isRateLimited_eq. do 2 eexists. split; [reflexivity|].
  split; [unfold after_expiry_check; by destruct (expiry_truthy c)|].
  split; [unfold after_expiry_check; by destruct (expiry_truthy c)|].
  unfold limited_at.
  destruct (expired_at c (clock env (reads w))) eqn:Hex.
  - apply expired_at_over in Hex. split; [done|]. intros Hn. by destruct Hn.
  - split.
    + intros Ho. apply expired_at_over in Ho. congruence.
    + intros _. rewrite Z.geb_leb. apply Z.leb_le.
Qed.

Lemma getCountry_window (c : ApiClient) (w : World) (ip : string) :
  truthy_string (_cache c !! ip) = false →
  ∃ v c' w' issued,
    getCountry env ip (c, w) = (Ok v, (c', w'))
    ∧ requests w' = (requests w ++ issued)%list
    ∧ (issued = []
       ∨ issued = [{| req_url := getCountryApiUrl c ip;
                      req_headers := _headers c |}])
    ∧ (over c (clock env (reads w)) →
       (∃ k, (reads w ≤ k < reads w')%nat
             ∧ _rateLimitExpiry c'
               = Some (clock env k + _rateLimitTimeframe c))
       ∧ _rateLimitCount c' = Z.of_nat (length issued))
    ∧ (¬ over c (clock env (reads w)) →
       _rateLimitExpiry c' = _rateLimitExpiry c
       ∧ _rateLimitCount c' = _rateLimitCount c + Z.of_nat (length issued)).
Proof.
  intros Hm.
  destruct (getCountry_cases env c w ip)
    as [(name & Hc & Hne & _)
       |[(c1 & w1 & _ & Hg & _ & Hrun)
        |[(c1 & w1 & e & _ & Hg & _ & _ & Hrun)
         |(c1 & w1 & name & _ & Hg & _ & _ & Hrun)]]].
  - rewrite Hc in Hm. simpl in Hm.
    by destruct (String.eqb_spec name "").
  - destruct (handleRateLimiting_frame _ _ _ _ _ _ Hg) as (_ & Hreq & _).
    destruct (handleRateLimiting_window _ _ _ _ _ Hg) as [Hover Hopen].
    eexists _, c1, w1, []. split; [exact Hrun|].
    rewrite (right_id_L [] (++)). auto.
  - destruct (handleRateLimiting_frame _ _ _ _ _ _ Hg) as (_ & Hreq & _).
    destruct (handleRateLimiting_window _ _ _ _ _ Hg) as [Hover Hopen].
    eexists _, c1, _, [_]. split; [exact Hrun|].
    split; [destruct (absent_or_5xx e); simpl; by rewrite Hreq|].
    split; [by right|].
    split; [|exact Hopen].
    intros Ho. destruct (Hover Ho) as [(k & Hk & He) Hc].
    split; [|exact Hc]. exists k. split; [|exact He].
    by destruct (absent_or_5xx e).
  - destruct (handleRateLimiting_frame _ _ _ _ _ _ Hg) as (_ & Hreq & _).
    destruct (handleRateLimiting_window _ _ _ _ _ Hg) as [Hover Hopen].
    eexists _, _, _, [_]. split; [exact Hrun|].
    split; [simpl; by rewrite Hreq|]. split; [by right|].
    split; [exact Hover|exact Hopen].
Qed.

End Window.

(** C7. Take a clock whose readings are positive (milliseconds since the
    epoch), a client, and the reading [now] the clock gives next; the window
    is over when the expiry is unset or [now] is strictly after it.
    - A call that is not served from the cache returns having issued at
      most one request. If the window was over, the expiry has been
      recomputed to a reading of the clock taken during the call plus
      [rateLimitTimeframe], and the counter, reset to 0, counts the request
      of this call. If the window was not over, the expiry is unchanged and
      the counter has only been incremented by the request of this call.
    - A call served from the cache, a read of [isRateLimited] and
      [transferCache] leave the counter and the expiry as they were: the
      reset happens in no other place.
    - [isRateLimited] is false when the window is over, and otherwise true
      exactly when [rateLimitCount >= rateLimit]. *)
Theorem rate_limit_window_lazy (env : Env) (c : ApiClient) (w : World) :
  (∀ k, 0 < clock env k) →
  (∀ ip, truthy_string (_cache c !! ip) = false →
     ∃ v c' w' issued,
       getCountry env ip (c, w) = (Ok v, (c', w'))
       ∧ requests w' = (requests w ++ issued)%list
       ∧ (issued = []
          ∨ issued = [{| req_url := getCountryApiUrl c ip;
                         req_headers := _headers c |}])
       ∧ (over c (clock env (reads w)) →
          (∃ k, (reads w ≤ k < reads w')%nat
                ∧ _rateLimitExpiry c'
                  = Some (clock env k + _rateLimitTimeframe c))
          ∧ _rateLimitCount c' = Z.of_nat (length issued))
       ∧ (¬ over c (clock env (reads w)) →
          _rateLimitExpiry c' = _rateLimitExpiry c
          ∧ _rateLimitCount c'
            = _rateLimitCount c + Z.of_nat (length issued)))
  ∧ (∀ ip name, _cache c !! ip = Some name → name ≠ "" →
       snd (getCountry env ip (c, w)) = (c, w))
  ∧ (∀ m, ∃ c', transferCache m (c, w) = (Ok tt, (c', w))
                ∧ _rateLimitExpiry c' = _rateLimitExpiry c
                ∧ _rateLimitCount c' = _rateLimitCount c)
  ∧ (∃ b w', isRateLimited env (c, w) = (Ok b, (c, w'))
       ∧ (over c (clock env (reads w)) → b = false)
       ∧ (¬ over c (clock env (reads w)) →
          (b = true ↔ _rateLimit c ≤ _rateLimitCount c))).
Proof.
  intros Hpos. split; [|split; [|split]].
  - intros ip Hm. by apply getCountry_window.
  - intros ip name Hc Hne. by rewrite (getCountry_hit env c w ip name).
  - intros m. eexists. split; [apply transferCache_eq|]. done.
  - destruct (isRateLimited_window env Hpos c w)
      as (b & w' & Hrun & _ & _ & Ho & Hn).
    by exists b, w'.
Qed.

Lemma clock_env_const_positive (o : FetchOutcome) (k : nat) :
  0 < clock (env_const 1 o) k.
Proof. simpl. lia. Qed.

Lemma rate_limit_window_lazy_witness :
  ∃ b w', isRateLimited env_test (client_test, world0)
          = (Ok b, (client_test, w'))
          ∧ (over client_test (clock env_test 0) → b = false).
Proof.
  destruct (rate_limit_window_lazy env_test client_test world0
              (clock_env_const_positive _))
    as (_ & _ & _ & b & w' & Hrun & Hover & _).
  exists b, w'. split; [exact Hrun|exact Hover].
Defined.

(** ** Exhausting the budget of one window *)

Section Exhaustion.

Variable env : Env.

Lemma same_settings_refl (c : ApiClient) : same_settings c c.
Proof. by repeat split. Qed.

Lemma same_settings_trans (c1 c2 c3 : ApiClient) :
  same_settings c1 c2 → same_settings c2 c3 → same_settings c1 c3.
Proof. unfold same_settings. intuition congruence. Qed.

Lemma same_settings_url (c c' : ApiClient) (ip : string) :
  same_settings c c' → getCountryApiUrl c' ip = getCountryApiUrl c ip.
Proof.
  intros (Hp & Hb & _ & _ & _ & Ht). unfold getCountryApiUrl.
  by rewrite Hp, Hb, Ht.
Qed.

Lemma same_settings_request (c c' : ApiClient) (ip : string) :
  same_settings c c' → request_for c' ip = request_for c ip.
Proof.
  intros Hs. unfold request_for. rewrite (same_settings_url c c' ip Hs).
  destruct Hs as (_ & _ & -> & _). done.
Qed.

(** Inside an open window, the gate lets a call through while the counter
    is below the limit, and rejects it from then on. *)
Lemma handleRateLimiting_open (c : ApiClient) (w : World) (E : Z) :
  _rateLimitExpiry c = Some E →
  window_open env E (reads w) →
  handleRateLimiting env (c, w)
  = if _rateLimitCount c <? _rateLimit c
    then (Ok tt, (set_rateLimitCount (_rateLimitCount c + 1) c,
                  tick (tick w)))
    else (Throw (ApiError "Rate limited" (Some 429)), (c, tick (tick w))).
Proof.
  intros He [HE Hw].
  pose proof (Hw (reads w) ltac:(lia)). pose proof (Hw (S (reads w)) ltac:(lia)).
  destruct c as [p bu ca h rl rc e tf tok]. simpl in He. subst e.
  gate_unfold. gate_cases; try lia; reflexivity.
Qed.

(** The first call on a new client opens the window and passes. *)
Lemma handleRateLimiting_first (c : ApiClient) (w : World) :
  _rateLimitExpiry c = None →
  0 < _rateLimit c →
  window_open env (clock env (reads w) + _rateLimitTimeframe c)
    (S (reads w)) →
  handleRateLimiting env (c, w)
  = (Ok tt,
     (set_rateLimitCount 1
        (set_rateLimitExpiry
           (Some (clock env (reads w) + _rateLimitTimeframe c)) c),
      tick (tick w))).
Proof.
  intros He Hl [HE Hw]. pose proof (Hw (S (reads w)) ltac:(lia)).
  destruct c as [p bu ca h rl rc e tf tok]. simpl in *. subst e.
  gate_unfold. gate_cases; try lia; reflexivity.
Qed.

(** A call that is not served from the cache and passes the gate. *)
Lemma getCountry_passed (c : ApiClient) (w : World) (ip : string)
    (c1 : ApiClient) (w1 : World) :
  _cache c !! ip = None →
  handleRateLimiting env (c, w) = (Ok tt, (c1, w1)) →
  ∃ v c' w',
    getCountry env ip (c, w) = (Ok v, (c', w'))
    ∧ path v ["meta"; "apiUrl"] = VStr (getCountryApiUrl c ip)
    ∧ path v ["meta"; "rateLimit"] = VNum (_rateLimit c1)
    ∧ path v ["meta"; "rateLimitCount"] = VNum (_rateLimitCount c1)
    ∧ (∃ m, c' = set_cache m c1
            ∧ ∀ ip', ip' ≠ ip → m !! ip' = _cache c1 !! ip')
    ∧ reads w' = reads w1
    ∧ requests w' = (requests w ++ [request_for c ip])%list.
Proof.
  intros Hc Hg.
  destruct (handleRateLimiting_frame _ _ _ _ _ _ Hg) as (_ & Hreq & _).
  destruct (getCountry_cases env c w ip)
    as [(name & Hc' & _)
       |[(c2 & w2 & _ & Hg' & _)
        |[(c2 & w2 & e & _ & Hg' & _ & _ & Hrun)
         |(c2 & w2 & name & _ & Hg' & _ & _ & Hrun)]]];
    try congruence;
    rewrite Hg in Hg'; injection Hg' as <- <-; rewrite Hrun.
  - eexists _, _, _. split; [reflexivity|].
    repeat split; try reflexivity.
    + exists (_cache c1). split; [by destruct c1|done].
    + by destruct (absent_or_5xx e).
    + destruct (absent_or_5xx e); simpl; by rewrite Hreq.
  - eexists _, _, _. split; [reflexivity|].
    repeat split; try reflexivity.
    + eexists. split; [reflexivity|]. intros ip' Hne.
      by apply lookup_insert_ne.
    + simpl. by rewrite Hreq.
Qed.

(** A call that is not served from the cache and is rejected at the
    gate: the rate-limit envelope, and no request. *)
Lemma getCountry_rejected (c : ApiClient) (w : World) (ip : string)
    (e : JsError) (c1 : ApiClient) (w1 : World) :
  _cache c !! ip = None →
  handleRateLimiting env (c, w) = (Throw e, (c1, w1)) →
  getCountry env ip (c, w)
  = (Ok (error_envelope (getCountryApiUrl c ip) c1 "Rate limited" 429),
     (c1, w1))
  ∧ requests w1 = requests w ∧ logged w1 = logged w.
Proof.
  intros Hc Hg.
  destruct (handleRateLimiting_frame _ _ _ _ _ _ Hg) as (_ & Hreq & Hlog & _).
  destruct (getCountry_cases env c w ip)
    as [(name & Hc' & _)
       |[(c2 & w2 & _ & Hg' & _ & Hrun)
        |[(c2 & w2 & e' & _ & Hg' & _)
         |(c2 & w2 & name & _ & Hg' & _)]]];
    try congruence.
  rewrite Hg in Hg'. injection Hg' as -> <- <-. by rewrite Hrun.
Qed.

Lemma getCountry_each_cons (ip : string) (ips : list string)
    (s : ApiClient * World) :
  getCountry_each env (ip :: ips) s
  = match getCountry env ip s with
    | (Ok v, s1) =>
        match getCountry_each env ips s1 with
        | (Ok vs, s2) => (Ok (v :: vs), s2)
        | (Throw e, s2) => (Throw e, s2)
        end
    | (Throw e, s1) => (Throw e, s1)
    end.
Proof.
  simpl. unfold bind at 1. destruct (getCountry env ip s) as [[v|e] s1]; [|done].
  unfold bind at 1. by destruct (getCountry_each env ips s1) as [[vs|e] s2].
Qed.

(** With budget for [n] more calls in an open window, [n + 1] calls for
    addresses that are new to the cache and pairwise distinct: the first
    [n] pass the gate and the last one is rejected. *)
Lemma getCountry_each_open (E : Z) (n : nat) :
  ∀ (ips : list string) (c : ApiClient) (w : World),
    _rateLimitExpiry c = Some E →
    window_open env E (reads w) →
    _rateLimit c = _rateLimitCount c + Z.of_nat n →
    length ips = S n →
    NoDup ips →
    (∀ ip, ip ∈ ips → _cache c !! ip = None) →
    ∃ vs c' w',
      getCountry_each env ips (c, w) = (Ok vs, (c', w'))
      ∧ length vs = S n
      ∧ (∀ i ip, (i < n)%nat → ips !! i = Some ip →
           ∃ v, vs !! i = Some v
                ∧ path v ["meta"; "apiUrl"] = VStr (getCountryApiUrl c ip)
                ∧ path v ["meta"; "rateLimit"] = VNum (_rateLimit c)
                ∧ path v ["meta"; "rateLimitCount"]
                  = VNum (_rateLimitCount c + Z.of_nat (S i)))
      ∧ (∀ ip, ips !! n = Some ip →
           vs !! n = Some (error_envelope (getCountryApiUrl c ip) c'
                             "Rate limited" 429))
      ∧ same_settings c c'
      ∧ _rateLimitCount c' = _rateLimit c
      ∧ requests w'
        = (requests w ++ (request_for c <$> take n ips))%list.
Proof.
  induction n as [|n IH]; intros ips c w He Hopen Hl Hlen Hnd Hnew.
  - destruct ips as [|ip [|? ?]]; try discriminate. clear Hlen.
    assert (Hc : _cache c !! ip = None) by (apply Hnew; set_solver).
    pose proof (handleRateLimiting_open c w E He Hopen) as Hg.
    destruct (Z.ltb_spec (_rateLimitCount c) (_rateLimit c)); [lia|].
    destruct (getCountry_rejected c w ip _ _ _ Hc Hg) as (Hrun & Hreq & _).
    rewrite getCountry_each_cons, Hrun. simpl. unfold ret.
    eexists _, _, _. split; [reflexivity|].
    split; [done|]. split; [intros; lia|].
    split; [by intros ? [= <-]|].
    split; [apply same_settings_refl|].
    split; [lia|]. by rewrite (right_id_L [] (++)).
  - destruct ips as [|ip ips]; [discriminate|].
    injection Hlen as Hlen. apply NoDup_cons in Hnd as [Hnotin Hnd].
    assert (Hc : _cache c !! ip = None) by (apply Hnew; set_solver).
    pose proof (handleRateLimiting_open c w E He Hopen) as Hg.
    destruct (Z.ltb_spec (_rateLimitCount c) (_rateLimit c)); [|lia].
    destruct (getCountry_passed c w ip _ _ Hc Hg)
      as (v & c1 & w1 & Hrun & Hurl & Hlim & Hcount & (m & -> & Hm)
          & Hreads & Hreq).
    destruct (IH ips
                (set_cache m
                   (set_rateLimitCount (_rateLimitCount c + 1) c)) w1)
      as (vs & c' & w' & Hrest & Hlvs & Hfirst & Hlast & Hset & Hcnt & Hreqs).
    { done. }
    { destruct Hopen as [HE Hw]. split; [done|]. intros k Hk. apply Hw.
      rewrite Hreads in Hk. simpl in Hk. lia. }
    { simpl. lia. }
    { done. }
    { done. }
    { intros ip' Hin. simpl. rewrite Hm; [apply Hnew; set_solver|].
      intros ->. done. }
    assert (Hs1 : same_settings c
              (set_cache m (set_rateLimitCount (_rateLimitCount c + 1) c)))
      by (by repeat split).
    rewrite getCountry_each_cons, Hrun, Hrest.
    eexists _, _, _. split; [reflexivity|].
    split; [simpl; lia|]. split; [|split; [|split; [|split]]].
    + intros [|i] ip' Hi Hip; simpl in Hip.
      * injection Hip as <-. exists v. split; [done|].
        split; [done|]. split; [done|]. rewrite Hcount. simpl. done.
      * destruct (Hfirst i ip' ltac:(lia) Hip) as (v' & Hv' & Hu & Hr & Hk).
        exists v'. split; [done|].
        rewrite (same_settings_url _ _ ip' Hs1) in Hu.
        split; [done|]. split; [done|]. rewrite Hk. simpl. f_equal. lia.
    + intros ip' Hip. simpl in Hip. simpl. rewrite (Hlast ip' Hip). simpl.
      by rewrite (same_settings_url _ _ ip' Hs1).
    + by apply (same_settings_trans _ _ _ Hs1).
    + done.
    + rewrite Hreqs, Hreq. simpl. by rewrite <- (assoc_L (++)).
Qed.

End Exhaustion.

(** C3. A client is constructed with [rateLimit = N], [N > 0];
    [getCountry] is then called for [N + 1] pairwise distinct addresses (the
    cache of a new client is empty), all within the window that the first
    call opens: every later reading of the clock is at most the reading of
    the first call plus [rateLimitTimeframe], readings being positive.
    Whatever the upstream does, every call returns an envelope; the [i]-th
    of the first [N] calls carries [rateLimitCount = i], and each of them
    issues its request; the last call returns the error envelope with
    message "Rate limited", status 429, [rateLimitCount = N] and
    [rateLimit = N], and issues no request: the requests issued are those
    of the first [N] addresses. *)
Theorem rate_limit_exhaustion (env : Env) (cfg : Config) (c : ApiClient)
    (w : World) (N : nat) (ips : list string) :
  new_ApiClient cfg = Ok c ∨ new_ApiClientIpxapi cfg = Ok c →
  rateLimit cfg = VNum (Z.of_nat N) →
  (0 < N)%nat →
  length ips = S N →
  NoDup ips →
  (∀ k, 0 < clock env k) →
  (∀ k, (reads w < k)%nat →
        clock env k ≤ clock env (reads w) + _rateLimitTimeframe c) →
  ∃ vs c' w',
    getCountry_each env ips (c, w) = (Ok vs, (c', w'))
    ∧ length vs = S N
    ∧ (∀ i ip, (i < N)%nat → ips !! i = Some ip →
         ∃ v, vs !! i = Some v
              ∧ path v ["meta"; "apiUrl"] = VStr (getCountryApiUrl c ip)
              ∧ path v ["meta"; "rateLimit"] = VNum (Z.of_nat N)
              ∧ path v ["meta"; "rateLimitCount"] = VNum (Z.of_nat (S i)))
    ∧ (∀ ip, ips !! N = Some ip →
         vs !! N
         = Some (VObj [("error", VObj [("message", VStr "Rate limited")]);
                       ("meta",
                        VObj [("apiUrl", VStr (getCountryApiUrl c ip));
                              ("rateLimit", VNum (Z.of_nat N));
                              ("rateLimitCount", VNum (Z.of_nat N));
                              ("status", VNum 429)])]))
    ∧ _rateLimitCount c' = Z.of_nat N
    ∧ requests w' = (requests w ++ (request_for c <$> take N ips))%list.
Proof.
  intros Hnew Hcfg HN Hlen Hnd Hpos Hwin.
  assert (Hfresh : _cache c = ∅ ∧ _rateLimitExpiry c = None
                   ∧ _rateLimit c = Z.of_nat N).
  { unfold new_ApiClientIpxapi, new_ApiClient in Hnew. rewrite Hcfg in Hnew.
    destruct (baseUrl cfg), (token cfg), Hnew as [Hnew|Hnew];
      try discriminate; injection Hnew as <-; done. }
  destruct Hfresh as (Hempty & Hexp & Hlim).
  set (E := clock env (reads w) + _rateLimitTimeframe c) in *.
  assert (HE : E ≠ 0).
  { pose proof (Hwin (S (reads w)) ltac:(lia)).
    pose proof (Hpos (S (reads w))). lia. }
  destruct N as [|n]; [lia|]. destruct ips as [|ip ips]; [discriminate|].
  injection Hlen as Hlen. apply NoDup_cons in Hnd as [Hnotin Hnd].
  assert (Hc : _cache c !! ip = None) by by rewrite Hempty.
  pose proof (handleRateLimiting_first env c w Hexp ltac:(lia)
                ltac:(split; [done|intros k Hk; apply Hwin; lia])) as Hg.
  fold E in Hg.
  destruct (getCountry_passed env c w ip _ _ Hc Hg)
    as (v & c1 & w1 & Hrun & Hurl & Hlimv & Hcount & (m & -> & Hm)
        & Hreads & Hreq).
  set (c1 := set_cache m
               (set_rateLimitCount 1 (set_rateLimitExpiry (Some E) c))) in *.
  assert (Hs1 : same_settings c c1) by (by repeat split).
  destruct (getCountry_each_open env E n ips c1 w1)
    as (vs & c' & w' & Hrest & Hlvs & Hfirst & Hlast & Hset & Hcnt & Hreqs).
  { done. }
  { split; [done|]. intros k Hk. apply Hwin.
    rewrite Hreads in Hk. simpl in Hk. lia. }
  { simpl. lia. }
  { done. }
  { done. }
  { intros ip' Hin. simpl. rewrite Hm; [simpl; by rewrite Hempty|].
    intros ->. done. }
  rewrite getCountry_each_cons, Hrun, Hrest.
  eexists _, _, _. split; [reflexivity|].
  split; [simpl; lia|]. split; [|split; [|split]].
  - intros [|i] ip' Hi Hip; simpl in Hip.
    + injection Hip as <-. exists v. split; [done|]. split; [done|].
      split; [by rewrite Hlimv; simpl; rewrite Hlim|]. by rewrite Hcount.
    + destruct (Hfirst i ip' ltac:(lia) Hip) as (v' & Hv' & Hu & Hr & Hk).
      exists v'. split; [done|].
      rewrite (same_settings_url _ _ ip' Hs1) in Hu.
      split; [done|]. split; [by rewrite Hr; simpl; rewrite Hlim|].
      rewrite Hk. simpl. f_equal. lia.
  - intros ip' Hip. simpl in Hip. simpl. rewrite (Hlast ip' Hip).
    rewrite (same_settings_url _ _ ip' Hs1). unfold error_envelope.
    simpl. destruct Hset as (_ & _ & _ & -> & _). rewrite Hcnt. simpl.
    by rewrite Hlim.
  - rewrite Hcnt. simpl. done.
  - rewrite Hreqs, Hreq. simpl. by rewrite <- (assoc_L (++)).
Qed.

Lemma NoDup_test_addresses :
  NoDup ["1.1.1.1"; "2.2.2.2"; "3.3.3.3"; "4.4.4.4"; "5.5.5.5";
         "111.22.333.44"].
Proof. apply (bool_decide_unpack _). vm_compute. exact I. Qed.

(** The unit test "returns error and corresponding meta data when rate
    limit is met". *)
Lemma rate_limit_exhaustion_witness :
  ∃ vs c' w',
    getCountry_each (env_const 0 (FetchResolves (response_ok (Some body_somewhere))))
      ["1.1.1.1"; "2.2.2.2"; "3.3.3.3"; "4.4.4.4"; "5.5.5.5"; "111.22.333.44"]
      (client_test, world0)
    = (Ok vs, (c', w'))
    ∧ vs !! 5%nat
      = Some (VObj [("error", VObj [("message", VStr "Rate limited")]);
                    ("meta",
                     VObj [("apiUrl",
                            VStr "http://api.ipstack.com/111.22.333.44?access_key=abc123");
                           ("rateLimit", VNum 5);
                           ("rateLimitCount", VNum 5);
                           ("status", VNum 429)])])
    ∧ length (requests w') = 5%nat.
Proof.
  destruct (rate_limit_exhaustion
              (env_const 0 (FetchResolves (response_ok (Some body_somewhere))))
              config_test client_test world0 5
              ["1.1.1.1"; "2.2.2.2"; "3.3.3.3"; "4.4.4.4"; "5.5.5.5";
               "111.22.333.44"])
    as (vs & c' & w' & Hrun & _ & _ & Hlast & _ & Hreq).
  - left. reflexivity.
  - reflexivity.
  - lia.
  - reflexivity.
  - exact NoDup_test_addresses.
  - intros k. simpl. lia.
  - intros k _. simpl. lia.
  - exists vs, c', w'. split; [exact Hrun|]. split.
    + apply (Hlast "111.22.333.44"). reflexivity.
    + rewrite Hreq. reflexivity.
Defined.

(** ** The bound on the counter *)

Section Bound.

Variable env : Env.
Hypothesis clock_positive : ∀ k, 0 < clock env k.

(** With a steady clock and a positive timeframe, the gate keeps the
    counter between 0 and the limit, and a rejected call does not
    increment it. *)
Lemma handleRateLimiting_steady (c : ApiClient) (w : World)
    (r : Result unit) (c1 : ApiClient) (w1 : World) :
  steady env (reads w) →
  0 < _rateLimitTimeframe c →
  0 ≤ _rateLimitCount c ≤ _rateLimit c →
  handleRateLimiting env (c, w) = (r, (c1, w1)) →
  0 ≤ _rateLimitCount c1 ≤ _rateLimit c
  ∧ (r ≠ Ok tt → _rateLimitCount c1 ≤ _rateLimitCount c).
Proof.
  intros Hst Htf Hinv.
  pose proof (clock_positive (reads w)) as Hpos.
  pose proof (Hst (S (reads w)) ltac:(lia)) as H1.
  pose proof (Hst (S (S (reads w))) ltac:(lia)) as H2.
  destruct c as [p bu ca h rl rc [e|] tf tok]; simpl in *; gate_unfold.
  - destruct (Z.eqb_spec e 0) as [->|He]; simpl.
    + gate_cases; try lia; intros [= <- <- <-]; simpl; split; try lia; done.
    + destruct (Z.ltb_spec e (clock env (reads w))); simpl.
      * rewrite H1, H2. gate_cases; try lia; intros [= <- <- <-]; simpl;
          split; try lia; done.
      * rewrite H1. gate_cases; try lia; intros [= <- <- <-]; simpl;
          split; try lia; done.
  - rewrite H1. gate_cases; try lia; intros [= <- <- <-]; simpl;
      split; try lia; done.
Qed.

Lemma getCountry_steady (c : ApiClient) (w : World) (ip : string)
    (r : Result value) (c' : ApiClient) (w' : World) :
  steady env (reads w) →
  0 < _rateLimitTimeframe c →
  0 ≤ _rateLimitCount c ≤ _rateLimit c →
  getCountry env ip (c, w) = (r, (c', w')) →
  same_settings c c' ∧ 0 ≤ _rateLimitCount c' ≤ _rateLimit c.
Proof.
  intros Hst Htf Hinv Hrun.
  destruct (getCountry_cases env c w ip)
    as [(name & _ & _ & _ & Hrun')
       |[(c1 & w1 & _ & Hg & _ & Hrun')
        |[(c1 & w1 & e & _ & Hg & _ & _ & Hrun')
         |(c1 & w1 & name & _ & Hg & _ & _ & Hrun')]]];
    rewrite Hrun' in Hrun; injection Hrun as <- <- <-;
    try (destruct (handleRateLimiting_steady _ _ _ _ _ Hst Htf Hinv Hg)
           as [Hb _];
         destruct (handleRateLimiting_frame _ _ _ _ _ _ Hg) as (Hc1 & _);
         rewrite Hc1; simpl);
    (split; [by repeat split|done]).
Qed.

End Bound.

Lemma new_client_fresh (cfg : Config) (c : ApiClient) :
  new_ApiClient cfg = Ok c ∨ new_ApiClientIpxapi cfg = Ok c →
  rateLimit cfg = VNum (_rateLimit c)
  ∧ _cache c = ∅ ∧ _rateLimitCount c = 0 ∧ _rateLimitExpiry c = None
  ∧ _rateLimitTimeframe c
    = match rateLimitTimeframe cfg with
      | Some tf => if tf =? 0 then DEFAULT_RATE_LIMIT_TIMEFRAME else tf
      | None => DEFAULT_RATE_LIMIT_TIMEFRAME
      end.
Proof.
  unfold new_ApiClientIpxapi, new_ApiClient.
  destruct (baseUrl cfg), (rateLimit cfg), (token cfg);
    intros [Hnew|Hnew]; try discriminate; injection Hnew as <-; done.
Qed.

(** C6, as the code has it. A client is constructed with
    [rateLimit = N >= 0] and a timeframe that is not negative; the readings
    of the clock are positive. After any sequence of [getCountry] calls
    during each of which the clock does not advance, [rateLimitCount] is
    between 0 and [N]. Moreover a further call that issues no request (one
    served from the cache, or rejected at the gate with status 429) does not
    increment the counter, whatever the clock does. *)
Theorem rateLimitCount_bounded (env : Env) (cfg : Config) (c : ApiClient)
    (w : World) (N : Z) (c' : ApiClient) (w' : World) :
  new_ApiClient cfg = Ok c ∨ new_ApiClientIpxapi cfg = Ok c →
  rateLimit cfg = VNum N →
  0 ≤ N →
  (∀ tf, rateLimitTimeframe cfg = Some tf → 0 ≤ tf) →
  (∀ k, 0 < clock env k) →
  called env (c, w) (c', w') →
  0 ≤ _rateLimitCount c' ≤ N
  ∧ ∀ ip r c'' w'',
      getCountry env ip (c', w') = (r, (c'', w'')) →
      requests w'' = requests w' →
      _rateLimitCount c'' ≤ _rateLimitCount c'.
Proof.
  intros Hnew Hcfg HN Htf Hpos Hcalled.
  destruct (new_client_fresh cfg c Hnew) as (Hlim & _ & Hcount & _ & Htfc).
  rewrite Hcfg in Hlim. injection Hlim as Hlim.
  assert (Htf0 : 0 < _rateLimitTimeframe c).
  { rewrite Htfc. unfold DEFAULT_RATE_LIMIT_TIMEFRAME.
    destruct (rateLimitTimeframe cfg) as [tf|]; [|lia].
    specialize (Htf tf eq_refl). destruct (Z.eqb_spec tf 0); lia. }
  assert (Hinv : same_settings c c' ∧ 0 ≤ _rateLimitCount c' ≤ _rateLimit c).
  { remember (c, w) as s eqn:Hs. remember (c', w') as s' eqn:Hs'.
    revert c' w' Hs'.
    induction Hcalled as [|[c1 w1] s'' ip r Hcalled IH Hst Hrun];
      intros c' w' Hs'.
    - subst. injection Hs' as <- <-. split; [apply same_settings_refl|lia].
    - subst s''. destruct (IH c1 w1 eq_refl) as [Hs1 Hb1].
      assert (Hl1 : _rateLimit c1 = _rateLimit c) by apply Hs1.
      assert (Ht1 : _rateLimitTimeframe c1 = _rateLimitTimeframe c)
        by apply Hs1.
      destruct (getCountry_steady env Hpos c1 w1 ip r c' w' Hst
                  ltac:(lia) ltac:(lia) Hrun) as [Hs2 Hb2].
      split; [by apply (same_settings_trans _ _ _ Hs1)|lia]. }
  destruct Hinv as [Hset Hb]. split; [lia|].
  intros ip r c'' w'' Hrun Hreq.
  destruct (getCountry_cases env c' w' ip)
    as [(name & _ & _ & _ & Hrun')
       |[(c1 & w1 & _ & Hg & _ & Hrun')
        |[(c1 & w1 & e & _ & Hg & _ & _ & Hrun')
         |(c1 & w1 & name & _ & Hg & _ & _ & Hrun')]]];
    rewrite Hrun' in Hrun; injection Hrun as <- <- <-.
  - lia.
  - destruct (handleRateLimiting_window env Hpos _ _ _ _ _ Hg) as [Ho Hn].
    destruct (expired_at c' (clock env (reads w'))) eqn:Hex.
    + apply (expired_at_over env Hpos) in Hex. destruct (Ho Hex) as [_ ->].
      lia.
    + assert (Hno : ¬ over c' (clock env (reads w'))).
      { intros Hov. apply (expired_at_over env Hpos) in Hov. congruence. }
      destruct (Hn Hno) as [_ ->]. lia.
  - destruct (handleRateLimiting_frame _ _ _ _ _ _ Hg) as (_ & Hreq1 & _).
    exfalso. destruct (absent_or_5xx e); simpl in Hreq;
      rewrite Hreq1 in Hreq;
      apply (f_equal length) in Hreq; rewrite length_app in Hreq;
      simpl in Hreq; lia.
  - destruct (handleRateLimiting_frame _ _ _ _ _ _ Hg) as (_ & Hreq1 & _).
    exfalso. simpl in Hreq. rewrite Hreq1 in Hreq.
    apply (f_equal length) in Hreq. rewrite length_app in Hreq.
    simpl in Hreq. lia.
Qed.

Lemma rateLimitCount_bounded_witness :
  ∃ c' w',
    snd (getCountry (env_const 0 (FetchResolves (response_failed 403 "Forbidden")))
           "1.1.1.1" (client_test, world0)) = (c', w')
    ∧ 0 ≤ _rateLimitCount c' ≤ 5.
Proof.
  destruct (getCountry (env_const 0 (FetchResolves (response_failed 403 "Forbidden")))
              "1.1.1.1" (client_test, world0)) as [r [c' w']] eqn:Hrun.
  exists c', w'. split; [reflexivity|].
  apply (rateLimitCount_bounded
           (env_const 0 (FetchResolves (response_failed 403 "Forbidden")))
           config_test client_test world0 5 c' w').
  - left. reflexivity.
  - reflexivity.
  - lia.
  - intros tf [= <-]. lia.
  - intros k. simpl. lia.
  - apply (called_more _ _ (client_test, world0) _ "1.1.1.1" r).
    + apply called_none.
    + intros k _. reflexivity.
    + exact Hrun.
Defined.

(** The claim as written fails when the clock passes the expiry between the
    two checks of the gate: a client with [rateLimit = 1], called twice, the
    second time at the last millisecond of its window, ends with
    [rateLimitCount = 2], and both calls went upstream. *)
Lemma rateLimitCount_exceeds_limit :
  ∃ c0 vs c' w',
    new_ApiClient config_one = Ok c0
    ∧ getCountry_each env_race ["1.1.1.1"; "2.2.2.2"] (c0, world0)
      = (Ok vs, (c', w'))
    ∧ _rateLimit c' = 1
    ∧ _rateLimitCount c' = 2
    ∧ (fun v => path v ["meta"; "rateLimitCount"]) <$> vs
      = [VNum 1; VNum 2]
    ∧ length (requests w') = 2%nat.
Proof.
  eexists _, _, _, _. split; [reflexivity|].
  split; [vm_compute; reflexivity|]. repeat split.
Qed.

(** With [rateLimit = 0] and a negative timeframe the window is over as
    soon as it is opened: the first call passes the gate and the counter
    reaches 1, even on a clock that stands still. *)
Lemma rateLimitCount_negative_timeframe :
  ∃ c0 v c' w',
    new_ApiClient config_negative = Ok c0
    ∧ getCountry (env_const 0 (FetchRejects "fetch failed")) "1.1.1.1"
        (c0, world0) = (Ok v, (c', w'))
    ∧ _rateLimit c' = 0
    ∧ _rateLimitCount c' = 1.
Proof.
  eexists _, _, _, _. split; [reflexivity|].
  split; [vm_compute; reflexivity|]. split; reflexivity.
Qed.

(** ** The orchestrator *)

Section Failover.

Variable env : Env.

Lemma on_Some {A} (prop : string) (l : nat) (m : Call A) (s : Program)
    (c c' : ApiClient) (r : Result A) (w' : World) :
  heap s !! l = Some c →
  m (c, world s) = (r, (c', w')) →
  on prop (Some l) m s
  = (r, {| heap := <[l := c']> (heap s); orchestrator := orchestrator s;
           world := w' |}).
Proof. intros Hl Hm. unfold on. simpl. rewrite Hl. simpl. by rewrite Hm. Qed.

(** A method that leaves the client as it is leaves the heap as it is. *)
Lemma on_read {A} (prop : string) (l : nat) (m : Call A) (s : Program)
    (c : ApiClient) (r : Result A) (w' : World) :
  heap s !! l = Some c →
  m (c, world s) = (r, (c, w')) →
  on prop (Some l) m s
  = (r, {| heap := heap s; orchestrator := orchestrator s; world := w' |}).
Proof.
  intros Hl Hm. rewrite (on_Some prop l m s c c r w' Hl Hm).
  by rewrite insert_id.
Qed.

Lemma on_isRateLimited (l : nat) (s : Program) (c : ApiClient) :
  heap s !! l = Some c →
  on "isRateLimited" (Some l) (isRateLimited env) s
  = (Ok (limited_at c (clock env (reads (world s)))),
     {| heap := heap s; orchestrator := orchestrator s;
        world := after_expiry_check c (world s) |}).
Proof. intros Hl. apply (on_read _ _ _ _ c); [done|apply isRateLimited_eq]. Qed.

Lemma reads_after_expiry_check (c : ApiClient) (w : World) :
  (reads w ≤ reads (after_expiry_check c w))%nat.
Proof. unfold after_expiry_check. destruct (expiry_truthy c); simpl; lia. Qed.

End Failover.

(** C2. An orchestrator holds the clients [[first; second]] and [first] is
    active. If, at the readings of the clock taken during an access of
    [apiClient], [first] is rate-limited and [second] is not, the access
    returns [second] and makes it active; afterwards the cache of [second]
    holds every entry, key and value, of the cache of [first], nothing else
    of [second] has changed, and [first] is as it was. If both clients are
    rate-limited during the access, it returns [first], and the clients and
    the orchestrator are as they were. *)
Theorem apiClient_failover (env : Env) (s : Program) (first second : nat)
    (c1 c2 : ApiClient) :
  orchestrator s
  = {| activeApiClient := Some first; apiClients := [first; second] |} →
  heap s !! first = Some c1 →
  heap s !! second = Some c2 →
  ((∀ k, (reads (world s) ≤ k)%nat →
         limited_at c1 (clock env k) = true
         ∧ limited_at c2 (clock env k) = false) →
   ∃ s' c2',
     apiClient env s = (Ok (Some second), s')
     ∧ orchestrator s'
       = {| activeApiClient := Some second; apiClients := [first; second] |}
     ∧ heap s' !! first = Some c1
     ∧ heap s' !! second = Some c2'
     ∧ (∀ ip name, _cache c1 !! ip = Some name → _cache c2' !! ip = Some name)
     ∧ c2' = set_cache (_cache c2') c2)
  ∧ ((∀ k, (reads (world s) ≤ k)%nat →
           limited_at c1 (clock env k) = true
           ∧ limited_at c2 (clock env k) = true) →
     ∃ s',
       apiClient env s = (Ok (Some first), s')
       ∧ orchestrator s' = orchestrator s
       ∧ heap s' = heap s).
Proof.
  destruct s as [h o w]. simpl. intros -> H1 H2.
  pose proof (reads_after_expiry_check c1 w) as Hr1.
  pose proof (reads_after_expiry_check c1 (after_expiry_check c1 w)) as Hr2.
  split; intros Hlim;
    destruct (Hlim (reads w) ltac:(lia)) as [Ha Ha'];
    destruct (Hlim (reads (after_expiry_check c1 w)) ltac:(lia)) as [Hb _];
    destruct (Hlim (reads (after_expiry_check c1 (after_expiry_check c1 w)))
                ltac:(lia)) as [_ Hc];
    unfold apiClient, bind at 1, get_orchestrator; cbv beta iota;
    cbn [activeApiClient apiClients Array_find orchestrator];
    unfold bind at 1;
    rewrite (on_isRateLimited env first (mkProgram h _ _) c1 H1);
    cbn [heap world orchestrator]; rewrite Ha;
    cbv beta iota; cbn [negb];
    do 3 unfold bind at 1;
    rewrite (on_isRateLimited env first (mkProgram h _ _) c1 H1);
    cbn [heap world orchestrator]; rewrite Hb;
    unfold ret at 1; cbv beta iota; cbn [negb];
    do 2 unfold bind at 1;
    rewrite (on_isRateLimited env second (mkProgram h _ _) c2 H2);
    cbn [heap world orchestrator]; rewrite Hc;
    unfold ret at 1; cbv beta iota; cbn [negb]; unfold ret at 1;
    cbv beta iota.
  - assert (Hne : first ≠ second) by (intros ->; congruence).
    unfold bind at 1.
    rewrite (on_read "cache" first cache (mkProgram h _ _) c1
               (Ok (_cache c1)) _ H1 eq_refl).
    cbv beta iota. unfold bind at 1.
    rewrite (on_Some "transferCache" second _ (mkProgram h _ _) c2 _ _ _ H2
               (transferCache_eq c2 _ (_cache c1))).
    unfold bind, set_activeApiClient, ret. cbv beta iota.
    cbn [heap world orchestrator apiClients].
    eexists _, _. split; [reflexivity|]. cbn [heap world orchestrator].
    split; [done|]. split; [by rewrite lookup_insert_ne|].
    split; [by rewrite lookup_insert_eq|]. simpl.
    split; [intros ip name Hip; by apply lookup_union_Some_l|done].
  - eexists. split; [reflexivity|]. done.
Qed.

Lemma apiClient_failover_witness :
  ∃ s' c2',
    apiClient (env_const 0 (FetchRejects "fetch failed")) program_test
    = (Ok (Some 1%nat), s')
    ∧ activeApiClient (orchestrator s') = Some 1%nat
    ∧ heap s' !! 1%nat = Some c2'
    ∧ _cache c2' !! "156.24.151.42" = Some "United States".
Proof.
  destruct (apiClient_failover (env_const 0 (FetchRejects "fetch failed"))
              program_test 0%nat 1%nat client_exhausted client_second)
    as [Hswitch _].
  - reflexivity.
  - reflexivity.
  - reflexivity.
  - destruct Hswitch as (s' & c2' & Hrun & Ho & _ & H2 & Hcache & _).
    + intros k _. split; reflexivity.
    + exists s', c2'. split; [exact Hrun|]. split; [by rewrite Ho|].
      split; [exact H2|]. apply Hcache. reflexivity.
Defined.

(** * Further properties of the code *)

(** ** Objects, and the [formatResult] method *)

Lemma get_set_eq (o : object) (k : string) (v : value) :
  get (set o k v) k = v.
Proof.
  induction o as [|[k' v'] o IH]; simpl.
  - by rewrite String.eqb_refl.
  - destruct (String.eqb_spec k' k) as [->|Hne]; simpl.
    + by rewrite String.eqb_refl.
    + by destruct (String.eqb_spec k' k).
Qed.

Lemma get_set_ne (o : object) (k k' : string) (v : value) :
  k ≠ k' → get (set o k v) k' = get o k'.
Proof.
  intros Hne. induction o as [|[k0 v0] o IH]; simpl.
  - by destruct (String.eqb_spec k k').
  - destruct (String.eqb_spec k0 k) as [->|Hk]; simpl.
    + by destruct (String.eqb_spec k k').
    + by rewrite IH.
Qed.

Lemma formatResult_meta (payload : object) (k : string) :
  k = "apiUrl" ∨ k = "rateLimit" ∨ k = "rateLimitCount" →
  path (formatResult payload) ["meta"; k] = get payload k.
Proof.
  unfold formatResult.
  destruct (truthy (get (rest_without meta_keys payload) "error"));
    intros [->|[->| ->]]; reflexivity.
Qed.

(** X1. The [formatResult] method of a client answers with the client's own
    limit and counter, whatever [rateLimit] and [rateLimitCount] the payload
    brings, and passes the [apiUrl] of the payload on; it does not throw and
    changes nothing. *)
Theorem ApiClient_formatResult_counters (c : ApiClient) (w : World)
    (payload : object) :
  ∃ v, ApiClient_formatResult payload (c, w) = (Ok v, (c, w))
       ∧ path v ["meta"; "rateLimit"] = VNum (_rateLimit c)
       ∧ path v ["meta"; "rateLimitCount"] = VNum (_rateLimitCount c)
       ∧ path v ["meta"; "apiUrl"] = get payload "apiUrl".
Proof.
  eexists. split; [reflexivity|].
  rewrite !formatResult_meta by auto.
  rewrite get_set_ne, get_set_eq by done.
  rewrite get_set_eq. split; [done|]. split; [done|].
  by rewrite !get_set_ne.
Qed.

(** ** The envelopes of [getCountry] *)

Lemma getCountry_status_cases (env : Env) (c : ApiClient) (w : World)
    (ip : string) :
  ∃ v s' code,
    getCountry env ip (c, w) = (Ok v, s')
    ∧ path v ["meta"; "status"] = VNum code
    ∧ code ≠ 0
    ∧ (is_success_envelope v = true → code = 200)
    ∧ (is_success_envelope v = negb (is_error_envelope v)).
Proof.
  destruct (getCountry_cases env c w ip)
    as [(name & _ & _ & _ & Hrun)
       |[(c1 & w1 & _ & _ & _ & Hrun)
        |[(c1 & w1 & e & _ & _ & He & _ & Hrun)
         |(c1 & w1 & name & _ & _ & _ & _ & Hrun)]]];
    rewrite Hrun.
  - by eexists _, _, 200.
  - by eexists _, _, 429.
  - eexists _, _, (default 400 (status e)). split; [done|]. split; [done|].
    split; [|done]. destruct (status e) as [s|]; simpl; [congruence|lia].
  - by eexists _, _, 200.
Qed.

(** X2. Whatever the upstream does, the envelope [getCountry] returns has a
    status that is a number other than 0; it holds either [data] or [error],
    never both; and a success envelope has status 200. *)
Theorem getCountry_status (env : Env) (c : ApiClient) (w : World)
    (ip : string) :
  ∃ v s' code,
    getCountry env ip (c, w) = (Ok v, s')
    ∧ path v ["meta"; "status"] = VNum code
    ∧ code ≠ 0
    ∧ (is_success_envelope v = true → code = 200)
    ∧ (is_success_envelope v = negb (is_error_envelope v)).
Proof. apply getCountry_status_cases. Qed.

(** X3. Once a call has returned a success envelope for an address, the
    next call for the same address on that client is served from the cache:
    it returns the same name with [cache: true] and leaves the client and
    the world untouched, so the counter is unchanged and no request is
    issued. *)
Theorem getCountry_resolved_then_cached (env : Env) (c : ApiClient)
    (w : World) (ip : string) (v : value) (c' : ApiClient) (w' : World) :
  getCountry env ip (c, w) = (Ok v, (c', w')) →
  is_success_envelope v = true →
  ∃ name,
    path v ["data"; "name"] = VStr name
    ∧ getCountry env ip (c', w')
      = (Ok (VObj [("data", VObj [("name", VStr name)]);
                   ("meta", VObj [("apiUrl", VUndefined);
                                  ("cache", VBool true);
                                  ("rateLimit", VNum (_rateLimit c'));
                                  ("rateLimitCount",
                                   VNum (_rateLimitCount c'));
                                  ("status", VNum 200)])]),
         (c', w')).
Proof.
  intros Hrun Hok.
  destruct (getCountry_cases env c w ip)
    as [(name & Hc & Hne & _ & Hrun')
       |[(c1 & w1 & _ & _ & _ & Hrun')
        |[(c1 & w1 & e & _ & _ & _ & _ & Hrun')
         |(c1 & w1 & name & _ & _ & Hne & _ & Hrun')]]];
    rewrite Hrun' in Hrun; injection Hrun as <- <- <-; try discriminate.
  - exists name. split; [done|]. by apply getCountry_hit.
  - exists name. split; [done|]. apply getCountry_hit; [|done].
    simpl. apply lookup_insert_eq.
Qed.

Lemma getCountry_resolved_then_cached_witness :
  ∃ v c' w' name,
    getCountry env_test "111.22.333.44" (client_test, world0)
    = (Ok v, (c', w'))
    ∧ path v ["data"; "name"] = VStr name
    ∧ fst (getCountry env_test "111.22.333.44" (c', w'))
      = Ok (VObj [("data", VObj [("name", VStr name)]);
                  ("meta", VObj [("apiUrl", VUndefined);
                                 ("cache", VBool true);
                                 ("rateLimit", VNum (_rateLimit c'));
                                 ("rateLimitCount", VNum (_rateLimitCount c'));
                                 ("status", VNum 200)])]).
Proof.
  destruct (getCountry env_test "111.22.333.44" (client_test, world0))
    as [[v|e] [c' w']] eqn:Hrun; [|vm_compute in Hrun; discriminate].
  destruct (getCountry_resolved_then_cached env_test client_test world0
              "111.22.333.44" v c' w' Hrun) as (name & Hname & Hnext).
  - vm_compute in Hrun. injection Hrun as <- _ _. reflexivity.
  - exists v, c', w', name. split; [reflexivity|]. split; [exact Hname|].
    by rewrite Hnext.
Defined.

(** X4. [getCountry] never forgets: every address the cache holds is still
    in the cache after the call, and every non-empty name is still the name
    of its address. *)
Theorem getCountry_cache_grows (env : Env) (c : ApiClient) (w : World)
    (ip : string) (r : Result value) (c' : ApiClient) (w' : World) :
  getCountry env ip (c, w) = (r, (c', w')) →
  dom (_cache c) ⊆ dom (_cache c')
  ∧ ∀ ip' name, _cache c !! ip' = Some name → name ≠ "" →
                _cache c' !! ip' = Some name.
Proof.
  intros Hrun.
  destruct (getCountry_cases env c w ip)
    as [(name & _ & _ & _ & Hrun')
       |[(c1 & w1 & _ & Hg & _ & Hrun')
        |[(c1 & w1 & e & _ & Hg & _ & _ & Hrun')
         |(c1 & w1 & name & Hm & Hg & _ & _ & Hrun')]]];
    rewrite Hrun' in Hrun; injection Hrun as <- <- <-;
    try (destruct (handleRateLimiting_frame _ _ _ _ _ _ Hg) as (-> & _));
    simpl; try done.
  split; [rewrite dom_insert_L; set_solver|].
  intros ip' name' Hc Hne. rewrite lookup_insert_ne; [done|].
  intros <-. rewrite Hc in Hm. simpl in Hm.
  by destruct (String.eqb_spec name' "").
Qed.

Lemma getCountry_cache_grows_witness :
  ∃ r c' w',
    getCountry env_test "1.1.1.1"
      (client_with_cache {["111.22.333.44" := "Somewhere"]}, world0)
    = (r, (c', w'))
    ∧ _cache c' !! "111.22.333.44" = Some "Somewhere".
Proof.
  destruct (getCountry env_test "1.1.1.1"
              (client_with_cache {["111.22.333.44" := "Somewhere"]}, world0))
    as [r [c' w']] eqn:Hrun.
  exists r, c', w'. split; [reflexivity|].
  destruct (getCountry_cache_grows env_test _ world0 "1.1.1.1" r c' w' Hrun)
    as [_ Hkeep].
  apply Hkeep; [reflexivity|discriminate].
Defined.

(** ** Failures of the upstream *)

Lemma getCountry_try_fetch_rejected (env : Env) (c c1 : ApiClient)
    (w w1 : World) (ip msg : string) :
  truthy_string (_cache c !! ip) = false →
  handleRateLimiting env (c, w) = (Ok tt, (c1, w1)) →
  upstream env (length (requests w)) (request_for c ip) = FetchRejects msg →
  getCountry_try env (getCountryApiUrl c ip) ip (c, w)
  = (Throw (NativeError msg), (c1, sent (request_for c ip) w1)).
Proof.
  intros Hm Hg Hup.
  destruct (handleRateLimiting_frame _ _ _ _ _ _ Hg) as (_ & Hreq & _).
  unfold getCountry_try, bind at 1. simpl. rewrite Hm.
  unfold bind at 1. rewrite Hg.
  unfold bind at 1, liftW, fetch. simpl. rewrite Hreq.
  unfold request_for in Hup. by rewrite Hup.
Qed.

Lemma getCountry_of_try_throw (env : Env) (c : ApiClient) (w : World)
    (ip : string) (e : JsError) (c' : ApiClient) (w' : World) :
  getCountry_try env (getCountryApiUrl c ip) ip (c, w) = (Throw e, (c', w')) →
  status e ≠ Some 0 →
  getCountry env ip (c, w)
  = (Ok (envelope_of_error (getCountryApiUrl c ip) c' e),
     (c', if absent_or_5xx e then log e w' else w')).
Proof.
  intros Htry He. rewrite getCountry_eq. unfold try_catch. rewrite Htry.
  by apply getCountry_catch_eq.
Qed.

(** X5. A call that goes upstream and whose [fetch] rejects, or whose
    response is ok but whose [json()] rejects, returns the error envelope
    with the message of the rejection and status 400, and gives the
    rejection to the logger. The request still counts: the client is as the
    gate left it, the counter incremented, and its cache is unchanged. *)
Theorem getCountry_rejection (env : Env) (c c1 : ApiClient) (w w1 : World)
    (ip msg : string) :
  truthy_string (_cache c !! ip) = false →
  handleRateLimiting env (c, w) = (Ok tt, (c1, w1)) →
  upstream env (length (requests w)) (request_for c ip) = FetchRejects msg
  ∨ (∃ r, upstream env (length (requests w)) (request_for c ip)
          = FetchResolves r
          ∧ Response.ok r = true ∧ Response.json r = JsonRejects msg) →
  getCountry env ip (c, w)
  = (Ok (VObj [("error", VObj [("message", VStr msg)]);
               ("meta", VObj [("apiUrl", VStr (getCountryApiUrl c ip));
                              ("rateLimit", VNum (_rateLimit c1));
                              ("rateLimitCount", VNum (_rateLimitCount c1));
                              ("status", VNum 400)])]),
     (c1, log (NativeError msg) (sent (request_for c ip) w1)))
  ∧ _cache c1 = _cache c.
Proof.
  intros Hm Hg Hup.
  destruct (handleRateLimiting_frame _ _ _ _ _ _ Hg) as (Hc1 & _).
  split; [|by rewrite Hc1].
  destruct Hup as [Hup|(r & Hup & Hok & Hjson)].
  - by rewrite (getCountry_of_try_throw env c w ip _ _ _
                  (getCountry_try_fetch_rejected env c c1 w w1 ip msg
                     Hm Hg Hup)).
  - pose proof (getCountry_try_fetched env c c1 w w1 ip Hm Hg r Hup) as Htry.
    unfold bind at 1, validateResponse in Htry. rewrite Hok in Htry.
    simpl in Htry. unfold bind at 1, Response_json in Htry.
    rewrite Hjson in Htry. simpl in Htry.
    by rewrite (getCountry_of_try_throw env c w ip _ _ _ Htry).
Qed.

Lemma getCountry_rejection_witness :
  ∃ s', getCountry (env_const 1 (FetchRejects "fetch failed")) "1.1.1.1"
          (client_test, world0)
        = (Ok (VObj [("error", VObj [("message", VStr "fetch failed")]);
                     ("meta",
                      VObj [("apiUrl",
                             VStr "http://api.ipstack.com/1.1.1.1?access_key=abc123");
                            ("rateLimit", VNum 5);
                            ("rateLimitCount", VNum 1);
                            ("status", VNum 400)])]), s').
Proof.
  eexists.
  apply (getCountry_rejection (env_const 1 (FetchRejects "fetch failed"))
           client_test
           (set_rateLimitCount 1
              (set_rateLimitExpiry (Some 1700000060000) client_test))
           world0 (tick (tick world0)) "1.1.1.1" "fetch failed").
  - reflexivity.
  - vm_compute. reflexivity.
  - left. reflexivity.
Defined.

(** X6. A call that goes upstream and receives an ok response whose body
    signals no error but has no country name, or an empty one, returns the
    error envelope "Country not found for this IP" with status 400. Nothing
    is logged and nothing is stored in the cache, but the request has
    counted against the budget. *)
Theorem getCountry_country_not_found (env : Env) (c c1 : ApiClient)
    (w w1 : World) (ip : string) (r : Response.t) (body : ApiResult.t) :
  truthy_string (_cache c !! ip) = false →
  handleRateLimiting env (c, w) = (Ok tt, (c1, w1)) →
  upstream env (length (requests w)) (request_for c ip) = FetchResolves r →
  Response.ok r = true →
  Response.json r = JsonResolves (Some body) →
  nameless (provider c) body →
  getCountry env ip (c, w)
  = (Ok (VObj [("error",
                VObj [("message", VStr "Country not found for this IP")]);
               ("meta", VObj [("apiUrl", VStr (getCountryApiUrl c ip));
                              ("rateLimit", VNum (_rateLimit c1));
                              ("rateLimitCount", VNum (_rateLimitCount c1));
                              ("status", VNum 400)])]),
     (c1, sent (request_for c ip) w1))
  ∧ _cache c1 = _cache c.
Proof.
  intros Hm Hg Hup Hok Hjson Hnone.
  destruct (handleRateLimiting_frame _ _ _ _ _ _ Hg) as (Hc1 & _).
  split; [|by rewrite Hc1].
  pose proof (getCountry_try_fetched env c c1 w w1 ip Hm Hg r Hup) as Htry.
  unfold bind at 1, validateResponse in Htry. rewrite Hok in Htry.
  simpl in Htry. unfold bind at 1, Response_json in Htry.
  rewrite Hjson in Htry. simpl in Htry.
  unfold bind at 1, validateResult in Htry. unfold nameless in Hnone.
  destruct (provider c); destruct Hnone as [Hnoerr Hnoname].
  - rewrite Hnoerr in Htry. simpl in Htry. unfold bind at 1 in Htry.
    simpl in Htry. rewrite Hnoname in Htry. simpl in Htry.
    by rewrite (getCountry_of_try_throw env c w ip _ _ _ Htry).
  - assert (Hsucc : match ApiResult.success body with
                    | Some false =>
                        throw (ApiError
                                 (or_string (ApiResult.message body)
                                    "An unknown error occurred") (Some 400))
                    | _ => ret tt
                    end (c1, sent (request_for c ip) w1)
                    = (Ok tt, (c1, sent (request_for c ip) w1))).
    { by destruct (ApiResult.success body) as [[|]|]. }
    rewrite Hsucc in Htry. unfold bind at 1 in Htry. simpl in Htry.
    rewrite Hnoname in Htry. simpl in Htry.
    by rewrite (getCountry_of_try_throw env c w ip _ _ _ Htry).
Qed.

Lemma getCountry_country_not_found_witness :
  ∃ v s',
    getCountry
      (env_const 1 (FetchResolves
                      (response_ok
                         (Some (ApiResult.mk None (Some "") None None None)))))
      "1.1.1.1" (client_test, world0) = (Ok v, s')
    ∧ path v ["error"; "message"] = VStr "Country not found for this IP"
    ∧ path v ["meta"; "status"] = VNum 400.
Proof.
  destruct (getCountry_country_not_found
              (env_const 1 (FetchResolves
                              (response_ok
                                 (Some (ApiResult.mk None (Some "") None None
                                          None)))))
              client_test
              (set_rateLimitCount 1
                 (set_rateLimitExpiry (Some 1700000060000) client_test))
              world0 (tick (tick world0)) "1.1.1.1"
              (response_ok (Some (ApiResult.mk None (Some "") None None None)))
              (ApiResult.mk None (Some "") None None None))
    as [Hrun _].
  - reflexivity.
  - vm_compute. reflexivity.
  - reflexivity.
  - reflexivity.
  - reflexivity.
  - split; reflexivity.
  - eexists _, _. split; [exact Hrun|]. split; reflexivity.
Defined.

(** X7. When the response is not ok, the failure is given to the logger
    exactly when the status of the response is 500 or more: the failures of
    the provider's servers are logged, the refusals of a request are not. *)
Theorem getCountry_server_failure_logged (env : Env) (c c1 : ApiClient)
    (w w1 : World) (ip : string) (r : Response.t) :
  truthy_string (_cache c !! ip) = false →
  handleRateLimiting env (c, w) = (Ok tt, (c1, w1)) →
  upstream env (length (requests w)) (request_for c ip) = FetchResolves r →
  Response.ok r = false →
  ∃ v c' w',
    getCountry env ip (c, w) = (Ok v, (c', w'))
    ∧ logged w'
      = (logged w
         ++ if 500 <=? Response.status r
            then [ApiError (pretty (Response.status r) ++ " "
                            ++ Response.statusText r)
                    (Some (Response.status r))]
            else [])%list.
Proof.
  intros Hm Hg Hup Hok.
  destruct (handleRateLimiting_frame _ _ _ _ _ _ Hg) as (_ & _ & Hlog & _).
  pose proof (getCountry_try_fetched env c c1 w w1 ip Hm Hg r Hup) as Htry.
  unfold bind at 1, validateResponse in Htry. rewrite Hok in Htry.
  simpl in Htry.
  rewrite (getCountry_of_try_throw env c w ip _ _ _ Htry)
    by (simpl; destruct (Z.eqb_spec (Response.status r) 0); congruence).
  eexists _, _, _. split; [reflexivity|].
  unfold absent_or_5xx. simpl.
  destruct (Z.eqb_spec (Response.status r) 0) as [H0|H0].
  - rewrite H0. simpl. by rewrite Hlog, (right_id_L [] (++)).
  - destruct (500 <=? Response.status r); simpl; rewrite Hlog; [done|].
    by rewrite (right_id_L [] (++)).
Qed.

Lemma getCountry_server_failure_logged_witness :
  ∃ v c' w',
    getCountry
      (env_const 1 (FetchResolves (response_failed 503 "Service Unavailable")))
      "1.1.1.1" (client_test, world0) = (Ok v, (c', w'))
    ∧ logged w' = [ApiError "503 Service Unavailable" (Some 503)].
Proof.
  destruct (getCountry_server_failure_logged
              (env_const 1 (FetchResolves
                              (response_failed 503 "Service Unavailable")))
              client_test
              (set_rateLimitCount 1
                 (set_rateLimitExpiry (Some 1700000060000) client_test))
              world0 (tick (tick world0)) "1.1.1.1"
              (response_failed 503 "Service Unavailable"))
    as (v & c' & w' & Hrun & Hlog).
  - reflexivity.
  - vm_compute. reflexivity.
  - reflexivity.
  - reflexivity.
  - exists v, c', w'. split; [exact Hrun|]. rewrite Hlog. reflexivity.
Defined.

(** ** Windows: expiry, budget, bound *)

Section Budget.

Variable env : Env.

Lemma handleRateLimiting_expired (c : ApiClient) (w : World) (E : Z) :
  _rateLimitExpiry c = Some E →
  E ≠ 0 →
  E < clock env (reads w) →
  0 < _rateLimit c →
  clock env (S (reads w)) + _rateLimitTimeframe c ≠ 0 →
  clock env (S (S (reads w)))
  ≤ clock env (S (reads w)) + _rateLimitTimeframe c →
  handleRateLimiting env (c, w)
  = (Ok tt,
     (set_rateLimitCount 1
        (set_rateLimitExpiry
           (Some (clock env (S (reads w)) + _rateLimitTimeframe c)) c),
      tick (tick (tick w)))).
Proof.
  intros He HE Hover Hl HE' Hin.
  destruct c as [p bu ca h rl rc e tf tok]. simpl in *. subst e.
  gate_unfold. gate_cases; try lia; reflexivity.
Qed.

(** One call in a window that stays open: the expiry and the settings are
    kept, and either nothing is counted and nothing is requested, or the
    counter was below the limit and both grow by one. *)
Lemma getCountry_open (c : ApiClient) (w : World) (ip : string) (E : Z)
    (r : Result value) (c' : ApiClient) (w' : World) :
  _rateLimitExpiry c = Some E →
  window_open env E (reads w) →
  getCountry env ip (c, w) = (r, (c', w')) →
  _rateLimitExpiry c' = Some E
  ∧ same_settings c c'
  ∧ (reads w ≤ reads w')%nat
  ∧ ((_rateLimitCount c' = _rateLimitCount c ∧ requests w' = requests w)
     ∨ (_rateLimitCount c < _rateLimit c
        ∧ _rateLimitCount c' = _rateLimitCount c + 1
        ∧ requests w' = (requests w ++ [request_for c ip])%list)).
Proof.
  intros He Hopen Hrun.
  pose proof (handleRateLimiting_open env c w E He Hopen) as Hg.
  destruct (getCountry_cases env c w ip)
    as [(name & _ & _ & _ & Hrun')
       |[(c1 & w1 & _ & Hg' & _ & Hrun')
        |[(c1 & w1 & e & _ & Hg' & _ & _ & Hrun')
         |(c1 & w1 & name & _ & Hg' & _ & _ & Hrun')]]];
    rewrite Hrun' in Hrun; injection Hrun as <- <- <-.
  - split; [done|]. split; [apply same_settings_refl|]. split; [lia|].
    by left.
  - rewrite Hg in Hg'.
    destruct (Z.ltb_spec (_rateLimitCount c) (_rateLimit c)); [done|].
    injection Hg' as <- <-. split; [done|].
    split; [apply same_settings_refl|]. split; [simpl; lia|]. by left.
  - rewrite Hg in Hg'.
    destruct (Z.ltb_spec (_rateLimitCount c) (_rateLimit c)); [|done].
    injection Hg' as <- <-. split; [done|]. split; [by repeat split|].
    split; [destruct (absent_or_5xx e); simpl; lia|]. right.
    split; [done|]. split; [done|]. by destruct (absent_or_5xx e).
  - rewrite Hg in Hg'.
    destruct (Z.ltb_spec (_rateLimitCount c) (_rateLimit c)); [|done].
    injection Hg' as <- <-. split; [done|]. split; [by repeat split|].
    split; [simpl; lia|]. right. done.
Qed.

Lemma window_open_later (E : Z) (j k : nat) :
  (j ≤ k)%nat → window_open env E j → window_open env E k.
Proof. intros Hjk [HE Hw]. split; [done|]. intros i Hi. apply Hw. lia. Qed.

Lemma getCountry_each_open_budget (E : Z) (ips : list string) :
  ∀ (c : ApiClient) (w : World) (r : Result (list value)) (c' : ApiClient)
    (w' : World),
    _rateLimitExpiry c = Some E →
    window_open env E (reads w) →
    getCountry_each env ips (c, w) = (r, (c', w')) →
    _rateLimitExpiry c' = Some E
    ∧ same_settings c c'
    ∧ _rateLimitCount c' - _rateLimitCount c
      = Z.of_nat (length (requests w')) - Z.of_nat (length (requests w))
    ∧ _rateLimitCount c ≤ _rateLimitCount c'
    ∧ (_rateLimitCount c ≤ _rateLimit c → _rateLimitCount c' ≤ _rateLimit c).
Proof.
  induction ips as [|ip ips IH]; intros c w r c' w' He Hopen Hrun.
  - injection Hrun as <- <- <-. split; [done|].
    split; [apply same_settings_refl|]. lia.
  - rewrite getCountry_each_cons in Hrun.
    destruct (getCountry env ip (c, w)) as [r1 [c1 w1]] eqn:H1.
    destruct (getCountry_open c w ip E r1 c1 w1 He Hopen H1)
      as (He1 & Hs1 & Hr1 & Hstep).
    assert (Hl1 : _rateLimit c1 = _rateLimit c) by apply Hs1.
    destruct r1 as [v|e].
    + destruct (getCountry_each env ips (c1, w1)) as [r2 [c2 w2]] eqn:H2.
      destruct (IH c1 w1 r2 c2 w2 He1 (window_open_later E _ _ Hr1 Hopen) H2)
        as (He2 & Hs2 & Hcount & Hmono & Hle).
      assert (c' = c2 ∧ w' = w2) as [-> ->]
        by (destruct r2; by injection Hrun as _ <- <-).
      split; [done|]. split; [by apply (same_settings_trans _ _ _ Hs1)|].
      rewrite Hl1 in Hle.
      destruct Hstep as [[Hc Hq]|(Hlt & Hc & Hq)].
      * rewrite Hq, Hc in *. lia.
      * rewrite Hq, length_app in *. simpl in *. lia.
    + injection Hrun as _ <- <-. split; [done|]. split; [done|].
      destruct Hstep as [[Hc Hq]|(Hlt & Hc & Hq)].
      * rewrite Hq, Hc. lia.
      * rewrite Hq, length_app. simpl. lia.
Qed.

End Budget.

(** X8. Once the window is over, the next call that is not served from the
    cache passes the gate whatever the counter had reached: the expiry is
    recomputed from the clock, the counter restarts at 1, the request is
    issued and the envelope reports [rateLimitCount = 1]. (The limit is
    positive and the gate's reading falls inside the new window.) *)
Theorem getCountry_after_expiry (env : Env) (c : ApiClient) (w : World)
    (ip : string) (E : Z) :
  _rateLimitExpiry c = Some E →
  E ≠ 0 →
  E < clock env (reads w) →
  0 < _rateLimit c →
  clock env (S (reads w)) + _rateLimitTimeframe c ≠ 0 →
  clock env (S (S (reads w)))
  ≤ clock env (S (reads w)) + _rateLimitTimeframe c →
  _cache c !! ip = None →
  ∃ v c' w',
    getCountry env ip (c, w) = (Ok v, (c', w'))
    ∧ path v ["meta"; "rateLimitCount"] = VNum 1
    ∧ _rateLimitCount c' = 1
    ∧ _rateLimitExpiry c'
      = Some (clock env (S (reads w)) + _rateLimitTimeframe c)
    ∧ requests w' = (requests w ++ [request_for c ip])%list.
Proof.
  intros He HE Hover Hl HE' Hin Hc.
  pose proof (handleRateLimiting_expired env c w E He HE Hover Hl HE' Hin)
    as Hg.
  destruct (getCountry_passed env c w ip _ _ Hc Hg)
    as (v & c' & w' & Hrun & _ & _ & Hcount & (m & -> & _) & _ & Hreq).
  eexists v, _, w'. by repeat split.
Qed.

Lemma getCountry_after_expiry_witness :
  ∃ v c' w',
    getCountry (env_const 1 (FetchRejects "fetch failed")) "1.1.1.1"
      (set_rateLimitExpiry (Some 1600000000000) client_exhausted,
       world0) = (Ok v, (c', w'))
    ∧ path v ["meta"; "rateLimitCount"] = VNum 1
    ∧ _rateLimitCount c' = 1.
Proof.
  destruct (getCountry_after_expiry
              (env_const 1 (FetchRejects "fetch failed"))
              (set_rateLimitExpiry (Some 1600000000000) client_exhausted)
              world0 "1.1.1.1" 1600000000000)
    as (v & c' & w' & Hrun & Hv & Hc & _).
  - reflexivity.
  - lia.
  - simpl. lia.
  - simpl. lia.
  - simpl. lia.
  - simpl. lia.
  - reflexivity.
  - by exists v, c', w'.
Defined.

Lemma getCountry_each_returns (env : Env) (ips : list string) :
  ∀ s, ∃ vs s', getCountry_each env ips s = (Ok vs, s')
               ∧ length vs = length ips.
Proof.
  induction ips as [|ip ips IH]; intros [c w].
  - by eexists _, _.
  - rewrite getCountry_each_cons.
    destruct (getCountry_returns env c w ip) as (v & s1 & ->).
    destruct (IH s1) as (vs & s2 & -> & Hlen).
    eexists _, _. split; [reflexivity|]. simpl. by rewrite Hlen.
Qed.

(** X9. While the window of a client stays open, any sequence of
    [getCountry] calls, for any addresses and whatever the upstream does,
    returns one envelope per call; the counter grows by exactly the number
    of requests issued, and a counter that was within the limit stays
    within it: at most [rateLimit - rateLimitCount] further requests reach
    the provider in this window. *)
Theorem getCountry_each_budget (env : Env) (c : ApiClient) (w : World)
    (E : Z) (ips : list string) :
  _rateLimitExpiry c = Some E →
  window_open env E (reads w) →
  _rateLimitCount c ≤ _rateLimit c →
  ∃ vs c' w',
    getCountry_each env ips (c, w) = (Ok vs, (c', w'))
    ∧ length vs = length ips
    ∧ Z.of_nat (length (requests w')) - Z.of_nat (length (requests w))
      = _rateLimitCount c' - _rateLimitCount c
    ∧ _rateLimitCount c' ≤ _rateLimit c
    ∧ Z.of_nat (length (requests w')) - Z.of_nat (length (requests w))
      ≤ _rateLimit c - _rateLimitCount c.
Proof.
  intros He Hopen Hle.
  destruct (getCountry_each_returns env ips (c, w))
    as (vs & [c' w'] & Hrun & Hlen).
  destruct (getCountry_each_open_budget env E ips c w _ c' w' He Hopen Hrun)
    as (_ & _ & Hcount & _ & Hbound).
  exists vs, c', w'. split; [done|]. split; [done|].
  specialize (Hbound Hle). lia.
Qed.

Lemma getCountry_each_budget_witness :
  ∃ vs c' w',
    getCountry_each
      (env_const 0 (FetchResolves (response_ok (Some body_somewhere))))
      ["1.1.1.1"; "1.1.1.1"; "2.2.2.2"]
      (set_rateLimitCount 4 client_exhausted, world0)
    = (Ok vs, (c', w'))
    ∧ Z.of_nat (length (requests w')) - 0 ≤ 5 - 4.
Proof.
  destruct (getCountry_each_budget
              (env_const 0 (FetchResolves (response_ok (Some body_somewhere))))
              (set_rateLimitCount 4 client_exhausted) world0 1700000060000
              ["1.1.1.1"; "1.1.1.1"; "2.2.2.2"])
    as (vs & c' & w' & Hrun & _ & _ & _ & Hbudget).
  - reflexivity.
  - split; [lia|]. intros k _. simpl. lia.
  - simpl. lia.
  - by exists vs, c', w'.
Defined.

(** X10. In an open window the getter and the gate agree. When
    [isRateLimited] is true, a call for an address that is not cached is
    answered with the 429 envelope, issues no request and leaves the client
    as it was; when it is false, the call issues its request and increments
    the counter by one. *)
Theorem isRateLimited_agrees_with_gate (env : Env) (c : ApiClient)
    (w : World) (E : Z) (ip : string) :
  _rateLimitExpiry c = Some E →
  window_open env E (reads w) →
  _cache c !! ip = None →
  ∃ b w0,
    isRateLimited env (c, w) = (Ok b, (c, w0))
    ∧ (b = true →
       ∃ w', getCountry env ip (c, w)
             = (Ok (VObj [("error", VObj [("message", VStr "Rate limited")]);
                          ("meta",
                           VObj [("apiUrl", VStr (getCountryApiUrl c ip));
                                 ("rateLimit", VNum (_rateLimit c));
                                 ("rateLimitCount",
                                  VNum (_rateLimitCount c));
                                 ("status", VNum 429)])]),
                (c, w'))
             ∧ requests w' = requests w ∧ logged w' = logged w)
    ∧ (b = false →
       ∃ v c' w', getCountry env ip (c, w) = (Ok v, (c', w'))
                  ∧ requests w' = (requests w ++ [request_for c ip])%list
                  ∧ _rateLimitCount c' = _rateLimitCount c + 1).
Proof.
  intros He Hopen Hc.
  pose proof (handleRateLimiting_open env c w E He Hopen) as Hg.
  rewrite isRateLimited_eq. eexists _, _. split; [reflexivity|].
  assert (Hb : limited_at c (clock env (reads w))
               = negb (_rateLimitCount c <? _rateLimit c)).
  { destruct Hopen as [HE Hw]. pose proof (Hw (reads w) ltac:(lia)).
    unfold limited_at, expired_at, expiry_truthy. rewrite He. simpl.
    rewrite Z.gtb_ltb, Z.geb_leb.
    destruct (Z.eqb_spec E 0); [done|]. simpl.
    destruct (Z.ltb_spec E (clock env (reads w))); [lia|].
    destruct (Z.ltb_spec (_rateLimitCount c) (_rateLimit c)),
      (Z.leb_spec (_rateLimit c) (_rateLimitCount c)); simpl; lia || done. }
  rewrite Hb.
  destruct (Z.ltb_spec (_rateLimitCount c) (_rateLimit c)); simpl.
  - split; [intros [=]|]. intros _.
    destruct (getCountry_passed env c w ip _ _ Hc Hg)
      as (v & c' & w' & Hrun & _ & _ & _ & (m & -> & _) & _ & Hreq).
    by eexists v, _, w'.
  - split; [|intros [=]]. intros _.
    destruct (getCountry_rejected env c w ip _ _ _ Hc Hg)
      as (Hrun & Hreq & Hlog).
    by eexists.
Qed.

Lemma isRateLimited_agrees_with_gate_witness :
  ∃ b w0,
    isRateLimited (env_const 0 (FetchRejects "fetch failed"))
      (client_exhausted, world0) = (Ok b, (client_exhausted, w0))
    ∧ b = true
    ∧ ∃ v w', getCountry (env_const 0 (FetchRejects "fetch failed"))
                "1.1.1.1" (client_exhausted, world0)
              = (Ok v, (client_exhausted, w'))
              ∧ path v ["meta"; "status"] = VNum 429.
Proof.
  destruct (isRateLimited_agrees_with_gate
              (env_const 0 (FetchRejects "fetch failed")) client_exhausted
              world0 1700000060000 "1.1.1.1")
    as (b & w0 & Hget & Htrue & _).
  - reflexivity.
  - split; [lia|]. intros k _. simpl. lia.
  - reflexivity.
  - assert (Hb : b = true) by (vm_compute in Hget; congruence).
    exists b, w0. split; [exact Hget|]. split; [exact Hb|].
    destruct (Htrue Hb) as (w' & Hrun & _).
    eexists _, w'. split; [exact Hrun|reflexivity].
Defined.

(** ** The bound on the counter, for a clock that does not go back *)

Section MonotoneBound.

Variable env : Env.
Hypothesis clock_monotone : monotone env.

Ltac stale_now :=
  first
    [ left; lia
    | right; split; [lia|];
      first
        [ left; simpl; apply negb_false_iff, Z.eqb_eq; lia
        | right; eexists; split; [|simpl; eassumption]; simpl; lia ] ].

Lemma handleRateLimiting_within_bound (c : ApiClient) (w : World)
    (r : Result unit) (c1 : ApiClient) (w1 : World) :
  0 ≤ _rateLimit c →
  within_bound env c w →
  handleRateLimiting env (c, w) = (r, (c1, w1)) →
  within_bound env c1 w1.
Proof.
  intros HN [H0 Hb].
  assert (Hfresh : ∀ e, _rateLimitExpiry c = Some e → e ≠ 0 →
                        clock env (reads w) ≤ e →
                        _rateLimitCount c ≤ _rateLimit c).
  { intros e He Hne Hle. destruct Hb as [Hb|[_ [Hst|(j & Hj & Hlt)]]].
    - done.
    - unfold expiry_truthy in Hst. rewrite He in Hst.
      apply negb_false_iff, Z.eqb_eq in Hst. done.
    - rewrite He in Hlt. simpl in Hlt.
      pose proof (clock_monotone j (reads w) ltac:(lia)). lia. }
  assert (Hmax : _rateLimitCount c ≤ _rateLimit c + 1).
  { destruct Hb as [Hb|[Hb _]]; lia. }
  clear Hb. unfold within_bound, stale.
  destruct c as [p bu ca h rl rc [e|] tf tok]; simpl in *; gate_unfold.
  - destruct (Z.eqb_spec e 0) as [->|He]; simpl.
    + gate_cases; intros [= <- <- <-]; simpl; (split; [lia|]); stale_now.
    + destruct (Z.ltb_spec e (clock env (reads w))); simpl.
      * gate_cases; intros [= <- <- <-]; simpl; (split; [lia|]); stale_now.
      * specialize (Hfresh e eq_refl He ltac:(lia)).
        gate_cases; try lia; intros [= <- <- <-]; simpl; (split; [lia|]);
          stale_now.
  - gate_cases; intros [= <- <- <-]; simpl; (split; [lia|]); stale_now.
Qed.

Lemma getCountry_within_bound (c : ApiClient) (w : World) (ip : string)
    (r : Result value) (c' : ApiClient) (w' : World) :
  0 ≤ _rateLimit c →
  within_bound env c w →
  getCountry env ip (c, w) = (r, (c', w')) →
  within_bound env c' w' ∧ _rateLimit c' = _rateLimit c.
Proof.
  intros HN Hb Hrun.
  destruct (getCountry_cases env c w ip)
    as [(name & _ & _ & _ & Hrun')
       |[(c1 & w1 & _ & Hg & _ & Hrun')
        |[(c1 & w1 & e & _ & Hg & _ & _ & Hrun')
         |(c1 & w1 & name & _ & Hg & _ & _ & Hrun')]]];
    rewrite Hrun' in Hrun; injection Hrun as <- <- <-; [done|..];
    pose proof (handleRateLimiting_within_bound _ _ _ _ _ HN Hb Hg) as Hb1;
    destruct (handleRateLimiting_frame _ _ _ _ _ _ Hg) as (Hc1 & _);
    (split; [|by rewrite Hc1]).
  - done.
  - by destruct (absent_or_5xx e).
  - done.
Qed.

Lemma getCountry_each_within_bound (ips : list string) :
  ∀ (c : ApiClient) (w : World) (r : Result (list value)) (c' : ApiClient)
    (w' : World),
    0 ≤ _rateLimit c →
    within_bound env c w →
    getCountry_each env ips (c, w) = (r, (c', w')) →
    within_bound env c' w' ∧ _rateLimit c' = _rateLimit c.
Proof.
  induction ips as [|ip ips IH]; intros c w r c' w' HN Hb Hrun.
  - by injection Hrun as <- <- <-.
  - rewrite getCountry_each_cons in Hrun.
    destruct (getCountry env ip (c, w)) as [r1 [c1 w1]] eqn:H1.
    destruct (getCountry_within_bound c w ip r1 c1 w1 HN Hb H1) as [Hb1 Hl1].
    destruct r1 as [v|e]; [|by injection Hrun as _ <- <-].
    destruct (getCountry_each env ips (c1, w1)) as [r2 [c2 w2]] eqn:H2.
    destruct (IH c1 w1 r2 c2 w2 ltac:(lia) Hb1 H2) as [Hb2 Hl2].
    assert (c' = c2 ∧ w' = w2) as [-> ->]
      by (destruct r2; by injection Hrun as _ <- <-).
    split; [done|congruence].
Qed.

End MonotoneBound.

(** X11. On a clock that never goes back, a client constructed with
    [rateLimit = N >= 0] keeps [rateLimitCount] between 0 and [N + 1] through
    any sequence of [getCountry] calls, for any addresses, any timeframe and
    whatever the upstream does. *)
Theorem rateLimitCount_at_most_one_over (env : Env) (cfg : Config)
    (c : ApiClient) (w : World) (N : Z) (ips : list string)
    (r : Result (list value)) (c' : ApiClient) (w' : World) :
  new_ApiClient cfg = Ok c ∨ new_ApiClientIpxapi cfg = Ok c →
  rateLimit cfg = VNum N →
  0 ≤ N →
  monotone env →
  getCountry_each env ips (c, w) = (r, (c', w')) →
  0 ≤ _rateLimitCount c' ≤ N + 1.
Proof.
  intros Hnew Hcfg HN Hmono Hrun.
  destruct (new_client_fresh cfg c Hnew) as (Hlim & _ & Hcount & _).
  rewrite Hcfg in Hlim. injection Hlim as Hlim.
  destruct (getCountry_each_within_bound env Hmono ips c w r c' w')
    as [[H0 Hb] Hl]; [lia| |done|].
  - split; [lia|]. left. lia.
  - rewrite Hl, <- Hlim in Hb. destruct Hb as [Hb|[Hb _]]; lia.
Qed.

Lemma rateLimitCount_at_most_one_over_witness :
  ∃ c' w',
    snd (getCountry_each env_race ["1.1.1.1"; "2.2.2.2"; "3.3.3.3"]
           (client_with_cache ∅, world0)) = (c', w')
    ∧ 0 ≤ _rateLimitCount c' ≤ 5 + 1.
Proof.
  destruct (getCountry_each env_race ["1.1.1.1"; "2.2.2.2"; "3.3.3.3"]
              (client_with_cache ∅, world0)) as [r [c' w']] eqn:Hrun.
  exists c', w'. split; [reflexivity|].
  apply (rateLimitCount_at_most_one_over env_race config_test client_test
           world0 5 ["1.1.1.1"; "2.2.2.2"; "3.3.3.3"] r c' w').
  - left. reflexivity.
  - reflexivity.
  - lia.
  - intros [|[|[|[|j]]]] [|[|[|[|k]]]] Hjk; simpl; lia.
  - exact Hrun.
Defined.

(** ** The orchestrator, for any number of clients *)

Section Orchestration.

Variable env : Env.

(** The callback of [find] in the getter. *)
Lemma find_callback_eq (h : gmap nat ApiClient) (o : ApiClientOrchestrator)
    (w : World) (l : nat) (c : ApiClient) :
  h !! l = Some c →
  bind (on "isRateLimited" (Some l) (isRateLimited env))
    (fun limited' => ret (negb limited')) (mkProgram h o w)
  = (Ok (negb (limited_at c (clock env (reads w)))),
     mkProgram h o (after_expiry_check c w)).
Proof.
  intros Hl. unfold bind.
  by rewrite (on_isRateLimited env l (mkProgram h o w) c Hl).
Qed.

Lemma after_expiry_check_frame (c : ApiClient) (w : World) :
  requests (after_expiry_check c w) = requests w
  ∧ logged (after_expiry_check c w) = logged w
  ∧ (reads w ≤ reads (after_expiry_check c w))%nat.
Proof. unfold after_expiry_check. destruct (expiry_truthy c); simpl; auto. Qed.

(** [find] over clients that are all in the heap: it does not throw, leaves
    the heap and the orchestrator alone, and what it finds is in the list. *)
Lemma Array_find_frame (h : gmap nat ApiClient) (o : ApiClientOrchestrator)
    (ls : list nat) :
  ∀ w,
    (∀ l, l ∈ ls → is_Some (h !! l)) →
    ∃ q w',
      Array_find
        (fun apiClient =>
           bind (on "isRateLimited" (Some apiClient) (isRateLimited env))
             (fun limited' => ret (negb limited')))
        ls (mkProgram h o w)
      = (Ok q, mkProgram h o w')
      ∧ requests w' = requests w ∧ logged w' = logged w
      ∧ (reads w ≤ reads w')%nat
      ∧ (∀ l, q = Some l → l ∈ ls).
Proof.
  induction ls as [|l ls IH]; intros w Hin.
  - exists None, w. simpl. by repeat split.
  - destruct (Hin l ltac:(set_solver)) as [c Hl].
    destruct (after_expiry_check_frame c w) as (Hq & Hlg & Hr).
    cbn [Array_find]. unfold bind at 1.
    rewrite (find_callback_eq h o w l c Hl).
    destruct (negb (limited_at c (clock env (reads w)))).
    + exists (Some l), (after_expiry_check c w). unfold ret.
      repeat split; try done. intros ? [= <-]. set_solver.
    + destruct (IH (after_expiry_check c w)) as (q & w' & Hrun & Hq' & Hlg' & Hr' & Hmem).
      { intros l' Hl'. apply Hin. set_solver. }
      exists q, w'. rewrite Hrun. repeat split; try congruence; try lia.
      intros l' Hl'. specialize (Hmem l' Hl'). set_solver.
Qed.

(** With stable statuses, [find] returns the first client of the list that
    is not rate-limited. *)
Lemma Array_find_stable (h : gmap nat ApiClient) (o : ApiClientOrchestrator)
    (lim : nat → bool) (ls : list nat) :
  ∀ w,
    (∀ l, l ∈ ls → is_Some (h !! l)) →
    (∀ l c k, l ∈ ls → h !! l = Some c → (reads w ≤ k)%nat →
              limited_at c (clock env k) = lim l) →
    ∃ w',
      Array_find
        (fun apiClient =>
           bind (on "isRateLimited" (Some apiClient) (isRateLimited env))
             (fun limited' => ret (negb limited')))
        ls (mkProgram h o w)
      = (Ok (List.find (fun l => negb (lim l)) ls), mkProgram h o w')
      ∧ requests w' = requests w ∧ logged w' = logged w
      ∧ (reads w ≤ reads w')%nat.
Proof.
  induction ls as [|l ls IH]; intros w Hin Hlim.
  - exists w. simpl. by repeat split.
  - destruct (Hin l ltac:(set_solver)) as [c Hl].
    destruct (after_expiry_check_frame c w) as (Hq & Hlg & Hr).
    cbn [Array_find List.find]. unfold bind at 1.
    rewrite (find_callback_eq h o w l c Hl).
    rewrite (Hlim l c (reads w) ltac:(set_solver) Hl ltac:(lia)).
    destruct (negb (lim l)).
    + exists (after_expiry_check c w). by repeat split.
    + destruct (IH (after_expiry_check c w)) as (w' & Hrun & Hq' & Hlg' & Hr').
      { intros l' Hl'. apply Hin. set_solver. }
      { intros l' c' k Hl' Hc' Hk. apply Hlim; [set_solver|done|lia]. }
      exists w'. rewrite Hrun. repeat split; try congruence; lia.
Qed.

(** The getter, on an orchestrator whose active client is in the heap. *)
Lemma apiClient_eq (h : gmap nat ApiClient) (ls : list nat) (w : World)
    (a : nat) (ca : ApiClient) :
  h !! a = Some ca →
  apiClient env
    (mkProgram h {| activeApiClient := Some a; apiClients := ls |} w)
  = if negb (limited_at ca (clock env (reads w)))
    then (Ok (Some a),
          mkProgram h {| activeApiClient := Some a; apiClients := ls |}
            (after_expiry_check ca w))
    else
      match
        Array_find
          (fun apiClient =>
             bind (on "isRateLimited" (Some apiClient) (isRateLimited env))
               (fun limited' => ret (negb limited')))
          ls
          (mkProgram h {| activeApiClient := Some a; apiClients := ls |}
             (after_expiry_check ca w))
      with
      | (Ok None, s2) => (Ok (Some a), s2)
      | (Ok (Some l), s2) =>
          bind (on "cache" (Some a) cache)
            (fun source =>
               bind (on "transferCache" (Some l) (transferCache source))
                 (fun _ =>
                    bind (set_activeApiClient (Some l))
                      (fun _ => ret (Some l)))) s2
      | (Throw e, s2) => (Throw e, s2)
      end.
Proof.
  intros Ha.
  unfold apiClient, bind at 1, get_orchestrator. cbv beta iota.
  cbn [activeApiClient apiClients orchestrator].
  unfold bind at 1.
  rewrite (on_isRateLimited env a (mkProgram h _ _) ca Ha).
  cbn [heap world orchestrator].
  destruct (negb (limited_at ca (clock env (reads w)))); [done|].
  unfold bind at 1.
  destruct (Array_find _ ls _) as [[[l|]|e] s2]; done.
Qed.

(** The transfer that follows a successful [find]. *)
Lemma apiClient_transfer (h : gmap nat ApiClient) (ls : list nat)
    (w : World) (a l : nat) (ca cl : ApiClient) :
  h !! a = Some ca →
  h !! l = Some cl →
  bind (on "cache" (Some a) cache)
    (fun source =>
       bind (on "transferCache" (Some l) (transferCache source))
         (fun _ =>
            bind (set_activeApiClient (Some l)) (fun _ => ret (Some l))))
    (mkProgram h {| activeApiClient := Some a; apiClients := ls |} w)
  = (Ok (Some l),
     mkProgram (<[l := set_cache (_cache ca ∪ _cache cl) cl]> h)
       {| activeApiClient := Some l; apiClients := ls |} w).
Proof.
  intros Ha Hl. unfold bind at 1.
  rewrite (on_read "cache" a cache (mkProgram h _ _) ca (Ok (_cache ca)) _
             Ha eq_refl).
  cbv beta iota. unfold bind at 1.
  rewrite (on_Some "transferCache" l _ (mkProgram h _ _) cl _ _ _ Hl
             (transferCache_eq cl _ (_cache ca))).
  reflexivity.
Qed.

(** Every access: no throw; either the active client is returned and only
    the clock was read, or a client of the list received the cache of the
    active one and became active. *)
Lemma apiClient_run (h : gmap nat ApiClient) (ls : list nat) (w : World)
    (a : nat) (ca : ApiClient) :
  h !! a = Some ca →
  (∀ l, l ∈ ls → is_Some (h !! l)) →
  ∃ w',
    requests w' = requests w ∧ logged w' = logged w
    ∧ (reads w ≤ reads w')%nat
    ∧ (apiClient env
         (mkProgram h {| activeApiClient := Some a; apiClients := ls |} w)
       = (Ok (Some a),
          mkProgram h {| activeApiClient := Some a; apiClients := ls |} w')
       ∨ ∃ l cl,
           l ∈ ls ∧ h !! l = Some cl
           ∧ apiClient env
               (mkProgram h {| activeApiClient := Some a; apiClients := ls |}
                  w)
             = (Ok (Some l),
                mkProgram (<[l := set_cache (_cache ca ∪ _cache cl) cl]> h)
                  {| activeApiClient := Some l; apiClients := ls |} w')).
Proof.
  intros Ha Hin. rewrite (apiClient_eq h ls w a ca Ha).
  destruct (after_expiry_check_frame ca w) as (Hq & Hlg & Hr).
  destruct (negb (limited_at ca (clock env (reads w)))).
  { exists (after_expiry_check ca w). repeat split; try done. by left. }
  destruct (Array_find_frame h {| activeApiClient := Some a; apiClients := ls |}
              ls (after_expiry_check ca w) Hin)
    as (q & w' & -> & Hq' & Hlg' & Hr' & Hmem).
  exists w'. split; [congruence|]. split; [congruence|]. split; [lia|].
  destruct q as [l|]; [|by left]. right.
  specialize (Hmem l eq_refl). destruct (Hin l Hmem) as [cl Hl].
  exists l, cl. split; [done|]. split; [done|].
  by apply apiClient_transfer.
Qed.

(** With stable statuses the access is decided by [lim]. *)
Lemma apiClient_stable_run (h : gmap nat ApiClient) (ls : list nat)
    (w : World) (a : nat) (ca : ApiClient) (lim : nat → bool) :
  h !! a = Some ca →
  (∀ l, l ∈ ls → is_Some (h !! l)) →
  stable_limits env
    (mkProgram h {| activeApiClient := Some a; apiClients := ls |} w) lim →
  ∃ w',
    requests w' = requests w ∧ logged w' = logged w
    ∧ (reads w ≤ reads w')%nat
    ∧ apiClient env
        (mkProgram h {| activeApiClient := Some a; apiClients := ls |} w)
      = match (if lim a then List.find (fun l => negb (lim l)) ls else None)
        with
        | None =>
            (Ok (Some a),
             mkProgram h {| activeApiClient := Some a; apiClients := ls |} w')
        | Some l =>
            (Ok (Some l),
             mkProgram
               (<[l := set_cache
                         (_cache ca ∪ from_option _cache ∅ (h !! l))
                         (default ca (h !! l))]> h)
               {| activeApiClient := Some l; apiClients := ls |} w')
        end.
Proof.
  intros Ha Hin Hst. rewrite (apiClient_eq h ls w a ca Ha).
  destruct (after_expiry_check_frame ca w) as (Hq & Hlg & Hr).
  rewrite (Hst a ca (reads w) ltac:(by left) Ha ltac:(simpl; lia)).
  destruct (lim a); simpl.
  2:{ exists (after_expiry_check ca w). by repeat split. }
  destruct (Array_find_stable h
              {| activeApiClient := Some a; apiClients := ls |} lim ls
              (after_expiry_check ca w) Hin)
    as (w' & -> & Hq' & Hlg' & Hr').
  { intros l c k Hl Hc Hk. apply Hst; [by right|done|simpl in *; lia]. }
  exists w'. split; [congruence|]. split; [congruence|]. split; [lia|].
  destruct (List.find _ ls) as [l|] eqn:Hfind; [|done].
  apply find_some in Hfind as [Hmem _].
  apply list_elem_of_In in Hmem. destruct (Hin l Hmem) as [cl Hl].
  rewrite Hl. simpl. by apply apiClient_transfer.
Qed.

End Orchestration.

(** An access of [apiClient] on a well-formed program. *)
Lemma apiClient_access (env : Env) (s : Program) :
  well_formed s →
  ∃ l s',
    apiClient env s = (Ok (Some l), s')
    ∧ activeApiClient (orchestrator s') = Some l
    ∧ apiClients (orchestrator s') = apiClients (orchestrator s)
    ∧ (Some l = activeApiClient (orchestrator s)
       ∨ l ∈ apiClients (orchestrator s))
    ∧ requests (world s') = requests (world s)
    ∧ logged (world s') = logged (world s)
    ∧ well_formed s'
    ∧ ∀ l' c, heap s !! l' = Some c →
              ∃ c', heap s' !! l' = Some c'
                    ∧ c' = set_cache (_cache c') c
                    ∧ dom (_cache c) ⊆ dom (_cache c').
Proof.
  destruct s as [h [act ls] w]. intros [(a & Hact & [ca Ha]) Hin].
  simpl in Hact, Hin. subst act.
  destruct (apiClient_run env h ls w a ca Ha Hin)
    as (w' & Hq & Hlg & _ & [Hrun|(l & cl & Hmem & Hl & Hrun)]);
    rewrite Hrun; eexists _, _; (split; [reflexivity|]);
    unfold well_formed;
    cbn [heap orchestrator world activeApiClient apiClients].
  - repeat split; try done; try by left.
    + by exists a.
    + intros l' c Hl'. exists c. by destruct c.
  - split; [done|]. split; [done|]. split; [by right|].
    split; [done|]. split; [done|]. split.
    + split.
      * exists l. split; [done|]. by rewrite lookup_insert_eq.
      * intros l' Hl'. rewrite lookup_insert_is_Some'. right. by apply Hin.
    + intros l' c Hl'. destruct (decide (l' = l)) as [->|Hne].
      * rewrite lookup_insert_eq. eexists. split; [reflexivity|].
        rewrite Hl in Hl'. injection Hl' as <-. simpl.
        split; [done|]. rewrite dom_union_L. set_solver.
      * rewrite lookup_insert_ne by done. exists c. by destruct c.
Qed.

(** X12. An access of [apiClient] on an orchestrator whose references all
    denote clients never throws and returns the client that is active
    afterwards, which was the active one or is one of the list. The access
    issues no request and logs nothing; the list is unchanged; every client
    keeps its settings, counter and expiry, and no cache loses an address.
    The orchestrator is well formed afterwards. *)
Theorem apiClient_harmless (env : Env) (s : Program) :
  well_formed s →
  ∃ l s',
    apiClient env s = (Ok (Some l), s')
    ∧ activeApiClient (orchestrator s') = Some l
    ∧ apiClients (orchestrator s') = apiClients (orchestrator s)
    ∧ (Some l = activeApiClient (orchestrator s)
       ∨ l ∈ apiClients (orchestrator s))
    ∧ requests (world s') = requests (world s)
    ∧ logged (world s') = logged (world s)
    ∧ well_formed s'
    ∧ ∀ l' c, heap s !! l' = Some c →
              ∃ c', heap s' !! l' = Some c'
                    ∧ c' = set_cache (_cache c') c
                    ∧ dom (_cache c) ⊆ dom (_cache c').
Proof. exact (apiClient_access env s). Qed.

Lemma program_test_well_formed : well_formed program_test.
Proof.
  split.
  - exists 0%nat. split; [reflexivity|]. by eexists.
  - intros l Hl. apply list_elem_of_In in Hl.
    destruct Hl as [<-|[<-|[]]]; by eexists.
Qed.

Lemma apiClient_harmless_witness :
  ∃ l s',
    apiClient env_test program_test = (Ok (Some l), s')
    ∧ requests (world s') = requests (world program_test).
Proof.
  destruct (apiClient_harmless env_test program_test program_test_well_formed)
    as (l & s' & Hrun & _ & _ & _ & Hreq & _).
  by exists l, s'.
Defined.

(** X13. When the status of each client does not change during an access,
    the access returns the active client if it is not rate-limited;
    otherwise the first client of the list, in list order, that is not
    rate-limited, or the active client if there is none. When the active
    client is kept, the clients are left as they were. When another client
    is chosen, it becomes active and its cache becomes the union of the two
    caches in which the entries of the previously active client override;
    the other clients are left as they were. *)
Theorem apiClient_first_available (env : Env) (s : Program) (a : nat)
    (lim : nat → bool) :
  well_formed s →
  activeApiClient (orchestrator s) = Some a →
  stable_limits env s lim →
  let chosen :=
    if lim a
    then default a (List.find (fun l => negb (lim l))
                      (apiClients (orchestrator s)))
    else a in
  ∃ s',
    apiClient env s = (Ok (Some chosen), s')
    ∧ activeApiClient (orchestrator s') = Some chosen
    ∧ (chosen = a → heap s' = heap s)
    ∧ (chosen ≠ a →
       ∃ ca cl, heap s !! a = Some ca ∧ heap s !! chosen = Some cl
                ∧ heap s'
                  = <[chosen := set_cache (_cache ca ∪ _cache cl) cl]>
                      (heap s)).
Proof.
  destruct s as [h [act ls] w]. intros [(a' & Hact & [ca Ha]) Hin] Hact' Hst.
  simpl in Hact, Hact', Hin. subst act. injection Hact' as ->. simpl.
  destruct (apiClient_stable_run env h ls w a ca lim Ha Hin Hst)
    as (w' & _ & _ & _ & Hrun).
  rewrite Hrun. destruct (lim a) eqn:Hla.
  - destruct (List.find _ ls) as [l|] eqn:Hfind; simpl.
    + eexists. split; [reflexivity|]. simpl. split; [done|].
      apply find_some in Hfind as [Hmem Hl].
      apply list_elem_of_In in Hmem. destruct (Hin l Hmem) as [cl Hcl].
      split.
      * intros ->. rewrite Hla in Hl. discriminate.
      * intros _. exists ca, cl. rewrite Hcl. done.
    + eexists. split; [reflexivity|]. simpl. by repeat split.
  - eexists. split; [reflexivity|]. simpl. by repeat split.
Qed.

Lemma apiClient_first_available_witness :
  ∃ s',
    apiClient (env_const 0 (FetchRejects "fetch failed")) program_test
    = (Ok (Some 1%nat), s')
    ∧ activeApiClient (orchestrator s') = Some 1%nat.
Proof.
  destruct (apiClient_first_available
              (env_const 0 (FetchRejects "fetch failed")) program_test 0%nat
              (fun l => Nat.eqb l 0))
    as (s' & Hrun & Hact & _).
  - exact program_test_well_formed.
  - reflexivity.
  - intros l c k Hl Hc _.
    assert (l = 0%nat ∨ l = 1%nat) as [-> | ->].
    { destruct Hl as [[= ->]|Hl]; [by left|].
      apply list_elem_of_In in Hl. destruct Hl as [<-|[<-|[]]]; auto. }
    + injection Hc as <-. reflexivity.
    + injection Hc as <-. reflexivity.
  - by exists s'.
Defined.

(** ** The controller *)

Lemma controller_eq (env : Env) (ip : string) (s s1 : Program) (l : nat)
    (c c' : ApiClient) (v : value) (w' : World) :
  apiClient env s = (Ok (Some l), s1) →
  heap s1 !! l = Some c →
  getCountry env ip (c, world s1) = (Ok v, (c', w')) →
  countries.getCountry env ip s
  = (Ok (respond v),
     {| heap := <[l := c']> (heap s1); orchestrator := orchestrator s1;
        world := w' |}).
Proof.
  intros Hget Hl Hrun. unfold countries.getCountry, bind at 1.
  rewrite Hget. unfold bind at 1.
  by rewrite (on_Some "getCountry" l _ s1 c c' (Ok v) w' Hl Hrun).
Qed.

Lemma controller_step (env : Env) (ip : string) (s : Program) :
  well_formed s →
  ∃ response s' code,
    countries.getCountry env ip s = (Ok response, s')
    ∧ res_status response = VNum code
    ∧ code ≠ 0
    ∧ well_formed s'
    ∧ apiClients (orchestrator s') = apiClients (orchestrator s).
Proof.
  intros Hwf.
  destruct (apiClient_access env s Hwf)
    as (l & s1 & Hget & Hact & Hls & _ & _ & _ & [(a & Ha & Hsome) Hin] & _).
  rewrite Hact in Ha. injection Ha as <-. destruct Hsome as [c Hl].
  destruct (getCountry_status_cases env c (world s1) ip)
    as (v & [c' w'] & code & Hrun & Hcode & Hne & _).
  rewrite (controller_eq env ip s s1 l c c' v w' Hget Hl Hrun).
  eexists _, _, code. split; [reflexivity|]. split; [exact Hcode|].
  split; [done|]. split; [|done]. split.
  - exists l. cbn [heap orchestrator]. split; [done|].
    by rewrite lookup_insert_eq.
  - intros l' Hl'. cbn [heap orchestrator] in *.
    rewrite lookup_insert_is_Some'. right. by apply Hin.
Qed.

Lemma init_well_formed (ipstack ipxapi : Config) (w : World) (s : Program) :
  countries.init ipstack ipxapi w = Ok s → well_formed s.
Proof.
  unfold countries.init.
  destruct (new_ApiClient ipstack) as [c1|]; [|discriminate].
  destruct (new_ApiClientIpxapi ipxapi) as [c2|]; [|discriminate].
  intros [= <-]. split.
  - exists 0%nat. split; [reflexivity|]. by eexists.
  - intros l Hl. apply list_elem_of_In in Hl.
    destruct Hl as [<-|[<-|[]]]; by eexists.
Qed.

(** X14. Once the module of the controller has loaded (both constructors
    accepted their configuration), every request gets a response: the
    controller never throws, whatever the addresses requested, the clock and
    the upstream do, and the status of each response is a number other than
    0, the one of the envelope it carries. *)
Theorem handle_each_responds (env : Env) (ipstack ipxapi : Config)
    (w : World) (s : Program) (ips : list string) :
  countries.init ipstack ipxapi w = Ok s →
  ∃ responses s',
    handle_each env ips s = (Ok responses, s')
    ∧ length responses = length ips
    ∧ Forall (fun response =>
                ∃ code, res_status response = VNum code ∧ code ≠ 0
                        ∧ path (res_body response) ["meta"; "status"]
                          = VNum code)
        responses.
Proof.
  intros Hinit. apply init_well_formed in Hinit. revert s Hinit.
  induction ips as [|ip ips IH]; intros s Hwf.
  - eexists _, _. split; [reflexivity|]. by split.
  - destruct (controller_step env ip s Hwf)
      as (response & s1 & code & Hrun & Hcode & Hne & Hwf1 & _).
    destruct (IH s1 Hwf1) as (responses & s2 & Hrest & Hlen & Hall).
    cbn [handle_each]. unfold bind at 1. rewrite Hrun.
    unfold bind at 1. rewrite Hrest.
    eexists _, _. split; [reflexivity|]. split; [simpl; by rewrite Hlen|].
    constructor; [|done]. exists code. split; [done|]. split; [done|].
    unfold countries.getCountry, bind in Hrun.
    destruct (apiClient env s) as [[client|] ?]; [|discriminate].
    destruct (on _ _ _ _) as [[v|] ?]; [|discriminate].
    injection Hrun as <- _. done.
Qed.

Lemma handle_each_responds_witness :
  ∃ responses s',
    handle_each env_test ["156.24.151.42"; "156.24.151.42"]
      {| heap := <[0%nat := client_test]> (<[1%nat := client_second]> ∅);
         orchestrator := new_ApiClientOrchestrator [0%nat; 1%nat];
         world := world0 |}
    = (Ok responses, s')
    ∧ length responses = 2%nat.
Proof.
  destruct (handle_each_responds env_test config_test
              {| baseUrl := VStr "https://ipxapi.com/api"; rateLimit := VNum 5;
                 rateLimitTimeframe := Some 60000; token := VStr "def456" |}
              world0
              {| heap := <[0%nat := client_test]> (<[1%nat := client_second]> ∅);
                 orchestrator := new_ApiClientOrchestrator [0%nat; 1%nat];
                 world := world0 |}
              ["156.24.151.42"; "156.24.151.42"])
    as (responses & s' & Hrun & Hlen & _).
  - reflexivity.
  - by exists responses, s'.
Defined.

(** A client that is rate-limited at every reading from [n] on is inside an
    open window with its budget used. *)
Lemma limited_window (env : Env) (c : ApiClient) (n : nat) :
  (∀ k, (n ≤ k)%nat → limited_at c (clock env k) = true) →
  ∃ E, _rateLimitExpiry c = Some E
       ∧ window_open env E n
       ∧ _rateLimit c ≤ _rateLimitCount c.
Proof.
  intros Hlim. pose proof (Hlim n ltac:(lia)) as Hn.
  unfold limited_at, expired_at, expiry_truthy in *.
  destruct (_rateLimitExpiry c) as [E|]; [|done]. simpl in *.
  exists E. split; [done|].
  destruct (Z.eqb_spec E 0) as [HE|HE]; [done|]. simpl in Hn.
  rewrite Z.gtb_ltb in Hn.
  destruct (Z.ltb_spec E (clock env n)); [done|].
  rewrite Z.geb_leb in Hn. apply Z.leb_le in Hn.
  split; [|done]. split; [done|].
  intros k Hk. specialize (Hlim k Hk). simpl in Hlim.
  rewrite Z.gtb_ltb in Hlim.
  destruct (Z.ltb_spec E (clock env k)); [done|lia].
Qed.

(** X15. Failover does not lose cached answers. When the active client is
    rate-limited and another client of the list takes over, a request for an
    address that the previously active client had cached (with a non-empty
    name) is answered from the cache by the new client: status 200,
    [cache: true], the cached name, and no request to any provider. *)
Theorem failover_keeps_cached_answers (env : Env) (s : Program) (a l : nat)
    (ca : ApiClient) (lim : nat → bool) (ip name : string) :
  well_formed s →
  activeApiClient (orchestrator s) = Some a →
  heap s !! a = Some ca →
  stable_limits env s lim →
  lim a = true →
  List.find (fun l => negb (lim l)) (apiClients (orchestrator s)) = Some l →
  _cache ca !! ip = Some name →
  name ≠ "" →
  ∃ response s',
    countries.getCountry env ip s = (Ok response, s')
    ∧ res_status response = VNum 200
    ∧ path (res_body response) ["meta"; "cache"] = VBool true
    ∧ path (res_body response) ["data"; "name"] = VStr name
    ∧ path (res_body response) ["meta"; "apiUrl"] = VUndefined
    ∧ requests (world s') = requests (world s)
    ∧ activeApiClient (orchestrator s') = Some l.
Proof.
  destruct s as [h [act ls] w]. intros [_ Hin] Hact Ha Hst Hla Hfind Hc Hne.
  simpl in Hact, Hin, Ha, Hfind. subst act.
  destruct (apiClient_stable_run env h ls w a ca lim Ha Hin Hst)
    as (w' & Hq & _ & _ & Hrun).
  rewrite Hla, Hfind in Hrun.
  apply find_some in Hfind as [Hmem _]. apply list_elem_of_In in Hmem.
  destruct (Hin l Hmem) as [cl Hl]. rewrite Hl in Hrun. simpl in Hrun.
  rewrite (controller_eq env ip _ _ l
             (set_cache (_cache ca ∪ _cache cl) cl)
             (set_cache (_cache ca ∪ _cache cl) cl)
             (cached_envelope (set_cache (_cache ca ∪ _cache cl) cl) name)
             w' Hrun).
  - eexists _, _. split; [reflexivity|]. by repeat split.
  - cbn [heap]. apply lookup_insert_eq.
  - cbn [world]. apply getCountry_hit; [|done].
    cbn [_cache set_cache]. by apply lookup_union_Some_l.
Qed.

Lemma failover_keeps_cached_answers_witness :
  ∃ response s',
    countries.getCountry (env_const 0 (FetchRejects "fetch failed"))
      "156.24.151.42" program_test = (Ok response, s')
    ∧ res_status response = VNum 200
    ∧ path (res_body response) ["data"; "name"] = VStr "United States"
    ∧ requests (world s') = [].
Proof.
  destruct (failover_keeps_cached_answers
              (env_const 0 (FetchRejects "fetch failed")) program_test
              0%nat 1%nat client_exhausted (fun l => Nat.eqb l 0)
              "156.24.151.42" "United States")
    as (response & s' & Hrun & Hst & _ & Hname & _ & Hreq & _).
  - exact program_test_well_formed.
  - reflexivity.
  - reflexivity.
  - intros l c k Hl Hc _.
    assert (l = 0%nat ∨ l = 1%nat) as [-> | ->].
    { destruct Hl as [[= ->]|Hl]; [by left|].
      apply list_elem_of_In in Hl. destruct Hl as [<-|[<-|[]]]; auto. }
    + injection Hc as <-. reflexivity.
    + injection Hc as <-. reflexivity.
  - reflexivity.
  - reflexivity.
  - reflexivity.
  - discriminate.
  - exists response, s'. split; [exact Hrun|]. split; [exact Hst|].
    split; [exact Hname|]. rewrite Hreq. reflexivity.
Defined.

(** X16. When every client is rate-limited, a request for an address that
    the active client has not cached is answered with status 429 and the
    rate-limit envelope of the active client; the active client stays
    active, no client changes, and no request is issued. *)
Theorem all_limited_answers_429 (env : Env) (s : Program) (a : nat)
    (ca : ApiClient) (ip : string) :
  well_formed s →
  activeApiClient (orchestrator s) = Some a →
  heap s !! a = Some ca →
  stable_limits env s (fun _ => true) →
  _cache ca !! ip = None →
  ∃ response s',
    countries.getCountry env ip s = (Ok response, s')
    ∧ res_status response = VNum 429
    ∧ res_body response
      = VObj [("error", VObj [("message", VStr "Rate limited")]);
              ("meta", VObj [("apiUrl", VStr (getCountryApiUrl ca ip));
                             ("rateLimit", VNum (_rateLimit ca));
                             ("rateLimitCount", VNum (_rateLimitCount ca));
                             ("status", VNum 429)])]
    ∧ heap s' = heap s
    ∧ orchestrator s' = orchestrator s
    ∧ requests (world s') = requests (world s).
Proof.
  destruct s as [h [act ls] w]. intros [_ Hin] Hact Ha Hst Hc.
  simpl in Hact, Hin, Ha. subst act.
  destruct (apiClient_stable_run env h ls w a ca _ Ha Hin Hst)
    as (w' & Hq & _ & Hr & Hrun).
  assert (Hnone : List.find (fun _ : nat => negb true) ls = None).
  { clear. induction ls; [done|]. simpl. done. }
  rewrite Hnone in Hrun.
  destruct (limited_window env ca (reads w')) as (E & He & Hopen & Hfull).
  { intros k Hk. apply (Hst a ca k); [by left|done|simpl; lia]. }
  pose proof (handleRateLimiting_open env ca w' E He Hopen) as Hg.
  destruct (Z.ltb_spec (_rateLimitCount ca) (_rateLimit ca)); [lia|].
  destruct (getCountry_rejected env ca w' ip _ _ _ Hc Hg)
    as (Hcall & Hreq & _).
  rewrite (controller_eq env ip _ _ a ca ca _ _ Hrun Ha Hcall).
  eexists _, _. split; [reflexivity|]. cbn [heap orchestrator world].
  split; [done|]. split; [done|]. split; [by rewrite insert_id|].
  split; [done|]. simpl. done.
Qed.

Lemma all_limited_answers_429_witness :
  ∃ response s',
    countries.getCountry (env_const 0 (FetchRejects "fetch failed"))
      "1.1.1.1"
      {| heap := <[0%nat := client_exhausted]> ∅;
         orchestrator := new_ApiClientOrchestrator [0%nat];
         world := world0 |} = (Ok response, s')
    ∧ res_status response = VNum 429.
Proof.
  destruct (all_limited_answers_429
              (env_const 0 (FetchRejects "fetch failed"))
              {| heap := <[0%nat := client_exhausted]> ∅;
                 orchestrator := new_ApiClientOrchestrator [0%nat];
                 world := world0 |} 0%nat client_exhausted "1.1.1.1")
    as (response & s' & Hrun & Hst & _).
  - split.
    + exists 0%nat. split; [reflexivity|]. by eexists.
    + intros l Hl. apply list_elem_of_In in Hl.
      destruct Hl as [<-|[]]. by eexists.
  - reflexivity.
  - reflexivity.
  - intros l c k Hl Hc _.
    assert (l = 0%nat) as ->.
    { destruct Hl as [[= ->]|Hl]; [done|].
      apply list_elem_of_In in Hl. by destruct Hl as [<-|[]]. }
    injection Hc as <-. reflexivity.
  - reflexivity.
  - exists response, s'. split; [exact Hrun|exact Hst].
Defined.

(** X17. An orchestrator constructed over a list of clients answers
    exactly when the list is not empty. With an empty list there is no
    active client: every access of [apiClient] throws an error without
    status and changes nothing, and the controller throws that error
    without issuing a request. With a non-empty list the access returns a
    client of the list and the controller returns a response. *)
Theorem apiClient_without_clients (env : Env) (h : gmap nat ApiClient)
    (ls : list nat) (w : World) (ip : string) :
  (∀ l, l ∈ ls → is_Some (h !! l)) →
  let s := {| heap := h; orchestrator := new_ApiClientOrchestrator ls;
              world := w |} in
  (ls = [] →
   ∃ e, apiClient env s = (Throw e, s)
        ∧ countries.getCountry env ip s = (Throw e, s)
        ∧ status e = None)
  ∧ (ls ≠ [] →
     (∃ l s', apiClient env s = (Ok (Some l), s') ∧ l ∈ ls)
     ∧ ∃ response s', countries.getCountry env ip s = (Ok response, s')).
Proof.
  intros Hin s. split.
  - intros ->. exists (TypeError_undefined "isRateLimited").
    by repeat split.
  - intros Hne. destruct ls as [|a ls']; [done|].
    assert (Hwf : well_formed s).
    { split; [|exact Hin]. exists a. split; [done|].
      apply Hin. by left. }
    split.
    + destruct (apiClient_access env s Hwf)
        as (l & s' & Hrun & _ & _ & Hl & _).
      exists l, s'. split; [exact Hrun|].
      destruct Hl as [[= ->]|Hl]; [by left|exact Hl].
    + destruct (controller_step env ip s Hwf)
        as (response & s' & _ & Hrun & _).
      by exists response, s'.
Qed.

Lemma apiClient_without_clients_witness :
  (∃ e, apiClient env_test
          {| heap := ∅; orchestrator := new_ApiClientOrchestrator [];
             world := world0 |}
        = (Throw e,
           {| heap := ∅; orchestrator := new_ApiClientOrchestrator [];
              world := world0 |}))
  ∧ ∃ l s', apiClient env_test
              {| heap := {[0%nat := client_test]};
                 orchestrator := new_ApiClientOrchestrator [0%nat];
                 world := world0 |}
            = (Ok (Some l), s').
Proof.
  split.
  - destruct (apiClient_without_clients env_test ∅ [] world0 "111.22.333.44")
      as [Hempty _].
    + intros l Hl. by apply elem_of_nil in Hl.
    + destruct (Hempty eq_refl) as (e & Hrun & _). by exists e.
  - destruct (apiClient_without_clients env_test {[0%nat := client_test]}
                [0%nat] world0 "111.22.333.44") as [_ Hsome].
    + intros l Hl. apply list_elem_of_singleton in Hl as ->.
      rewrite lookup_singleton_eq. by eexists.
    + destruct (Hsome ltac:(discriminate)) as [(l & s' & Hrun & _) _].
      by exists l, s'.
Defined.

(** ** The handlers of the application *)

(** X18. The error handler logs the error it is given and answers with
    the message of that error and status 408 when the request timed out,
    500 otherwise: the status the error itself may carry is not used. The
    envelope has no URL and no counters. The handler of unmatched routes
    answers "404 Not Found" with status 404. *)
Theorem app_handlers (error : JsError) (timedout : bool) (w : World) :
  app.on_error error timedout w
  = (Ok {| res_status := VNum (if timedout then 408 else 500);
           res_body :=
             VObj [("error", VObj [("message", VStr (message error))]);
                   ("meta", VObj [("apiUrl", VUndefined);
                                  ("rateLimit", VUndefined);
                                  ("rateLimitCount", VUndefined);
                                  ("status",
                                   VNum (if timedout then 408 else 500))])] |},
     log error w)
  ∧ app.not_found
    = {| res_status := VNum 404;
         res_body :=
           VObj [("error", VObj [("message", VStr "404 Not Found")]);
                 ("meta", VObj [("apiUrl", VUndefined);
                                ("rateLimit", VUndefined);
                                ("rateLimitCount", VUndefined);
                                ("status", VNum 404)])] |}.
Proof. split; [by destruct timedout|reflexivity]. Qed.

(** ** [transferCache], composed *)

(** X19. Transfers compose: transferring [m1] and then [m2] is transferring
    once the union in which [m2] overrides [m1]; transferring the same cache
    twice is transferring it once; transferring an empty cache, or the
    cache the client already has, changes nothing. *)
Theorem transferCache_compose (c : ApiClient) (w : World)
    (m1 m2 : gmap string string) :
  snd (transferCache m2 (snd (transferCache m1 (c, w))))
  = snd (transferCache (m2 ∪ m1) (c, w))
  ∧ snd (transferCache m1 (snd (transferCache m1 (c, w))))
    = snd (transferCache m1 (c, w))
  ∧ snd (transferCache ∅ (c, w)) = (c, w)
  ∧ snd (transferCache (_cache c) (c, w)) = (c, w).
Proof.
  rewrite !transferCache_eq. cbn [snd]. rewrite !transferCache_eq. cbn [snd].
  unfold set_cache. cbn [_cache provider _baseUrl _headers _rateLimit
    _rateLimitCount _rateLimitExpiry _rateLimitTimeframe _token].
  rewrite (assoc_L (∪)), (assoc_L (∪) m1 m1), (idemp_L (∪) m1).
  rewrite (left_id_L ∅ (∪)), (idemp_L (∪) (_cache c)).
  repeat split; by destruct c.
Qed.

(** ** The constructors *)

(** X20. The constructor accepts a configuration exactly when [baseUrl] is
    a string, [rateLimit] a number and [token] a string; otherwise it throws
    the error that names the first of the three, in this order, that has the
    wrong type. The constructor of the ipXapi client accepts and rejects the
    same configurations with the same errors, and what it builds differs
    from the base client only in its provider and in its headers, which
    carry the token as a bearer credential. *)
Theorem new_ApiClient_validates (cfg : Config) :
  ((∃ c, new_ApiClient cfg = Ok c)
   ↔ typeof (baseUrl cfg) = "string" ∧ typeof (rateLimit cfg) = "number"
     ∧ typeof (token cfg) = "string")
  ∧ (typeof (baseUrl cfg) ≠ "string" →
     new_ApiClient cfg = Throw (NativeError "'baseUrl' option is invalid"))
  ∧ (typeof (baseUrl cfg) = "string" → typeof (rateLimit cfg) ≠ "number" →
     new_ApiClient cfg = Throw (NativeError "'rateLimit' option is invalid"))
  ∧ (typeof (baseUrl cfg) = "string" → typeof (rateLimit cfg) = "number" →
     typeof (token cfg) ≠ "string" →
     new_ApiClient cfg = Throw (NativeError "'token' option is invalid"))
  ∧ (∀ e, new_ApiClient cfg = Throw e ↔ new_ApiClientIpxapi cfg = Throw e)
  ∧ (∀ c, new_ApiClient cfg = Ok c →
          ∃ c', new_ApiClientIpxapi cfg = Ok c'
                ∧ provider c = Ipstack ∧ provider c' = Ipxapi
                ∧ _headers c = None
                ∧ _headers c'
                  = Some [("accept", "application/json");
                          ("authorization", "Bearer " ++ _token c)]
                ∧ set_headers None c' = mkApiClient Ipxapi (_baseUrl c)
                    (_cache c) None (_rateLimit c) (_rateLimitCount c)
                    (_rateLimitExpiry c) (_rateLimitTimeframe c) (_token c)).
Proof.
  unfold new_ApiClientIpxapi, new_ApiClient.
  destruct (baseUrl cfg), (rateLimit cfg), (token cfg); simpl;
    (split; [split; [intros [c Hc]; by try discriminate
                    |intros (? & ? & ?); try discriminate; by eexists]|]);
    (split; [intros ?; by try congruence|]);
    (split; [intros ? ?; by try congruence|]);
    (split; [intros ? ? ?; by try congruence|]);
    (split; [intros e; split; intros [=]; by subst|]);
    intros c [=]; subst; by eexists.
Qed.

Lemma new_ApiClient_validates_witness :
  new_ApiClient {| baseUrl := VStr "http://api.ipstack.com";
                   rateLimit := VStr "5"; rateLimitTimeframe := None;
                   token := VUndefined |}
  = Throw (NativeError "'rateLimit' option is invalid").
Proof.
  destruct (new_ApiClient_validates
              {| baseUrl := VStr "http://api.ipstack.com";
                 rateLimit := VStr "5"; rateLimitTimeframe := None;
                 token := VUndefined |}) as (_ & _ & Hlimit & _).
  apply Hlimit; [reflexivity|discriminate].
Defined.

(** X21. A new client is not rate-limited, whatever its limit, even 0: its
    window has not started, so [isRateLimited] is false without reading the
    clock, and an orchestrator will hand it out. *)
Theorem new_client_not_limited (env : Env) (cfg : Config) (c : ApiClient)
    (w : World) :
  new_ApiClient cfg = Ok c ∨ new_ApiClientIpxapi cfg = Ok c →
  isRateLimited env (c, w) = (Ok false, (c, w)).
Proof.
  intros Hnew. destruct (new_client_fresh cfg c Hnew) as (_ & _ & _ & He & _).
  rewrite isRateLimited_eq.
  unfold limited_at, expired_at, after_expiry_check, expiry_truthy.
  by rewrite He.
Qed.

Lemma new_client_not_limited_witness :
  ∃ c, new_ApiClient config_negative = Ok c
       ∧ _rateLimit c = 0
       ∧ isRateLimited env_test (c, world0) = (Ok false, (c, world0)).
Proof.
  eexists. split; [reflexivity|]. split; [reflexivity|].
  apply (new_client_not_limited env_test config_negative).
  left. reflexivity.
Defined.

(** ** From the first provider to the second *)

Section EndToEnd.

Variable env : Env.

Lemma limited_at_open (c : ApiClient) (E : Z) (n k : nat) :
  _rateLimitExpiry c = Some E →
  window_open env E n →
  (n ≤ k)%nat →
  limited_at c (clock env k) = negb (_rateLimitCount c <? _rateLimit c).
Proof.
  intros He [HE Hw] Hk. specialize (Hw k Hk).
  unfold limited_at, expired_at, expiry_truthy. rewrite He. simpl.
  rewrite Z.gtb_ltb, Z.geb_leb.
  destruct (Z.eqb_spec E 0); [done|]. simpl.
  destruct (Z.ltb_spec E (clock env k)); [lia|].
  destruct (Z.ltb_spec (_rateLimitCount c) (_rateLimit c)),
    (Z.leb_spec (_rateLimit c) (_rateLimitCount c)); simpl; lia || done.
Qed.

(** A request while the active client has budget left in its open window:
    the active client serves it. *)
Lemma controller_active_passes (h : gmap nat ApiClient) (ls : list nat)
    (w : World) (a : nat) (ca : ApiClient) (E : Z) (ip : string) :
  h !! a = Some ca →
  _rateLimitExpiry ca = Some E →
  window_open env E (reads w) →
  _rateLimitCount ca < _rateLimit ca →
  _cache ca !! ip = None →
  ∃ v m w',
    countries.getCountry env ip
      (mkProgram h {| activeApiClient := Some a; apiClients := ls |} w)
    = (Ok (respond v),
       mkProgram
         (<[a := set_cache m (set_rateLimitCount (_rateLimitCount ca + 1) ca)]>
            h)
         {| activeApiClient := Some a; apiClients := ls |} w')
    ∧ path v ["meta"; "apiUrl"] = VStr (getCountryApiUrl ca ip)
    ∧ path v ["meta"; "rateLimitCount"] = VNum (_rateLimitCount ca + 1)
    ∧ (∀ ip', ip' ≠ ip → m !! ip' = _cache ca !! ip')
    ∧ (reads w ≤ reads w')%nat
    ∧ requests w' = (requests w ++ [request_for ca ip])%list.
Proof.
  intros Ha He Hopen Hlt Hc.
  pose proof (apiClient_eq env h ls w a ca Ha) as Hget.
  rewrite (limited_at_open ca E (reads w) (reads w) He Hopen ltac:(lia))
    in Hget.
  destruct (Z.ltb_spec (_rateLimitCount ca) (_rateLimit ca)); [|lia].
  simpl in Hget.
  destruct (after_expiry_check_frame ca w) as (Hq & _ & Hr).
  pose proof (handleRateLimiting_open env ca (after_expiry_check ca w) E He
                (window_open_later env E _ _ Hr Hopen)) as Hg.
  destruct (Z.ltb_spec (_rateLimitCount ca) (_rateLimit ca)); [|lia].
  destruct (getCountry_passed env ca _ ip _ _ Hc Hg)
    as (v & c' & w' & Hrun & Hurl & _ & Hcount & (m & -> & Hm) & Hreads
        & Hreq).
  exists v, m, w'.
  rewrite (controller_eq env ip _ _ a ca _ v w' Hget Ha Hrun).
  split; [done|]. split; [done|]. split; [done|]. split; [done|].
  split; [rewrite Hreads; simpl; lia|]. by rewrite Hreq, Hq.
Qed.

(** Requests one after the other while the active client has budget for
    all of them. *)
Lemma handle_each_phase (a : nat) (ls : list nat) (E : Z)
    (ips : list string) :
  ∀ (h : gmap nat ApiClient) (w : World) (ca : ApiClient),
    h !! a = Some ca →
    _rateLimitExpiry ca = Some E →
    window_open env E (reads w) →
    _rateLimitCount ca + Z.of_nat (length ips) ≤ _rateLimit ca →
    NoDup ips →
    (∀ ip, ip ∈ ips → _cache ca !! ip = None) →
    ∃ rs h' ca' w',
      handle_each env ips
        (mkProgram h {| activeApiClient := Some a; apiClients := ls |} w)
      = (Ok rs,
         mkProgram h' {| activeApiClient := Some a; apiClients := ls |} w')
      ∧ h' !! a = Some ca'
      ∧ (∀ l, l ≠ a → h' !! l = h !! l)
      ∧ length rs = length ips
      ∧ (∀ i ip, ips !! i = Some ip →
           ∃ r, rs !! i = Some r
                ∧ path (res_body r) ["meta"; "apiUrl"]
                  = VStr (getCountryApiUrl ca ip)
                ∧ path (res_body r) ["meta"; "rateLimitCount"]
                  = VNum (_rateLimitCount ca + Z.of_nat (S i)))
      ∧ same_settings ca ca'
      ∧ _rateLimitExpiry ca' = Some E
      ∧ _rateLimitCount ca' = _rateLimitCount ca + Z.of_nat (length ips)
      ∧ (∀ ip', ip' ∉ ips → _cache ca' !! ip' = _cache ca !! ip')
      ∧ (reads w ≤ reads w')%nat
      ∧ requests w' = (requests w ++ (request_for ca <$> ips))%list.
Proof.
  induction ips as [|ip ips IH]; intros h w ca Ha He Hopen Hbudget Hnd Hnew.
  - exists [], h, ca, w. simpl. split; [done|]. split; [done|].
    split; [done|]. split; [done|]. split; [by intros ? ? [=]|].
    split; [apply same_settings_refl|]. split; [done|].
    split; [lia|]. split; [done|]. split; [lia|].
    by rewrite (right_id_L [] (++)).
  - apply NoDup_cons in Hnd as [Hnotin Hnd]. simpl in Hbudget.
    assert (Hc : _cache ca !! ip = None) by (apply Hnew; set_solver).
    destruct (controller_active_passes h ls w a ca E ip Ha He Hopen
                ltac:(lia) Hc)
      as (v & m & w1 & Hrun & Hurl & Hcnt & Hm & Hr1 & Hreq1).
    set (c1 := set_cache m (set_rateLimitCount (_rateLimitCount ca + 1) ca))
      in *.
    assert (Hs1 : same_settings ca c1) by (by repeat split).
    destruct (IH (<[a := c1]> h) w1 c1) as
      (rs & h' & ca' & w' & Hrest & Ha' & Hother & Hlen & Hrs & Hset & He'
       & Hcount & Hcache & Hr' & Hreq').
    { apply lookup_insert_eq. }
    { done. }
    { by apply (window_open_later env E (reads w)). }
    { subst c1. simpl. lia. }
    { done. }
    { intros ip' Hin. subst c1. simpl. rewrite Hm; [apply Hnew; set_solver|].
      intros ->. done. }
    cbn [handle_each]. unfold bind at 1. rewrite Hrun.
    unfold bind at 1. rewrite Hrest.
    exists (respond v :: rs), h', ca', w'. split; [done|]. split; [done|].
    split; [intros l Hl; rewrite Hother by done; by rewrite lookup_insert_ne|].
    split; [simpl; by rewrite Hlen|]. split.
    { intros [|i] ip' Hip; simpl in Hip.
      - injection Hip as <-. exists (respond v). split; [done|].
        split; [done|]. unfold respond. cbn [res_body]. by rewrite Hcnt.
      - destruct (Hrs i ip' Hip) as (r & Hr & Hu & Hk).
        exists r. split; [done|].
        rewrite (same_settings_url _ _ ip' Hs1) in Hu. split; [done|].
        rewrite Hk. subst c1. simpl. f_equal. lia. }
    split; [by apply (same_settings_trans _ _ _ Hs1)|]. split; [done|].
    split; [rewrite Hcount; subst c1; simpl; lia|].
    split.
    { intros ip' Hnot. rewrite Hcache by set_solver. subst c1. simpl.
      apply Hm. set_solver. }
    split; [lia|].
    rewrite Hreq', Hreq1. simpl. by rewrite <- (assoc_L (++)).
Qed.

Lemma handle_each_cons (ip : string) (ips : list string) (s : Program) :
  handle_each env (ip :: ips) s
  = match countries.getCountry env ip s with
    | (Ok r, s1) =>
        match handle_each env ips s1 with
        | (Ok rs, s2) => (Ok (r :: rs), s2)
        | (Throw e, s2) => (Throw e, s2)
        end
    | (Throw e, s1) => (Throw e, s1)
    end.
Proof.
  cbn [handle_each]. unfold bind at 1.
  destruct (countries.getCountry env ip s) as [[r|e] s1]; [|done].
  unfold bind at 1. by destruct (handle_each env ips s1) as [[rs|e] s2].
Qed.

Lemma handle_each_app (ips1 ips2 : list string) :
  ∀ s,
    handle_each env (ips1 ++ ips2) s
    = match handle_each env ips1 s with
      | (Ok rs1, s1) =>
          match handle_each env ips2 s1 with
          | (Ok rs2, s2) => (Ok (rs1 ++ rs2)%list, s2)
          | (Throw e, s2) => (Throw e, s2)
          end
      | (Throw e, s1) => (Throw e, s1)
      end.
Proof.
  induction ips1 as [|ip ips1 IH]; intros s.
  - simpl. unfold ret. by destruct (handle_each env ips2 s) as [[rs|e] s2].
  - rewrite <- app_comm_cons, !handle_each_cons.
    destruct (countries.getCountry env ip s) as [[r|e] s1]; [|done].
    rewrite IH. destruct (handle_each env ips1 s1) as [[rs1|e] s2]; [|done].
    by destruct (handle_each env ips2 s2) as [[rs2|e] s3].
Qed.

(** The timeframe [tf] covers the whole run: no two readings of the clock
    are further apart, and readings are positive, so that a window opened at
    any reading stays open. *)
Lemma window_open_covering (tf : Z) (j n : nat) :
  (∀ k, 0 < clock env k) →
  (∀ j k, clock env k ≤ clock env j + tf) →
  window_open env (clock env j + tf) n.
Proof.
  intros Hpos Hcover. split.
  - pose proof (Hpos j). pose proof (Hcover j j). lia.
  - intros k _. apply Hcover.
Qed.

Lemma limited_at_unset (c : ApiClient) (t : Z) :
  _rateLimitExpiry c = None → limited_at c t = false.
Proof.
  intros He. unfold limited_at, expired_at, expiry_truthy. by rewrite He.
Qed.

(** The first request served by a client that is active and new. *)
Lemma controller_first_call (h : gmap nat ApiClient) (ls : list nat)
    (w : World) (a : nat) (ca : ApiClient) (ip : string) :
  h !! a = Some ca →
  _rateLimitExpiry ca = None →
  0 < _rateLimit ca →
  window_open env (clock env (reads w) + _rateLimitTimeframe ca)
    (S (reads w)) →
  _cache ca !! ip = None →
  ∃ v m w',
    countries.getCountry env ip
      (mkProgram h {| activeApiClient := Some a; apiClients := ls |} w)
    = (Ok (respond v),
       mkProgram
         (<[a := set_cache m
                   (set_rateLimitCount 1
                      (set_rateLimitExpiry
                         (Some (clock env (reads w)
                                + _rateLimitTimeframe ca)) ca))]> h)
         {| activeApiClient := Some a; apiClients := ls |} w')
    ∧ path v ["meta"; "apiUrl"] = VStr (getCountryApiUrl ca ip)
    ∧ path v ["meta"; "rateLimitCount"] = VNum 1
    ∧ (∀ ip', ip' ≠ ip → m !! ip' = _cache ca !! ip')
    ∧ (reads w ≤ reads w')%nat
    ∧ requests w' = (requests w ++ [request_for ca ip])%list.
Proof.
  intros Ha He Hl Hopen Hc.
  pose proof (apiClient_eq env h ls w a ca Ha) as Hget.
  rewrite (limited_at_unset ca _ He) in Hget. simpl in Hget.
  assert (Hw : after_expiry_check ca w = w).
  { unfold after_expiry_check, expiry_truthy. by rewrite He. }
  rewrite Hw in Hget.
  pose proof (handleRateLimiting_first env ca w He Hl Hopen) as Hg.
  destruct (getCountry_passed env ca w ip _ _ Hc Hg)
    as (v & c' & w' & Hrun & Hurl & _ & Hcount & (m & -> & Hm) & Hreads
        & Hreq).
  exists v, m, w'.
  rewrite (controller_eq env ip _ _ a ca _ v w' Hget Ha Hrun).
  split; [done|]. split; [done|]. split; [done|]. split; [done|].
  split; [rewrite Hreads; simpl; lia|done].
Qed.

(** The request at which the first client, out of budget, hands over to a
    second client that is new. *)
Lemma controller_hands_over (h : gmap nat ApiClient) (w : World)
    (a l : nat) (ca cl : ApiClient) (E : Z) (ip : string) :
  a ≠ l →
  h !! a = Some ca →
  h !! l = Some cl →
  _rateLimitExpiry ca = Some E →
  window_open env E (reads w) →
  _rateLimit ca ≤ _rateLimitCount ca →
  _rateLimitExpiry cl = None →
  0 < _rateLimit cl →
  (∀ k, 0 < clock env k) →
  (∀ j k, clock env k ≤ clock env j + _rateLimitTimeframe cl) →
  _cache ca !! ip = None →
  _cache cl !! ip = None →
  ∃ v m w' El,
    countries.getCountry env ip
      (mkProgram h {| activeApiClient := Some a; apiClients := [a; l] |} w)
    = (Ok (respond v),
       mkProgram
         (<[l := set_cache m
                   (set_rateLimitCount 1
                      (set_rateLimitExpiry (Some El) cl))]> h)
         {| activeApiClient := Some l; apiClients := [a; l] |} w')
    ∧ window_open env El (reads w')
    ∧ path v ["meta"; "apiUrl"] = VStr (getCountryApiUrl cl ip)
    ∧ path v ["meta"; "rateLimitCount"] = VNum 1
    ∧ (∀ ip', ip' ≠ ip → m !! ip' = (_cache ca ∪ _cache cl) !! ip')
    ∧ (reads w ≤ reads w')%nat
    ∧ requests w' = (requests w ++ [request_for cl ip])%list.
Proof.
  intros Hne Ha Hl He Hopen Hfull Hel Hlim Hpos Hcover Hca Hcl.
  destruct (apiClient_stable_run env h [a; l] w a ca
              (fun x => bool_decide (x = a)) Ha)
    as (w1 & Hq1 & _ & Hr1 & Hget).
  { intros x Hx. apply list_elem_of_In in Hx.
    destruct Hx as [<-|[<-|[]]]; by eexists. }
  { intros x c k Hx Hc Hk.
    cbn [heap world orchestrator activeApiClient apiClients] in Hx, Hc, Hk.
    assert (x = a ∨ x = l) as [-> | ->].
    { destruct Hx as [[= ->]|Hx]; [by left|].
      apply list_elem_of_In in Hx. destruct Hx as [<-|[<-|[]]]; auto. }
    - rewrite Ha in Hc. injection Hc as <-.
      rewrite (limited_at_open ca E (reads w) k He Hopen Hk).
      rewrite bool_decide_eq_true_2 by done.
      destruct (Z.ltb_spec (_rateLimitCount ca) (_rateLimit ca)); [lia|done].
    - rewrite Hl in Hc. injection Hc as <-.
      rewrite (limited_at_unset cl _ Hel).
      by rewrite bool_decide_eq_false_2. }
  rewrite bool_decide_eq_true_2 in Hget by done.
  cbn [List.find] in Hget.
  rewrite bool_decide_eq_true_2 in Hget by done.
  rewrite bool_decide_eq_false_2 in Hget by done.
  cbn [negb] in Hget. rewrite Hl in Hget. cbn [from_option default] in Hget.
  set (cl1 := set_cache (_cache ca ∪ _cache cl) cl) in *.
  assert (Hc1 : _cache cl1 !! ip = None).
  { subst cl1. simpl. by rewrite lookup_union_r. }
  pose proof (handleRateLimiting_first env cl1 w1 Hel Hlim
                (window_open_covering _ _ _ Hpos Hcover)) as Hg.
  destruct (getCountry_passed env cl1 w1 ip _ _ Hc1 Hg)
    as (v & c' & w' & Hrun & Hurl & _ & Hcount & (m & -> & Hm) & Hreads
        & Hreq).
  exists v, m, w', (clock env (reads w1) + _rateLimitTimeframe cl).
  rewrite (controller_eq env ip _ _ l cl1 _ v w' Hget
             ltac:(cbn [heap]; apply lookup_insert_eq) Hrun).
  cbn [heap orchestrator]. rewrite insert_insert_eq.
  split; [done|].
  split; [by apply window_open_covering|]. split; [done|]. split; [done|].
  split; [done|]. split; [rewrite Hreads; simpl; lia|].
  by rewrite Hreq, Hq1.
Qed.

(** A request for an address the active client has not cached, while every
    client is rate-limited. *)
Lemma controller_all_limited (s : Program) (a : nat) (ca : ApiClient)
    (ip : string) :
  well_formed s →
  activeApiClient (orchestrator s) = Some a →
  heap s !! a = Some ca →
  stable_limits env s (fun _ => true) →
  _cache ca !! ip = None →
  ∃ w',
    countries.getCountry env ip s
    = (Ok (respond (error_envelope (getCountryApiUrl ca ip) ca
                      "Rate limited" 429)),
       mkProgram (heap s) (orchestrator s) w')
    ∧ requests w' = requests (world s).
Proof.
  destruct s as [h [act ls] w]. intros [_ Hin] Hact Ha Hst Hc.
  simpl in Hact, Hin, Ha. subst act.
  destruct (apiClient_stable_run env h ls w a ca _ Ha Hin Hst)
    as (w' & Hq & _ & Hr & Hrun).
  assert (Hnone : List.find (fun _ : nat => negb true) ls = None).
  { clear. induction ls; [done|]. simpl. done. }
  rewrite Hnone in Hrun.
  destruct (limited_window env ca (reads w')) as (E & He & Hopen & Hfull).
  { intros k Hk. apply (Hst a ca k); [by left|done|simpl; lia]. }
  pose proof (handleRateLimiting_open env ca w' E He Hopen) as Hg.
  destruct (Z.ltb_spec (_rateLimitCount ca) (_rateLimit ca)); [lia|].
  destruct (getCountry_rejected env ca w' ip _ _ _ Hc Hg)
    as (Hcall & Hreq & _).
  rewrite (controller_eq env ip _ _ a ca ca _ _ Hrun Ha Hcall).
  eexists. cbn [heap orchestrator world].
  rewrite insert_id by done. split; [reflexivity|]. simpl. done.
Qed.

End EndToEnd.

(** X22. The two providers in turn, through the controller.  The module is
    loaded with limits [N0] and [N1], both positive; readings of the clock
    are positive and no two of them are further apart than either client's
    timeframe.  Then requests for [N0 + N1 + 1] pairwise distinct addresses,
    one after the other, all get a response: the first [N0] carry the
    ipstack URL of their address and the counts 1 to [N0], the next [N1] the
    ipXapi URL and the counts 1 to [N1], the last one is ipXapi's "Rate
    limited" envelope with status 429; ipXapi is the active client at the
    end, and the requests sent upstream are those of the first [N0 + N1]
    addresses, in order, each to its provider. *)
Theorem providers_in_turn (env : Env) (cfg0 cfg1 : Config) (w : World)
    (s : Program) (N0 N1 : nat) (ips0 ips1 : list string) (last : string) :
  countries.init cfg0 cfg1 w = Ok s →
  rateLimit cfg0 = VNum (Z.of_nat N0) →
  rateLimit cfg1 = VNum (Z.of_nat N1) →
  length ips0 = N0 → length ips1 = N1 →
  (0 < N0)%nat → (0 < N1)%nat →
  NoDup (ips0 ++ ips1 ++ [last])%list →
  (∀ k, 0 < clock env k) →
  (∀ l c j k, heap s !! l = Some c →
              clock env k ≤ clock env j + _rateLimitTimeframe c) →
  ∃ c0 c1 rs0 rs1 s',
    heap s !! 0%nat = Some c0 ∧ heap s !! 1%nat = Some c1
    ∧ handle_each env (ips0 ++ ips1 ++ [last])%list s
      = (Ok (rs0 ++ rs1
             ++ [respond (error_envelope (getCountryApiUrl c1 last)
                            (set_rateLimitCount (Z.of_nat N1) c1)
                            "Rate limited" 429)])%list, s')
    ∧ (∀ i ip, ips0 !! i = Some ip →
         ∃ r, rs0 !! i = Some r
              ∧ path (res_body r) ["meta"; "apiUrl"]
                = VStr (getCountryApiUrl c0 ip)
              ∧ path (res_body r) ["meta"; "rateLimitCount"]
                = VNum (Z.of_nat (S i)))
    ∧ (∀ i ip, ips1 !! i = Some ip →
         ∃ r, rs1 !! i = Some r
              ∧ path (res_body r) ["meta"; "apiUrl"]
                = VStr (getCountryApiUrl c1 ip)
              ∧ path (res_body r) ["meta"; "rateLimitCount"]
                = VNum (Z.of_nat (S i)))
    ∧ length rs0 = N0 ∧ length rs1 = N1
    ∧ activeApiClient (orchestrator s') = Some 1%nat
    ∧ requests (world s')
      = (requests w ++ (request_for c0 <$> ips0)
         ++ (request_for c1 <$> ips1))%list.
Proof.
  intros Hinit HN0 HN1 Hl0 Hl1 Hp0 Hp1 Hnd Hpos Hcover.
  unfold countries.init in Hinit.
  destruct (new_ApiClient cfg0) as [c0|] eqn:H0; [|done].
  destruct (new_ApiClientIpxapi cfg1) as [c1|] eqn:H1; [|done].
  injection Hinit as <-.
  destruct (new_client_fresh cfg0 c0 (or_introl H0))
    as (Hr0 & Hc0 & Hk0 & He0 & _).
  destruct (new_client_fresh cfg1 c1 (or_intror H1))
    as (Hr1 & Hc1 & Hk1 & He1 & _).
  rewrite HN0 in Hr0. injection Hr0 as Hr0.
  rewrite HN1 in Hr1. injection Hr1 as Hr1.
  cbn [heap] in Hcover. unfold new_ApiClientOrchestrator. cbn [head].
  set (h0 := <[0%nat := c0]> (<[1%nat := c1]> ∅)) in *.
  assert (Hh0 : h0 !! 0%nat = Some c0) by done.
  assert (Hh1 : h0 !! 1%nat = Some c1) by done.
  assert (Hcov0 := fun j k => Hcover 0%nat c0 j k Hh0).
  assert (Hcov1 := fun j k => Hcover 1%nat c1 j k Hh1).
  destruct ips0 as [|ip0 ipsA]; [simpl in Hl0; lia|].
  destruct ips1 as [|ipT ipsB]; [simpl in Hl1; lia|].
  simpl in Hl0, Hl1.
  (* the addresses are pairwise distinct *)
  rewrite <- app_comm_cons in Hnd. apply NoDup_cons in Hnd as [Hip0 Hnd].
  apply NoDup_app in Hnd as (HndA & HA & Hnd).
  rewrite <- app_comm_cons in Hnd. apply NoDup_cons in Hnd as [HipT Hnd].
  apply NoDup_app in Hnd as (HndB & HB & _).
  (* the first request, to the new ipstack client *)
  destruct (controller_first_call env h0 [0%nat; 1%nat] w 0%nat c0 ip0 Hh0
              He0 ltac:(lia) (window_open_covering env _ _ _ Hpos Hcov0)
              ltac:(by rewrite Hc0))
    as (v0 & m0 & w1 & Hrun1 & Hurl1 & Hcnt1 & Hm0 & Hrd1 & Hq1).
  set (E0 := clock env (reads w) + _rateLimitTimeframe c0) in *.
  set (c0a := set_cache m0
                (set_rateLimitCount 1 (set_rateLimitExpiry (Some E0) c0)))
    in *.
  (* the rest of ipstack's budget *)
  destruct (handle_each_phase env 0%nat [0%nat; 1%nat] E0 ipsA
              (<[0%nat := c0a]> h0) w1 c0a)
    as (rsA & h2 & c0b & w2 & HrunA & Hh2a & Hh2o & HlenA & HrsA & HsetA
        & HeA & HcntA & HcacheA & Hrd2 & Hq2).
  { apply lookup_insert_eq. }
  { done. }
  { by apply window_open_covering. }
  { simpl. lia. }
  { done. }
  { intros ip Hip. simpl. rewrite Hm0, Hc0; [done|].
    intros ->. apply Hip0. set_solver. }
  assert (Hset0 : same_settings c0 c0b).
  { apply (same_settings_trans c0 c0a c0b); [by repeat split|done]. }
  (* the request at which ipXapi takes over *)
  destruct (controller_hands_over env h2 w2 0%nat 1%nat c0b c1 E0 ipT)
    as (vT & mT & w3 & E1 & HrunT & Hopen1 & HurlT & HcntT & HmT & Hrd3
        & Hq3); try done.
  { rewrite Hh2o by done. by rewrite lookup_insert_ne. }
  { by apply window_open_covering. }
  { destruct Hset0 as (_ & _ & _ & -> & _). rewrite HcntA. simpl. lia. }
  { lia. }
  { rewrite HcacheA. 2:{ intros Hin. apply (HA ipT Hin). set_solver. }
    simpl. rewrite Hm0, Hc0; [done|]. intros ->. apply Hip0. set_solver. }
  { by rewrite Hc1. }
  set (c1a := set_cache mT
                (set_rateLimitCount 1 (set_rateLimitExpiry (Some E1) c1)))
    in *.
  assert (Hfresh0 : ∀ ip, ip ≠ ip0 → ip ∉ ipsA → _cache c0b !! ip = None).
  { intros ip Hne Hin. rewrite HcacheA by done. simpl.
    by rewrite Hm0, Hc0. }
  (* the rest of ipXapi's budget *)
  destruct (handle_each_phase env 1%nat [0%nat; 1%nat] E1 ipsB
              (<[1%nat := c1a]> h2) w3 c1a)
    as (rsB & h4 & c1b & w4 & HrunB & Hh4a & Hh4o & HlenB & HrsB & HsetB
        & HeB & HcntB & HcacheB & Hrd4 & Hq4).
  { apply lookup_insert_eq. }
  { done. }
  { done. }
  { simpl. lia. }
  { done. }
  { intros ip Hip. simpl. rewrite HmT.
    2:{ intros ->. by apply HipT, elem_of_app; left. }
    rewrite lookup_union_None, Hc1. split; [|done].
    apply Hfresh0.
    - intros ->. apply Hip0. set_solver.
    - intros Hin. apply (HA ip Hin). set_solver. }
  assert (Hset1 : same_settings c1 c1b).
  { apply (same_settings_trans c1 c1a c1b); [by repeat split|done]. }
  (* the last request: both clients are rate-limited *)
  destruct (controller_all_limited env
              (mkProgram h4
                 {| activeApiClient := Some 1%nat;
                    apiClients := [0%nat; 1%nat] |} w4) 1%nat c1b last)
    as (w5 & HrunL & Hq5).
  { split; [by exists 1%nat|]. intros l Hl.
    cbn [heap orchestrator apiClients] in *.
    apply list_elem_of_In in Hl. destruct Hl as [<-|[<-|[]]].
    - rewrite Hh4o, lookup_insert_ne, Hh2a by done. by eexists.
    - by eexists. }
  { done. }
  { done. }
  { intros l c k Hl Hc Hk.
    cbn [heap world orchestrator activeApiClient apiClients] in Hl, Hc, Hk.
    assert (l = 0%nat ∨ l = 1%nat) as [-> | ->].
    { destruct Hl as [[= ->]|Hl]; [by right|].
      apply list_elem_of_In in Hl. destruct Hl as [<-|[<-|[]]]; auto. }
    - rewrite Hh4o, lookup_insert_ne, Hh2a in Hc by done.
      injection Hc as <-.
      rewrite (limited_at_open env c0b E0 0 k HeA
                 (window_open_covering env _ _ _ Hpos Hcov0) ltac:(lia)).
      destruct Hset0 as (_ & _ & _ & Hlim & _).
      destruct (Z.ltb_spec (_rateLimitCount c0b) (_rateLimit c0b));
        [|done].
      rewrite HcntA, Hlim in *. simpl in *. lia.
    - rewrite Hh4a in Hc. injection Hc as <-.
      destruct Hopen1 as [HE1 Hop1].
      rewrite (limited_at_open env c1b E1 (reads w3) k HeB
                 (conj HE1 Hop1) ltac:(lia)).
      destruct Hset1 as (_ & _ & _ & Hlim & _).
      destruct (Z.ltb_spec (_rateLimitCount c1b) (_rateLimit c1b));
        [|done].
      rewrite HcntB, Hlim in *. simpl in *. lia. }
  { rewrite HcacheB.
    2:{ intros Hin. apply (HB last Hin). set_solver. }
    simpl. rewrite HmT.
    2:{ intros ->. apply HipT. set_solver. }
    rewrite lookup_union_None, Hc1. split; [|done].
    apply Hfresh0.
    - intros ->. apply Hip0. set_solver.
    - intros Hin. apply (HA last Hin). set_solver. }
  cbn [heap orchestrator world] in HrunL, Hq5.
  (* the five steps in sequence *)
  exists c0, c1, (respond v0 :: rsA), (respond vT :: rsB). eexists.
  split; [done|]. split; [done|].
  split.
  { rewrite <- !app_comm_cons, handle_each_cons, Hrun1.
    rewrite handle_each_app, HrunA, handle_each_cons, HrunT.
    rewrite handle_each_app, HrunB, handle_each_cons, HrunL.
    cbn [handle_each]. unfold ret.
    rewrite (same_settings_url c1 c1b last Hset1).
    replace (error_envelope (getCountryApiUrl c1 last) c1b "Rate limited" 429)
      with (error_envelope (getCountryApiUrl c1 last)
              (set_rateLimitCount (Z.of_nat N1) c1) "Rate limited" 429).
    - reflexivity.
    - unfold error_envelope, meta_counters.
      destruct Hset1 as (_ & _ & _ & -> & _). rewrite HcntB.
      cbn [_rateLimit _rateLimitCount set_rateLimitCount c1a set_cache
           set_rateLimitExpiry].
      by replace (Z.of_nat N1) with (1 + Z.of_nat (length ipsB)) by lia. }
  split.
  { intros [|i] ip Hip; simpl in Hip.
    - injection Hip as <-. exists (respond v0). by repeat split.
    - destruct (HrsA i ip Hip) as (r & Hr & Hu & Hc).
      exists r. split; [done|]. split; [done|].
      rewrite Hc. simpl. f_equal. lia. }
  split.
  { intros [|i] ip Hip; simpl in Hip.
    - injection Hip as <-. exists (respond vT). by repeat split.
    - destruct (HrsB i ip Hip) as (r & Hr & Hu & Hc).
      exists r. split; [done|]. split; [done|].
      rewrite Hc. simpl. f_equal. lia. }
  split; [simpl; lia|]. split; [simpl; lia|]. split; [done|].
  cbn [world]. rewrite Hq5, Hq4, Hq3, Hq2, Hq1.
  rewrite !fmap_cons, <- !app_assoc. simpl.
  subst c0a c1a. unfold request_for, getCountryApiUrl. simpl. reflexivity.
Qed.

Lemma providers_in_turn_witness :
  ∃ s rs0 rs1 rl s',
    countries.init
      {| baseUrl := VStr "http://api.ipstack.com"; rateLimit := VNum 2;
         rateLimitTimeframe := Some 60000; token := VStr "abc123" |}
      {| baseUrl := VStr "https://ipxapi.com/api"; rateLimit := VNum 1;
         rateLimitTimeframe := Some 60000; token := VStr "def456" |}
      world0
    = Ok s
    ∧ handle_each
        (env_const 0 (FetchResolves (response_ok (Some body_somewhere))))
        ["1.1.1.1"; "2.2.2.2"; "3.3.3.3"; "4.4.4.4"] s
      = (Ok (rs0 ++ rs1 ++ [rl])%list, s')
    ∧ length rs0 = 2%nat ∧ length rs1 = 1%nat
    ∧ res_status rl = VNum 429.
Proof.
  destruct (providers_in_turn
              (env_const 0 (FetchResolves (response_ok (Some body_somewhere))))
              {| baseUrl := VStr "http://api.ipstack.com"; rateLimit := VNum 2;
                 rateLimitTimeframe := Some 60000; token := VStr "abc123" |}
              {| baseUrl := VStr "https://ipxapi.com/api"; rateLimit := VNum 1;
                 rateLimitTimeframe := Some 60000; token := VStr "def456" |}
              world0 _ 2 1 ["1.1.1.1"; "2.2.2.2"] ["3.3.3.3"] "4.4.4.4"
              eq_refl eq_refl eq_refl eq_refl eq_refl)
    as (c0 & c1 & rs0 & rs1 & s' & _ & _ & Hrun & _ & _ & Hl0 & Hl1 & _).
  - lia.
  - lia.
  - apply (bool_decide_unpack _). by vm_compute.
  - intros k. simpl. lia.
  - intros l c j k Hl. cbn [heap] in Hl.
    assert (Htf : _rateLimitTimeframe c = 60000).
    { destruct l as [|[|l]].
      - rewrite lookup_insert_eq in Hl. injection Hl as <-. reflexivity.
      - rewrite lookup_insert_ne, lookup_insert_eq in Hl by lia.
        injection Hl as <-. reflexivity.
      - rewrite !lookup_insert_ne in Hl by lia. discriminate Hl. }
    rewrite Htf. cbn [clock env_const]. lia.
  - eexists. exists rs0, rs1. eexists. exists s'.
    split; [reflexivity|]. split; [exact Hrun|].
    split; [exact Hl0|]. split; [exact Hl1|]. reflexivity.
Defined.
